(** * Tourist exploration service (Puno): caching and aggregation pipeline

    Shallow embedding of [main.py]: the memoisation decorator
    [timed_lru_cache], the POI fetcher [fetch_pois], the weather fetcher
    [fetch_weather], the route ranker [calculate_routes] and the three JSON
    endpoints, followed by the properties of the specification.

    Conventions of the embedding.
    - Python floats are read as exact rationals ([Q]); [round] is the
      round-half-to-even of CPython.
    - The monotonic clock read by the caches is a count of nanoseconds ([N]),
      so it can only move forward; it is read once per call and does not
      advance inside a call.
    - The outside world (provider answers, random samples) is an input of the
      call that consumes it; outbound requests and log records are appended
      to the state.
    - A JSON document is a record whose fields may be absent ([None]); a
      field that is present has the type the provider documents.  Reading
      an absent field raises, as [d[k]] does.
    - An exception is a value of [outcome]; a function that catches it is
      written as the match that handles it.
    - Requests are served one at a time: a run of the server is a sequence
      of requests and of ticks of the clock. *)

From Stdlib Require Import List String Ascii Bool Arith NArith ZArith QArith Qabs Qround Lia Lqa.
From Stdlib Require Import Sorted Permutation.
Import ListNotations.


(** ** Numbers *)

Open Scope Q_scope.

(** [round(x)] of CPython on a float: nearest integer, ties to the even one. *)
Definition round_half_even (x : Q) : Z :=
  let f := Qfloor x in
  match Qcompare (x - inject_Z f) (1 # 2) with
  | Lt => f
  | Gt => (f + 1)%Z
  | Eq => if Z.even f then f else (f + 1)%Z
  end.

(** [round(x, ndigits)]. *)
Definition py_round (x : Q) (ndigits : nat) : Q :=
  let p := inject_Z (10 ^ Z.of_nat ndigits) in
  inject_Z (round_half_even (x * p)) / p.

(** [random.uniform(a, b)] is [a + (b - a) * random.random()]; [u] is the
    sample drawn by [random.random()], a float of the interval [0, 1). *)
Definition uniform (a b u : Q) : Q := a + (b - a) * u.

Definition unit_sample (u : Q) : Prop := 0 <= u /\ u < 1.

(** [sum(xs) / len(xs)]. *)
Definition py_sum (xs : list Q) : Q := fold_left Qplus xs 0.
Definition mean (xs : list Q) : Q := py_sum xs / inject_Z (Z.of_nat (List.length xs)).

Close Scope Q_scope.

(** ** Dictionary keys *)

Class EqKey (K : Type) := {
  key_eqb : K -> K -> bool;
  key_eqb_eq : forall a b, key_eqb a b = true <-> a = b
}.

#[export] Instance string_EqKey : EqKey string :=
  {| key_eqb := String.eqb; key_eqb_eq := String.eqb_eq |}.

Definition Q_eqb (a b : Q) : bool :=
  Z.eqb (Qnum a) (Qnum b) && Pos.eqb (Qden a) (Qden b).

Definition coord_eqb (a b : Q * Q) : bool :=
  Q_eqb (fst a) (fst b) && Q_eqb (snd a) (snd b).

#[export] Instance coord_EqKey : EqKey (Q * Q).
Proof.
  refine {| key_eqb := coord_eqb |}.
  assert (HQ : forall a b : Q, Q_eqb a b = true <-> a = b).
  { intros [an ad] [bn bd]. unfold Q_eqb. simpl.
    rewrite andb_true_iff, Z.eqb_eq, Pos.eqb_eq.
    split; [intros [-> ->]; reflexivity | intros E; inversion E; auto]. }
  intros [a1 a2] [b1 b2]. unfold coord_eqb. simpl.
  rewrite andb_true_iff, !HQ.
  split; [intros [-> ->]; reflexivity | intros E; inversion E; auto].
Defined.

(** ** cachetools.TTLCache *)

(** One second of the monotonic clock. *)
Definition seconds (n : N) : N := (n * 1000000000)%N.

Module TTLCache.
Section Def.
Context {K V : Type} `{EqKey K}.

(** Modelled from the spec: the class [TTLCache] of the package cachetools,
    which the program imports and whose code is not in the repository.  The spec
    gives a cache entry as (key, value, insertion time, TTL), visible while
    [now - insertion_time < TTL], at most 100 entries per cache, and an
    insertion into a full cache that evicts the expired entries and
    otherwise the least recently used one.  [links] holds the entries from
    the least to the most recently used; [expires] is insertion time plus
    TTL. *)
Record Link := { key : K; value : V; expires : N }.
Record t := { ttl : N; links : list Link }.

(** Every cache of the program is built with [maxsize=100]. *)
Definition maxsize : nat := 100.

Definition empty (ttl : N) : t := {| ttl := ttl; links := [] |}.

Definition live (now : N) (l : Link) : bool := (now <? expires l)%N.

Definition has_key (k : K) (l : Link) : bool := key_eqb (key l) k.

Definition find_link (k : K) (ls : list Link) : option Link :=
  find (has_key k) ls.

Definition unlink (k : K) (ls : list Link) : list Link :=
  filter (fun l => negb (has_key k l)) ls.

Definition currsize (c : t) : nat := List.length (links c).

(** Modelled from the spec: [TTLCache.expire], which drops the entries that
    are no longer visible. *)
Definition expire (now : N) (c : t) : t :=
  {| ttl := ttl c; links := filter (live now) (links c) |}.

(** Modelled from the spec: [key in cache]; the test does not count as a
    use. *)
Definition contains (now : N) (k : K) (c : t) : bool :=
  match find_link k (links c) with
  | Some l => live now l
  | None => false
  end.

(** Modelled from the spec: [cache[key]]; [None] stands for [KeyError].
    The entry becomes the most recently used one. *)
Definition getitem (now : N) (k : K) (c : t) : option V * t :=
  match find_link k (links c) with
  | None => (None, c)
  | Some l =>
      let c' := {| ttl := ttl c; links := unlink k (links c) ++ [l] |} in
      (if live now l then Some (value l) else None, c')
  end.

(** Modelled from the spec: [TTLCache.popitem], which removes the least
    recently used entry that has not expired. *)
Definition popitem (now : N) (c : t) : t :=
  {| ttl := ttl c; links := tl (links (expire now c)) |}.

(** Modelled from the spec: [cache[key] = value]; expire, make room while
    the cache is full and the key is new, then store the value as the most
    recently used entry with a fresh expiry time. *)
Definition setitem (now : N) (k : K) (v : V) (c : t) : t :=
  let c1 := expire now c in
  let c2 :=
    match find_link k (links c1) with
    | Some _ => c1
    | None => Nat.iter (currsize c1 + 1 - maxsize) (popitem now) c1
    end in
  {| ttl := ttl c;
     links := unlink k (links c2)
              ++ [{| key := k; value := v; expires := (now + ttl c)%N |}] |}.

(** What a reader sees under [k] at time [now]. *)
Definition visible (now : N) (k : K) (c : t) : option V :=
  match find_link k (links c) with
  | Some l => if live now l then Some (value l) else None
  | None => None
  end.

Definition keys (c : t) : list K := map key (links c).

Definition wf (c : t) : Prop := NoDup (keys c) /\ currsize c <= maxsize.
End Def.
Arguments Link : clear implicits.
Arguments t : clear implicits.
End TTLCache.

(** ** Exceptions *)

Inductive exn := KeyError | IndexError | RequestException.

Inductive outcome (A : Type) :=
| Return (a : A)
| Raise (e : exn).
Arguments Return {A} a.
Arguments Raise {A} e.

Definition bind {A B : Type} (m : outcome A) (f : A -> outcome B) : outcome B :=
  match m with
  | Return a => f a
  | Raise e => Raise e
  end.

Notation "x <- m ;; k" := (bind m (fun x => k))
  (at level 61, m at next level, right associativity).

(** [d[k]] on a JSON object whose field [k] may be absent. *)
Definition item {A : Type} (field : option A) : outcome A :=
  match field with
  | Some a => Return a
  | None => Raise KeyError
  end.

(** [xs[0]]. *)
Definition first {A : Type} (xs : list A) : outcome A :=
  match xs with
  | x :: _ => Return x
  | [] => Raise IndexError
  end.

(** ** Data model *)

Open Scope string_scope.

(** A JSON object with string values, as an association list. *)
Definition dict (A : Type) := list (string * A).

Fixpoint dict_get {A : Type} (k : string) (d : dict A) : option A :=
  match d with
  | [] => None
  | (k', v) :: d' => if String.eqb k' k then Some v else dict_get k d'
  end.

(** [d.get(k, default)]. *)
Definition get {A : Type} (k : string) (default : A) (d : dict A) : A :=
  match dict_get k d with
  | Some v => v
  | None => default
  end.

(** An element of the answer of the map-data provider. *)
Record element := {
  e_type : option string;
  e_id : option Z;
  e_lat : option Q;
  e_lon : option Q;
  e_nodes : option (list Z);
  e_tags : option (dict string)
}.

Record overpass_data := { d_elements : option (list element) }.

Record poi := {
  poi_name : string;
  poi_location : Q * Q;
  poi_address : string;
  poi_type : string;
  poi_rating : Q;
  poi_description : string;
  poi_phone : string;
  poi_website : string;
  poi_opening_hours : string
}.

Record WeatherSnapshot := {
  ws_description : string;
  ws_temperature : Z;
  ws_feels_like : Z;
  ws_humidity : Q;
  ws_wind_speed : Q;
  ws_icon : string
}.

Record weather_entry := { we_description : option string; we_icon : option string }.
Record weather_main := {
  wm_temp : option Q; wm_feels_like : option Q; wm_humidity : option Q }.
Record weather_wind := { ww_speed : option Q }.
Record weather_data := {
  wd_weather : option (list weather_entry);
  wd_main : option weather_main;
  wd_wind : option weather_wind
}.

(** The three Overpass queries of [fetch_pois]; their text is passed to the
    provider unchanged and is not inspected by the program. *)
Inductive overpass_query := QueryHotel | QueryRestaurant | QueryAttraction.

Definition queries : dict overpass_query :=
  [("hotel", QueryHotel); ("restaurant", QueryRestaurant);
   ("attraction", QueryAttraction)].

(** Outbound HTTP requests. *)
Inductive request :=
| GetOverpass (query : overpass_query)
| GetWeather (lat lon : Q)
| GetRoute (start_lon start_lat end_lon end_lat : Q).

(** What [requests.get] followed by [raise_for_status] and [json] gives:
    the decoded body, or a [requests.RequestException]. *)
Inductive http_result (A : Type) :=
| Response (body : A)
| RequestFailed.
Arguments Response {A} body.
Arguments RequestFailed {A}.

Inductive log_record :=
| WarnInvalidCategory (category : string)
| ErrorOverpass
| ErrorPOI
| ErrorWeather
| ErrorRoute (name : string)
| ErrorDirections
| ErrorPois
| ErrorHTTP
| ErrorUnexpected.

(** ** State of the process *)

Record world := {
  now : N;
  CACHE : TTLCache.t string Empty_set;
  fetch_pois_cache : TTLCache.t string (list poi);
  fetch_weather_cache : TTLCache.t (Q * Q) (option WeatherSnapshot);
  POI_CACHE : TTLCache.t string (list poi);
  outbound : list request;
  log : list log_record
}.

(** [cache = TTLCache(maxsize=100, ttl=timeout)] of [timed_lru_cache]. *)
Definition decorator_cache (K V : Type) (timeout : N) : TTLCache.t K V :=
  TTLCache.empty (seconds timeout).

(** The state after the module is loaded.  Nothing reads or writes the
    module-level [CACHE]: no value is ever stored in it. *)
Definition init (t0 : N) : world :=
  {| now := t0;
     CACHE := TTLCache.empty (seconds 3600);
     fetch_pois_cache := decorator_cache _ _ 3600;
     fetch_weather_cache := decorator_cache _ _ 300;
     POI_CACHE := TTLCache.empty (seconds 86400);
     outbound := [];
     log := [] |}.

Definition set_fetch_pois_cache (c : TTLCache.t string (list poi)) (w : world) : world :=
  {| now := now w; CACHE := CACHE w; fetch_pois_cache := c;
     fetch_weather_cache := fetch_weather_cache w; POI_CACHE := POI_CACHE w;
     outbound := outbound w; log := log w |}.

Definition set_fetch_weather_cache
    (c : TTLCache.t (Q * Q) (option WeatherSnapshot)) (w : world) : world :=
  {| now := now w; CACHE := CACHE w; fetch_pois_cache := fetch_pois_cache w;
     fetch_weather_cache := c; POI_CACHE := POI_CACHE w;
     outbound := outbound w; log := log w |}.

Definition set_POI_CACHE (c : TTLCache.t string (list poi)) (w : world) : world :=
  {| now := now w; CACHE := CACHE w; fetch_pois_cache := fetch_pois_cache w;
     fetch_weather_cache := fetch_weather_cache w; POI_CACHE := c;
     outbound := outbound w; log := log w |}.

(** [requests.get(...)]. *)
Definition send (r : request) (w : world) : world :=
  {| now := now w; CACHE := CACHE w; fetch_pois_cache := fetch_pois_cache w;
     fetch_weather_cache := fetch_weather_cache w; POI_CACHE := POI_CACHE w;
     outbound := outbound w ++ [r]; log := log w |}.

(** [logger.warning(...)], [logger.error(...)]. *)
Definition emit (rs : list log_record) (w : world) : world :=
  {| now := now w; CACHE := CACHE w; fetch_pois_cache := fetch_pois_cache w;
     fetch_weather_cache := fetch_weather_cache w; POI_CACHE := POI_CACHE w;
     outbound := outbound w; log := log w ++ rs |}.

(** The clock moves forward by [d] nanoseconds between two calls. *)
Definition tick (d : N) (w : world) : world :=
  {| now := (now w + d)%N; CACHE := CACHE w; fetch_pois_cache := fetch_pois_cache w;
     fetch_weather_cache := fetch_weather_cache w; POI_CACHE := POI_CACHE w;
     outbound := outbound w; log := log w |}.

(** ** The decorator [timed_lru_cache]

    [key] stands for [str(args) + str(kwargs)], [cache] and [set_cache] for
    the closure variable [cache] of the decorated function, [f] for the call
    [f] applied to the arguments. *)
Definition timed_lru_cache {K V : Type} `{EqKey K}
    (cache : world -> TTLCache.t K V)
    (set_cache : TTLCache.t K V -> world -> world)
    (key : K) (f : world -> outcome V * world) (w : world) : outcome V * world :=
  match TTLCache.getitem (now w) key (cache w) with
  | (Some v, c) => (Return v, set_cache c w)
  | (None, c) =>
      let (r, w1) := f (set_cache c w) in
      match r with
      | Return result =>
          (Return result,
           set_cache (TTLCache.setitem (now w1) key result (cache w1)) w1)
      | Raise e => (Raise e, w1)
      end
  end.

(** ** [fetch_pois] *)

Definition Sin_nombre : string := "Sin nombre".
Definition Sin_direccion : string := "Sin dirección".

(** [[node[field] for node in data['elements']
       if node['type'] == 'node' and node['id'] in element['nodes']]]. *)
Fixpoint way_nodes (field : element -> option Q) (way : element)
    (all : list element) : outcome (list Q) :=
  match all with
  | [] => Return []
  | node :: rest =>
      ty <- item (e_type node) ;;
      if String.eqb ty "node" then
        id <- item (e_id node) ;;
        nodes <- item (e_nodes way) ;;
        if existsb (Z.eqb id) nodes then
          x <- item (field node) ;;
          xs <- way_nodes field way rest ;;
          Return (x :: xs)
        else way_nodes field way rest
      else way_nodes field way rest
  end.

Definition nonempty {A : Type} (xs : list A) : bool :=
  match xs with [] => false | _ :: _ => true end.

(** The result of one turn of the loop over the elements. *)
Inductive turn :=
| Continue                     (* [continue], nothing appended *)
| Failed                       (* an exception, logged by the handler *)
| Append (p : poi).

(** The first half of the loop body: the assignment of [lat, lon].  The two
    variables keep their value from one turn to the next; [None] is the
    state in which they are not bound yet.  The result is the value of the
    variables after the assignment, or the turn's early exit. *)
Definition locate (all : list element) (element : element)
    (latlon : option (Q * Q)) : turn + option (Q * Q) :=
  match e_type element with
  | Some "node" =>
      match e_lat element, e_lon element with
      | Some lat, Some lon => inr (Some (lat, lon))
      | _, _ => inl Failed
      end
  | Some "way" =>
      match way_nodes e_lat element all with
      | Raise _ => inl Failed
      | Return lats =>
          match way_nodes e_lon element all with
          | Raise _ => inl Failed
          | Return lons =>
              if nonempty lats && nonempty lons
              then inr (Some (mean lats, mean lons))
              else inl Continue
          end
      end
  | _ => inr latlon
  end.

(** One turn of [for element in data.get('elements', [])]; [u] is the sample
    that [random.uniform] draws if the turn reaches it. *)
Definition process_element (all : list element) (category : string) (u : Q)
    (latlon : option (Q * Q)) (element : element) : turn * option (Q * Q) :=
  match locate all element latlon with
  | inl t => (t, latlon)
  | inr latlon' =>
      let tags := match e_tags element with Some t => t | None => [] end in
      let name := get "name" Sin_nombre tags in
      if String.eqb name Sin_nombre then (Continue, latlon')
      else
        match latlon' with
        | None => (Failed, latlon')
        | Some (lat, lon) =>
            (Append
               {| poi_name := name;
                  poi_location := (lat, lon);
                  poi_address := get "addr:street" Sin_direccion tags;
                  poi_type := category;
                  poi_rating := py_round (uniform (35 # 10) 5 u) 1;
                  poi_description := get "description" "" tags;
                  poi_phone := get "phone" "" tags;
                  poi_website := get "website" "" tags;
                  poi_opening_hours := get "opening_hours" "" tags |},
             latlon')
        end
  end.

(** The loop: [random] is the sequence of samples the generator will draw,
    [drawn] the number of samples consumed so far.  The result is the list
    [pois] and the records logged by the exception handler. *)
Fixpoint process_elements (all : list element) (category : string)
    (random : nat -> Q) (drawn : nat) (latlon : option (Q * Q))
    (todo : list element) : list poi * list log_record :=
  match todo with
  | [] => ([], [])
  | element :: rest =>
      let (t, latlon') := process_element all category (random drawn) latlon element in
      match t with
      | Append p =>
          let (pois, errors) := process_elements all category random (S drawn) latlon' rest in
          (p :: pois, errors)
      | Failed =>
          let (pois, errors) := process_elements all category random drawn latlon' rest in
          (pois, ErrorPOI :: errors)
      | Continue => process_elements all category random drawn latlon' rest
      end
  end.

(** The body of [fetch_pois], before decoration.  [overpass] is the answer
    the provider gives if it is asked.

    Two statements of the source stand outside both of its handlers:
    [for element in data.get('elements', [])], which raises on a body that
    is not an object or whose [elements] cannot be iterated, and
    [POI_CACHE[cache_key]], which raises [KeyError] if the entry expires
    between the test [in] and the read.  With a typed answer and a clock
    read once per call neither raise has a counterpart here: of the two
    only the second is written below, as a branch that is never taken. *)
Definition fetch_pois_wrapped (category : string)
    (overpass : http_result overpass_data) (random : nat -> Q)
    (w : world) : outcome (list poi) * world :=
  match dict_get category queries with
  | None => (Return [], emit [WarnInvalidCategory category] w)
  | Some query =>
      let cache_key := "pois_" ++ category in
      if TTLCache.contains (now w) cache_key (POI_CACHE w) then
        match TTLCache.getitem (now w) cache_key (POI_CACHE w) with
        | (Some pois, c) => (Return pois, set_POI_CACHE c w)
        | (None, c) => (Raise KeyError, set_POI_CACHE c w)
        end
      else
        let w1 := send (GetOverpass query) w in
        match overpass with
        | RequestFailed => (Return [], emit [ErrorOverpass] w1)
        | Response data =>
            let all := match d_elements data with Some es => es | None => [] end in
            let (pois, errors) := process_elements all category random 0 None all in
            let w2 := emit errors w1 in
            (Return pois,
             set_POI_CACHE (TTLCache.setitem (now w2) cache_key pois (POI_CACHE w2)) w2)
        end
  end.

(** [fetch_pois] as the module exports it: [@timed_lru_cache(timeout=3600)].
    The key [str(args) + str(kwargs)] of a call with one positional string
    is the text [('category',){}], which determines the string; the string
    itself is used as the key. *)
Definition fetch_pois (category : string)
    (overpass : http_result overpass_data) (random : nat -> Q)
    (w : world) : outcome (list poi) * world :=
  timed_lru_cache fetch_pois_cache set_fetch_pois_cache category
    (fetch_pois_wrapped category overpass random) w.

(** ** [fetch_weather] and the endpoints

    Three functions of the Python platform are parameters of the model:
    [str.capitalize], the conversion [float(s)] of a query-string value
    ([None] is [ValueError]) and [geopy.distance.geodesic(a, b).kilometers]
    ([None] is the exception it raises on a malformed coordinate).  The
    environment variable read at start-up is a parameter too. *)
Section App.
Variable OPENWEATHERMAP_API_KEY : option string.
Variable capitalize : string -> string.
Variable float_of_string : string -> option Q.
Variable geodesic_km : Q * Q -> Q * Q -> option Q.

Definition DEFAULT_LAT : Q := (-158403 # 10000).
Definition DEFAULT_LON : Q := (-700217 # 10000).

(** The dictionary literal returned by [fetch_weather], evaluated field by
    field in the order of the source. *)
Definition snapshot (data : weather_data) : outcome WeatherSnapshot :=
  description <- (ws <- item (wd_weather data) ;; w0 <- first ws ;;
                  item (we_description w0)) ;;
  temp <- (main <- item (wd_main data) ;; item (wm_temp main)) ;;
  feels_like <- (main <- item (wd_main data) ;; item (wm_feels_like main)) ;;
  humidity <- (main <- item (wd_main data) ;; item (wm_humidity main)) ;;
  speed <- (wind <- item (wd_wind data) ;; item (ww_speed wind)) ;;
  icon <- (ws <- item (wd_weather data) ;; w0 <- first ws ;;
           item (we_icon w0)) ;;
  Return {| ws_description := capitalize description;
            ws_temperature := round_half_even temp;
            ws_feels_like := round_half_even feels_like;
            ws_humidity := humidity;
            ws_wind_speed := py_round (speed * (36 # 10)) 1;
            ws_icon := icon |}.

(** [not OPENWEATHERMAP_API_KEY]. *)
Definition no_api_key : bool :=
  match OPENWEATHERMAP_API_KEY with
  | None => true
  | Some k => String.eqb k ""
  end.

Definition fetch_weather_wrapped (lat lon : Q)
    (answer : http_result weather_data) (w : world)
    : outcome (option WeatherSnapshot) * world :=
  if no_api_key then (Return None, w)
  else
    let w1 := send (GetWeather lat lon) w in
    match answer with
    | RequestFailed => (Return None, emit [ErrorWeather] w1)
    | Response data =>
        match snapshot data with
        | Return s => (Return (Some s), w1)
        | Raise e => (Raise e, w1)
        end
    end.

(** The key [str(args) + str(kwargs)] of a call with two positional floats
    prints both with [repr], which rounds nothing and prints two floats
    alike only when they are the same float; the pair of reduced fractions
    is used as the key.  Equal floats are the same float except for [0.0]
    and [-0.0], which the rationals do not tell apart: where a coordinate
    is zero the key of the program is finer than this one. *)
Definition weather_key (lat lon : Q) : Q * Q := (Qred lat, Qred lon).

Definition fetch_weather (lat lon : Q) (answer : http_result weather_data)
    (w : world) : outcome (option WeatherSnapshot) * world :=
  timed_lru_cache fetch_weather_cache set_fetch_weather_cache
    (weather_key lat lon) (fetch_weather_wrapped lat lon answer) w.

(** ** [calculate_routes] *)

Record route := { r_poi : poi; r_distance : Q }.

(** [list.sort(key=...)]: a stable sort that compares the keys with [<]. *)
Fixpoint insert_by {A : Type} (key : A -> Q) (x : A) (l : list A) : list A :=
  match l with
  | [] => [x]
  | y :: l' =>
      if Qle_bool (key x) (key y) then x :: y :: l'
      else y :: insert_by key x l'
  end.

Definition sort_by {A : Type} (key : A -> Q) (l : list A) : list A :=
  fold_right (insert_by key) [] l.

(** The loop of [calculate_routes]: the routes appended and the errors
    logged. *)
Fixpoint append_routes (user_location : Q * Q) (pois : list poi)
    : list route * list log_record :=
  match pois with
  | [] => ([], [])
  | p :: rest =>
      let (routes, errors) := append_routes user_location rest in
      match geodesic_km user_location (poi_location p) with
      | Some distance =>
          ({| r_poi := p; r_distance := py_round distance 2 |} :: routes, errors)
      | None => (routes, ErrorRoute (poi_name p) :: errors)
      end
  end.

Definition calculate_routes (user_location : Q * Q) (pois : list poi)
    (w : world) : list route * world :=
  let (routes, errors) := append_routes user_location pois in
  (sort_by r_distance routes, emit errors w).

(** ** Endpoints *)

Inductive payload :=
| JsonRoutes (routes : list route)
| JsonWeather (s : WeatherSnapshot)
| JsonDirections (route : list (list Q)) (distance : Q) (duration : Z)
| JsonError (msg : string)
| JsonException (e : exn).

Record response := { status : nat; body : payload }.

(** [request.args.get(key, default=..., type=...)]: the default when the
    key is absent or when the conversion fails. *)
Definition args_get {A : Type} (args : dict string) (k : string) (default : A)
    (type : string -> option A) : A :=
  match dict_get k args with
  | None => default
  | Some s => match type s with Some a => a | None => default end
  end.

(** [type=float] with a default that is [None]. *)
Definition optional_float (s : string) : option (option Q) :=
  option_map Some (float_of_string s).

(** The decorator [error_handler]. *)
Definition error_handler (r : outcome response * world) : response * world :=
  match r with
  | (Return resp, w) => (resp, w)
  | (Raise RequestException, w) =>
      ({| status := 503; body := JsonError "Error de conexión" |},
       emit [ErrorHTTP] w)
  | (Raise _, w) =>
      ({| status := 500; body := JsonError "Error interno del servidor" |},
       emit [ErrorUnexpected] w)
  end.

(** The filter of [get_pois]: [poi['rating'] >= rating]. *)
Definition filtered_pois (rating : Q) (pois : list poi) : list poi :=
  filter (fun p => Qle_bool rating (poi_rating p)) pois.

Definition get_pois (category : string) (args : dict string)
    (overpass : http_result overpass_data) (random : nat -> Q)
    (w : world) : response * world :=
  error_handler
    (let lat := args_get args "lat" DEFAULT_LAT float_of_string in
     let lon := args_get args "lon" DEFAULT_LON float_of_string in
     let rating := args_get args "rating" 0%Q float_of_string in
     let user_location := (lat, lon) in
     match fetch_pois category overpass random w with
     | (Raise e, w1) =>
         (Return {| status := 500; body := JsonException e |},
          emit [ErrorPois] w1)
     | (Return pois, w1) =>
         let (routes, w2) :=
           calculate_routes user_location (filtered_pois rating pois) w1 in
         (Return {| status := 200; body := JsonRoutes routes |}, w2)
     end).

Definition get_weather (args : dict string)
    (answer : http_result weather_data) (w : world) : response * world :=
  error_handler
    (let lat := args_get args "lat" DEFAULT_LAT float_of_string in
     let lon := args_get args "lon" DEFAULT_LON float_of_string in
     match fetch_weather lat lon answer w with
     | (Raise e, w1) => (Raise e, w1)
     | (Return (Some weather_data), w1) =>
         (Return {| status := 200; body := JsonWeather weather_data |}, w1)
     | (Return None, w1) =>
         (Return {| status := 503;
                    body := JsonError "No se pudo obtener la información del clima" |},
          w1)
     end).

(** The answer of the routing provider. *)
Record osrm_geometry := { g_coordinates : option (list (list Q)) }.
Record osrm_route := {
  or_geometry : option osrm_geometry;
  or_distance : option Q;
  or_duration : option Q
}.
Record osrm_data := { od_code : option string; od_routes : option (list osrm_route) }.

Definition get_directions (args : dict string)
    (answer : http_result osrm_data) (w : world) : response * world :=
  error_handler
    (let start_lat := args_get args "start_lat" None optional_float in
     let start_lon := args_get args "start_lon" None optional_float in
     let end_lat := args_get args "end_lat" None optional_float in
     let end_lon := args_get args "end_lon" None optional_float in
     (* [if None in [start_lat, start_lon, end_lat, end_lon]] is the last
        branch *)
     match start_lat, start_lon, end_lat, end_lon with
     | Some slat, Some slon, Some elat, Some elon =>
         let w1 := send (GetRoute slon slat elon elat) w in
         match answer with
         | RequestFailed =>
             (Return {| status := 503; body := JsonError "Error al obtener la ruta" |},
              emit [ErrorDirections] w1)
         | Response data =>
             (r <- (code <- item (od_code data) ;;
                    if String.eqb code "Ok" then
                      route <- (routes <- item (od_routes data) ;; first routes) ;;
                      coordinates <- (geometry <- item (or_geometry route) ;;
                                      item (g_coordinates geometry)) ;;
                      distance <- item (or_distance route) ;;
                      duration <- item (or_duration route) ;;
                      Return {| status := 200;
                                body := JsonDirections coordinates
                                          (py_round (distance / 1000) 2)
                                          (round_half_even (duration / 60)) |}
                    else
                      Return {| status := 404;
                                body := JsonError "No se pudo encontrar una ruta" |}) ;;
              Return r, w1)
         end
     | _, _, _, _ =>
         (Return {| status := 400; body := JsonError "Faltan parámetros de ubicación" |}, w)
     end).

(** ** Runs of the server *)

Inductive event :=
| Tick (d : N)
| Pois (category : string) (args : dict string)
       (overpass : http_result overpass_data) (random : nat -> Q)
| Weather (args : dict string) (answer : http_result weather_data)
| Directions (args : dict string) (answer : http_result osrm_data).

Definition step (w : world) (ev : event) : world :=
  match ev with
  | Tick d => tick d w
  | Pois category args overpass random =>
      snd (get_pois category args overpass random w)
  | Weather args answer => snd (get_weather args answer w)
  | Directions args answer => snd (get_directions args answer w)
  end.

Definition run (w : world) (evs : list event) : world := fold_left step evs w.

(** ** Vocabulary of the properties *)

(** [category in queries]. *)
Definition valid_category (category : string) : bool :=
  match dict_get category queries with Some _ => true | None => false end.

Definition cache_key (category : string) : string := "pois_" ++ category.

(** The random generator only draws samples of [0, 1). *)
Definition genuine (ev : event) : Prop :=
  match ev with
  | Pois _ _ _ random => forall n, unit_sample (random n)
  | _ => True
  end.

(** The states the server can be in. *)
Definition reachable (w : world) : Prop :=
  exists t0 evs, Forall genuine evs /\ w = run (init t0) evs.

(** Time that passes during a run. *)
Definition elapsed (evs : list event) : N :=
  fold_right (fun ev t => match ev with Tick d => (d + t)%N | _ => t end) 0%N evs.

(** Operations on one cache, for statements about every use of it. *)
Inductive cache_op (K V : Type) :=
| Get (now : N) (k : K)
| Put (now : N) (k : K) (v : V)
| Expire (now : N)
| Pop (now : N).
Arguments Get {K V} now k.
Arguments Put {K V} now k v.
Arguments Expire {K V} now.
Arguments Pop {K V} now.

Definition apply_op {K V : Type} `{EqKey K} (c : TTLCache.t K V)
    (op : cache_op K V) : TTLCache.t K V :=
  match op with
  | Get now k => snd (TTLCache.getitem now k c)
  | Put now k v => TTLCache.setitem now k v c
  | Expire now => TTLCache.expire now c
  | Pop now => TTLCache.popitem now c
  end.

Definition cache_run {K V : Type} `{EqKey K} (c : TTLCache.t K V)
    (ops : list (cache_op K V)) : TTLCache.t K V :=
  fold_left apply_op ops c.

(** What [fetch_pois] guarantees of a record. *)
Definition rated (p : poi) : Prop :=
  ((35 # 10) <= poi_rating p)%Q /\ (poi_rating p <= 5)%Q.

Definition named (p : poi) : Prop := poi_name p <> Sin_nombre.

(** *** Invariants of the reachable states *)

(** The caches respect their capacity, hold one entry per key and keep the
    TTL they were built with. *)
Definition caches_wf (w : world) : Prop :=
  TTLCache.wf (fetch_pois_cache w) /\ TTLCache.wf (POI_CACHE w)
  /\ TTLCache.wf (fetch_weather_cache w)
  /\ TTLCache.ttl (fetch_pois_cache w) = seconds 3600
  /\ TTLCache.ttl (POI_CACHE w) = seconds 86400
  /\ TTLCache.ttl (fetch_weather_cache w) = seconds 300.

(** [POI_CACHE] is only written under the keys of the three categories. *)
Definition poi_keys_valid (w : world) : Prop :=
  forall l, In l (TTLCache.links (POI_CACHE w)) ->
  exists category,
    valid_category category = true /\ TTLCache.key l = cache_key category.

(** The decorator cache holds the empty list for an unknown category. *)
Definition memo_invalid_empty (w : world) : Prop :=
  forall l, In l (TTLCache.links (fetch_pois_cache w)) ->
  valid_category (TTLCache.key l) = false -> TTLCache.value l = [].

(** A memoised list differs from the list of [POI_CACHE] for the same
    category only when the latter has expired. *)
Definition coherent (w : world) : Prop :=
  forall lm lp,
    In lm (TTLCache.links (fetch_pois_cache w)) ->
    In lp (TTLCache.links (POI_CACHE w)) ->
    TTLCache.key lp = cache_key (TTLCache.key lm) ->
    TTLCache.value lm = TTLCache.value lp \/ TTLCache.live (now w) lp = false.

(** Every cached record went through the checks of [fetch_pois]. *)
Definition cached_good (w : world) : Prop :=
  forall l,
    In l (TTLCache.links (fetch_pois_cache w))
    \/ In l (TTLCache.links (POI_CACHE w)) ->
    Forall (fun p => named p /\ rated p) (TTLCache.value l).

Definition inv (w : world) : Prop :=
  caches_wf w /\ poi_keys_valid w /\ memo_invalid_empty w /\ coherent w
  /\ cached_good w.

(** *** Elements of a provider answer *)

(** The constituent points of a way, in the words of the specification: the
    node elements of the answer whose identifier the way lists. *)
Definition is_constituent (way node : element) : bool :=
  match e_type node, e_id node, e_nodes way with
  | Some ty, Some id, Some nodes =>
      String.eqb ty "node" && existsb (Z.eqb id) nodes
  | _, _, _ => false
  end.

Definition constituents (way : element) (all : list element) : list element :=
  filter (is_constituent way) all.

(** The scan of the answer for the nodes of a way can read the element: it
    has a type and, if it is a node, an identifier. *)
Definition scannable (e : element) : Prop :=
  e_type e <> None /\ (e_type e = Some "node" -> e_id e <> None).

(** A node that carries its coordinates. *)
Definition located_node (e : element) : Prop :=
  e_type e = Some "node" /\ e_lat e <> None /\ e_lon e <> None.

(** The name [fetch_pois] reads from an element. *)
Definition element_name (e : element) : string :=
  get "name" Sin_nombre (match e_tags e with Some t => t | None => [] end).

Definition has_name (n : string) : bool := negb (String.eqb n Sin_nombre).

(** *** Requests *)

(** A query parameter that is absent, or that [float] cannot convert. *)
Definition missing_or_unparsable (args : dict string) (k : string) : Prop :=
  match dict_get k args with
  | None => True
  | Some s => float_of_string s = None
  end.

(** The rounded distance [calculate_routes] gives a record, if any. *)
Definition distance_of (user_location : Q * Q) (p : poi) : option Q :=
  option_map (fun d => py_round d 2) (geodesic_km user_location (poi_location p)).

Definition at_distance (user_location : Q * Q) (d : Q) (p : poi) : bool :=
  match distance_of user_location p with
  | Some x => Qeq_bool x d
  | None => false
  end.

(** The order of a list sorted on [key]. *)
Definition by_key {A : Type} (key : A -> Q) (a b : A) : Prop :=
  (key a <= key b)%Q.

(** *** Keys looked up during a run *)

(** The list without its repetitions. *)
Fixpoint distinct {K : Type} `{EqKey K} (ks : list K) : list K :=
  match ks with
  | [] => []
  | k :: rest =>
      if existsb (key_eqb k) rest then distinct rest else k :: distinct rest
  end.

(** The keys of [ks] other than [k], each counted once. *)
Definition others {K : Type} `{EqKey K} (k : K) (ks : list K) : list K :=
  distinct (filter (fun k' => negb (key_eqb k' k)) ks).

(** The categories requested from [/pois] during a run. *)
Definition requested (evs : list event) : list string :=
  flat_map (fun ev => match ev with
                      | Pois category _ _ _ => [category]
                      | _ => []
                      end) evs.

(** The coordinates given to [fetch_weather] by [/weather] during a run. *)
Definition weather_args (args : dict string) : Q * Q :=
  (args_get args "lat" DEFAULT_LAT float_of_string,
   args_get args "lon" DEFAULT_LON float_of_string).

Definition looked_up (evs : list event) : list (Q * Q) :=
  flat_map (fun ev => match ev with
                      | Weather args _ =>
                          [weather_key (fst (weather_args args))
                             (snd (weather_args args))]
                      | _ => []
                      end) evs.

(** Neither coordinate is zero.  The floats [0.0] and [-0.0] are equal and
    print differently, so the program keeps them under two keys; the
    rationals have one zero, and the key of the embedding stands for the
    key of the program only where no coordinate is zero. *)
Definition no_zero (k : Q * Q) : Prop := ~ (fst k == 0)%Q /\ ~ (snd k == 0)%Q.

(** The cache holds [v] under [k] until [e], and every entry used more
    recently than that one is stored under a key of [recent]. *)
Definition guarded {K V : Type} (k : K) (v : V) (e : N) (recent : list K)
    (c : TTLCache.t K V) : Prop :=
  exists pre post,
    TTLCache.links c
    = (pre ++ {| TTLCache.key := k; TTLCache.value := v; TTLCache.expires := e |}
           :: post)%list
    /\ incl (map TTLCache.key post) recent.

(** The cache holds [v] under [k] until [e]. *)
Definition holds_until {K V : Type} (c : TTLCache.t K V) (k : K) (v : V) (e : N)
    : Prop :=
  In {| TTLCache.key := k; TTLCache.value := v; TTLCache.expires := e |}
     (TTLCache.links c).

(** ** Concrete inputs *)

(** A platform to run the model on: an API key, [capitalize] on strings
    that are already capitalised, [float] on a few literals and a flat
    stand-in for the geodesic distance. *)
Definition example_api_key : option string := Some "0123456789abcdef".

Definition example_capitalize (s : string) : string := s.

Definition example_float (s : string) : option Q :=
  dict_get s [("-15.84", (-1584 # 100)%Q); ("-70.02", (-7002 # 100)%Q);
              ("-15.85", (-1585 # 100)%Q); ("-70.03", (-7003 # 100)%Q);
              ("4.5", (45 # 10)%Q)].

Definition example_distance (a b : Q * Q) : option Q :=
  Some (Qabs (fst a - fst b) + Qabs (snd a - snd b))%Q.

(** Every sample of the generator is one half. *)
Definition half (n : nat) : Q := (1 # 2)%Q.

Definition node (id : Z) (lat lon : Q) (tags : option (dict string)) : element :=
  {| e_type := Some "node"; e_id := Some id; e_lat := Some lat;
     e_lon := Some lon; e_nodes := None; e_tags := tags |}.

Definition way (id : Z) (nodes : list Z) (tags : option (dict string)) : element :=
  {| e_type := Some "way"; e_id := Some id; e_lat := None; e_lon := None;
     e_nodes := Some nodes; e_tags := tags |}.

Definition answer (elements : list element) : http_result overpass_data :=
  Response {| d_elements := Some elements |}.

(** Two hotels mapped as nodes. *)
Definition two_hotels : list element :=
  [node 1 (-1584 # 100) (-7002 # 100) (Some [("name", "Hotel Titicaca")]);
   node 2 (-1585 # 100) (-7003 # 100) (Some [("name", "Casona Plaza")])].

(** A node whose [name] tag is the empty string. *)
Definition nameless : list element :=
  [node 3 (-1584 # 100) (-7002 # 100) (Some [("name", "")])].

(** The same node twice in one answer. *)
Definition repeated : list element :=
  [node 1 (-1584 # 100) (-7002 # 100) (Some [("name", "Hotel Titicaca")]);
   node 1 (-1584 # 100) (-7002 # 100) (Some [("name", "Hotel Titicaca")])].

(** A closed way around three nodes, and a way whose nodes are not in the
    answer. *)
Definition plaza : element := way 10 [1; 2; 4; 1]%Z (Some [("name", "Plaza de Armas")]).
Definition orphan : element := way 11 [7; 8]%Z (Some [("name", "Mirador")]).
Definition plaza_answer : list element :=
  [plaza; orphan;
   node 1 0 0 None; node 2 (3 # 1) 0 None; node 4 0 (6 # 1) None;
   node 5 (9 # 1) (9 # 1) None].

(** The strings "00" to "99". *)
Definition two_digits (n : nat) : string :=
  String (ascii_of_nat (48 + n / 10))
    (String (ascii_of_nat (48 + n mod 10)) EmptyString).

Definition hundred_strings : list string := map two_digits (seq 0 100).

(** An answer of the weather provider. *)
Definition clear_sky : http_result weather_data :=
  Response
    {| wd_weather := Some [{| we_description := Some "Cielo claro";
                              we_icon := Some "01d" |}];
       wd_main := Some {| wm_temp := Some (125 # 10)%Q;
                          wm_feels_like := Some (113 # 10)%Q;
                          wm_humidity := Some (40 # 1)%Q |};
       wd_wind := Some {| ww_speed := Some (5 # 1)%Q |} |}.

(** The records a call adds to the log. *)
Definition logged_between (w w' : world) : list log_record :=
  skipn (List.length (log w)) (log w').

(** The snapshot [fetch_weather] builds from [clear_sky]. *)
Definition clear_sky_snapshot : WeatherSnapshot :=
  {| ws_description := "Cielo claro"; ws_temperature := 12; ws_feels_like := 11;
     ws_humidity := (40 # 1)%Q; ws_wind_speed := (180 # 10)%Q; ws_icon := "01d" |}.

(** A hundred stores under different keys into an empty cache. *)
Definition hundred_stores : list (cache_op string nat) :=
  map (fun n => Put 0%N (two_digits n) n) (seq 0 100).

(** ** Vocabulary of the further properties *)

(** The answer of the weather provider holds every field that
    [fetch_weather] reads. *)
Definition complete (data : weather_data) : bool :=
  match wd_weather data, wd_main data, wd_wind data with
  | Some (w0 :: _), Some main, Some wind =>
      match we_description w0, we_icon w0, wm_temp main, wm_feels_like main,
            wm_humidity main, ww_speed wind with
      | Some _, Some _, Some _, Some _, Some _, Some _ => true
      | _, _, _, _, _, _ => false
      end
  | _, _, _ => false
  end.

(** The weather cache holds no snapshot. *)
Definition weather_none (w : world) : Prop :=
  forall l, In l (TTLCache.links (fetch_weather_cache w)) ->
  TTLCache.value l = None.

(** The request an endpoint may send for an event. *)
Definition may_send (ev : event) (r : request) : Prop :=
  match ev with
  | Tick _ => False
  | Pois category _ _ _ =>
      exists query, dict_get category queries = Some query /\ r = GetOverpass query
  | Weather args _ =>
      r = GetWeather (fst (weather_args args)) (snd (weather_args args))
  | Directions args _ =>
      exists start_lat start_lon end_lat end_lon,
        args_get args "start_lat" None optional_float = Some start_lat
        /\ args_get args "start_lon" None optional_float = Some start_lon
        /\ args_get args "end_lat" None optional_float = Some end_lat
        /\ args_get args "end_lon" None optional_float = Some end_lon
        /\ r = GetRoute start_lon start_lat end_lon end_lat
  end.

(** [geodesic] gives a distance for the record. *)
Definition computable (user_location : Q * Q) (p : poi) : bool :=
  match geodesic_km user_location (poi_location p) with
  | Some _ => true
  | None => false
  end.

(** A property of the records of a category that holds of every list in the
    two POI caches. *)
Definition cached_records (P : string -> poi -> Prop) (w : world) : Prop :=
  (forall l, In l (TTLCache.links (fetch_pois_cache w)) ->
     Forall (P (TTLCache.key l)) (TTLCache.value l))
  /\ (forall l category, In l (TTLCache.links (POI_CACHE w)) ->
        TTLCache.key l = cache_key category ->
        Forall (P category) (TTLCache.value l)).

(** A property that the loop of [fetch_pois] gives every record it builds. *)
Definition fresh_records (P : string -> poi -> Prop) : Prop :=
  forall all category u latlon element p latlon',
    unit_sample u ->
    process_element all category u latlon element = (Append p, latlon') ->
    P category p.

(** The rating is one of 3.5, 3.6, ..., 5.0. *)
Definition one_decimal_rating (p : poi) : Prop :=
  exists k : Z, (35 <= k <= 50)%Z /\ (poi_rating p == k # 10)%Q.

(** No entry of a cache outlives the TTL of the cache. *)
Definition within_ttl {K V : Type} (now : N) (c : TTLCache.t K V) : Prop :=
  forall l, In l (TTLCache.links c) ->
  (TTLCache.expires l <= now + TTLCache.ttl c)%N.

Definition caches_within_ttl (w : world) : Prop :=
  within_ttl (now w) (fetch_pois_cache w)
  /\ within_ttl (now w) (POI_CACHE w)
  /\ within_ttl (now w) (fetch_weather_cache w).

(** The keys [fetch_pois] writes [POI_CACHE] under. *)
Definition poi_cache_keys : list string :=
  ["pois_hotel"; "pois_restaurant"; "pois_attraction"].

(** *** More concrete inputs *)

(** An answer of the weather provider without the wind. *)
Definition no_wind_data : weather_data :=
  {| wd_weather := Some [{| we_description := Some "Cielo claro";
                            we_icon := Some "01d" |}];
     wd_main := Some {| wm_temp := Some (125 # 10)%Q;
                        wm_feels_like := Some (113 # 10)%Q;
                        wm_humidity := Some (40 # 1)%Q |};
     wd_wind := None |}.

Definition no_wind : http_result weather_data := Response no_wind_data.

(** An answer of the routing provider: one route of 1234.5 m and 300 s. *)
Definition one_route : http_result osrm_data :=
  Response
    {| od_code := Some "Ok";
       od_routes :=
         Some [{| or_geometry :=
                    Some {| g_coordinates :=
                              Some [[(-7002 # 100)%Q; (-1584 # 100)%Q];
                                    [(-7003 # 100)%Q; (-1585 # 100)%Q]] |};
                  or_distance := Some (12345 # 10)%Q;
                  or_duration := Some (300 # 1)%Q |}] |}.

Definition four_coordinates : dict string :=
  [("start_lat", "-15.84"); ("start_lon", "-70.02");
   ("end_lat", "-15.85"); ("end_lon", "-70.03")].

(** An element without a type, and a node without its latitude. *)
Definition typeless : element :=
  {| e_type := None; e_id := Some 9%Z; e_lat := None; e_lon := None;
     e_nodes := None; e_tags := None |}.


(** A conversion that knows one more literal. *)
Definition threshold_float (s : string) : option Q :=
  if String.eqb s "5.5" then Some (55 # 10)%Q else None.

(** The records [fetch_pois] builds from [two_hotels]. *)
Definition two_hotel_records : list poi :=
  Eval vm_compute in
    match fst (fetch_pois "hotel" (answer two_hotels) half (init 0)) with
    | Return pois => pois
    | Raise _ => []
    end.

(** A route to the first of them from the centre of the town. *)
Definition first_hotel : poi := hd (Build_poi "" (0, 0)%Q "" "" 0%Q "" "" "" "") two_hotel_records.

Definition first_hotel_route : route :=
  {| r_poi := first_hotel;
     r_distance :=
       py_round (Qabs (DEFAULT_LAT - (-1584 # 100)) + Qabs (DEFAULT_LON - (-7002 # 100)))%Q 2 |}.

(** Three requests to [/pois], one of them for an unknown category, and a
    request to [/weather]. *)
Definition morning : list event :=
  [Pois "hotel" [] (answer two_hotels) half;
   Pois "zoo" [] RequestFailed half;
   Pois "restaurant" [] (answer repeated) half;
   Weather [] clear_sky].

(** The record logged by the [requests.RequestException] branch of
    [error_handler]. *)
Definition connection_record (r : log_record) : bool :=
  match r with
  | ErrorHTTP => true
  | _ => false
  end.

(** The answer of the [requests.RequestException] branch of
    [error_handler]. *)
Definition connection_error : response :=
  {| status := 503; body := JsonError "Error de conexión" |}.

(** The computation raises nothing that [requests] raises. *)
Definition no_request_exception {A : Type} (m : outcome A) : Prop :=
  m <> Raise RequestException.

(** The body of [clear_sky]. *)
Definition clear_sky_data : weather_data :=
  Eval cbv in
    match clear_sky with
    | Response data => data
    | RequestFailed => no_wind_data
    end.

(** * Properties *)

Local Open Scope list_scope.

(** ** Rounding *)

Lemma round_half_even_between (x : Q) (a b : Z) :
  (inject_Z a <= x)%Q -> (x <= inject_Z b)%Q ->
  (a <= round_half_even x <= b)%Z.
Proof.
  intros Ha Hb. unfold round_half_even.
  assert (Hfa : (a <= Qfloor x)%Z).
  { rewrite <- (Qfloor_Z a). apply Qfloor_resp_le. exact Ha. }
  assert (Hfb : (Qfloor x <= b)%Z).
  { rewrite <- (Qfloor_Z b). apply Qfloor_resp_le. exact Hb. }
  assert (Hup : (inject_Z (Qfloor x) < x)%Q -> (Qfloor x + 1 <= b)%Z).
  { intros Hlt. assert (Hq : (inject_Z (Qfloor x) < inject_Z b)%Q)
      by (eapply Qlt_le_trans; eassumption).
    rewrite <- Zlt_Qlt in Hq. lia. }
  destruct (Qcompare (x - inject_Z (Qfloor x)) (1 # 2)) eqn:E.
  - apply Qeq_alt in E. destruct (Z.even (Qfloor x)); [lia |].
    split; [lia | apply Hup; lra].
  - lia.
  - apply Qgt_alt in E. split; [lia | apply Hup; lra].
Qed.

Lemma py_round_1_between (x : Q) (a b : Z) :
  (inject_Z a <= x * 10)%Q -> (x * 10 <= inject_Z b)%Q ->
  (a # 10 <= py_round x 1%nat)%Q /\ (py_round x 1%nat <= b # 10)%Q.
Proof.
  intros Ha Hb. unfold py_round.
  change (inject_Z (10 ^ Z.of_nat 1)) with (inject_Z (Zpos 10)).
  destruct (round_half_even_between (x * inject_Z (Zpos 10))%Q a b Ha Hb) as [H1 H2].
  rewrite <- Qmake_Qdiv.
  split; unfold Qle; simpl; lia.
Qed.

(** The rating drawn by [fetch_pois]. *)
Lemma rating_range (u : Q) :
  unit_sample u ->
  let r := py_round (uniform (35 # 10) 5 u) 1%nat in
  ((35 # 10) <= r)%Q /\ (r <= 5)%Q.
Proof.
  intros [H0 H1] r. subst r. unfold uniform.
  destruct (py_round_1_between ((35 # 10) + (5 - (35 # 10)) * u)%Q 35 50) as [Ha Hb].
  - change (inject_Z 35) with 35%Q. lra.
  - change (inject_Z 50) with 50%Q. lra.
  - split; [exact Ha |].
    apply Qle_trans with (50 # 10)%Q; [exact Hb | discriminate].
Qed.

(** ** The cache *)

Section TTLCacheFacts.
Context {K V : Type} `{EqKey K}.
Implicit Types (c : TTLCache.t K V) (l : TTLCache.Link K V).
Implicit Types (ls : list (TTLCache.Link K V)) (k : K) (now : N).

Lemma key_eqb_refl k : key_eqb k k = true.
Proof. apply key_eqb_eq. reflexivity. Qed.

Lemma key_eqb_neq k k' : k <> k' -> key_eqb k k' = false.
Proof.
  intros Hne. destruct (key_eqb k k') eqn:E; [| reflexivity].
  apply key_eqb_eq in E. contradiction.
Qed.

Lemma has_key_true k l : TTLCache.has_key k l = true <-> TTLCache.key l = k.
Proof. unfold TTLCache.has_key. apply key_eqb_eq. Qed.

Lemma has_key_false k l : TTLCache.has_key k l = false <-> TTLCache.key l <> k.
Proof.
  rewrite <- has_key_true. destruct (TTLCache.has_key k l); split; congruence.
Qed.

Lemma find_link_some k ls l :
  TTLCache.find_link k ls = Some l -> In l ls /\ TTLCache.key l = k.
Proof.
  intros Hf. apply find_some in Hf. destruct Hf as [Hin Hk].
  split; [exact Hin | apply has_key_true; exact Hk].
Qed.

Lemma find_link_none k ls :
  TTLCache.find_link k ls = None -> ~ In k (map TTLCache.key ls).
Proof.
  intros Hf Hin. apply in_map_iff in Hin. destruct Hin as [l [Hk Hin]].
  apply (find_none _ _ Hf) in Hin. apply has_key_false in Hin. contradiction.
Qed.

Lemma find_link_present k ls :
  In k (map TTLCache.key ls) -> exists l, TTLCache.find_link k ls = Some l.
Proof.
  intros Hin. destruct (TTLCache.find_link k ls) as [l |] eqn:E.
  - exists l. reflexivity.
  - apply find_link_none in E. contradiction.
Qed.

Lemma find_link_in ls l :
  NoDup (map TTLCache.key ls) -> In l ls ->
  TTLCache.find_link (TTLCache.key l) ls = Some l.
Proof.
  induction ls as [| a ls IH]; simpl; intros Hnd Hin; [contradiction |].
  inversion Hnd as [| x xs Hnotin Hnd']; subst.
  destruct Hin as [-> | Hin].
  - unfold TTLCache.has_key. rewrite key_eqb_refl. reflexivity.
  - destruct (TTLCache.has_key (TTLCache.key l) a) eqn:E.
    + apply has_key_true in E. exfalso. apply Hnotin. rewrite E.
      apply in_map. exact Hin.
    + apply IH; assumption.
Qed.

Lemma find_link_app k ls ls' :
  TTLCache.find_link k (ls ++ ls') =
  match TTLCache.find_link k ls with
  | Some l => Some l
  | None => TTLCache.find_link k ls'
  end.
Proof.
  unfold TTLCache.find_link. induction ls as [| a ls IH]; simpl; [reflexivity |].
  destruct (TTLCache.has_key k a); [reflexivity | exact IH].
Qed.

Lemma unlink_in k ls l :
  In l (TTLCache.unlink k ls) <-> In l ls /\ TTLCache.key l <> k.
Proof.
  unfold TTLCache.unlink. rewrite filter_In, negb_true_iff, has_key_false.
  reflexivity.
Qed.

Lemma unlink_absent k ls :
  ~ In k (map TTLCache.key ls) -> TTLCache.unlink k ls = ls.
Proof.
  induction ls as [| a ls IH]; simpl; intros Hn; [reflexivity |].
  destruct (TTLCache.has_key k a) eqn:E; simpl.
  - apply has_key_true in E. exfalso. apply Hn. left. exact E.
  - f_equal. apply IH. intros Hin. apply Hn. right. exact Hin.
Qed.

Lemma find_link_unlink_same k ls :
  TTLCache.find_link k (TTLCache.unlink k ls) = None.
Proof.
  destruct (TTLCache.find_link k (TTLCache.unlink k ls)) as [l |] eqn:E;
    [| reflexivity].
  apply find_link_some in E. destruct E as [Hin Hk].
  apply unlink_in in Hin. destruct Hin as [_ Hne]. contradiction.
Qed.

Lemma find_link_unlink_other k k' ls :
  k' <> k ->
  TTLCache.find_link k' (TTLCache.unlink k ls) = TTLCache.find_link k' ls.
Proof.
  intros Hne. induction ls as [| a ls IH]; simpl; [reflexivity |].
  destruct (TTLCache.has_key k a) eqn:Ek; simpl.
  - apply has_key_true in Ek.
    assert (Ek' : TTLCache.has_key k' a = false)
      by (apply has_key_false; congruence).
    rewrite Ek'. exact IH.
  - destruct (TTLCache.has_key k' a); [reflexivity | exact IH].
Qed.

Lemma keys_filter_incl (f : TTLCache.Link K V -> bool) ls :
  incl (map TTLCache.key (filter f ls)) (map TTLCache.key ls).
Proof.
  intros k Hin. apply in_map_iff in Hin. destruct Hin as [l [Hk Hin]].
  apply filter_In in Hin. apply in_map_iff. exists l. tauto.
Qed.

Lemma NoDup_keys_filter (f : TTLCache.Link K V -> bool) ls :
  NoDup (map TTLCache.key ls) -> NoDup (map TTLCache.key (filter f ls)).
Proof.
  induction ls as [| a ls IH]; simpl; intros Hnd; [constructor |].
  inversion Hnd as [| x xs Hnotin Hnd']; subst.
  destruct (f a); simpl; [| apply IH; exact Hnd'].
  constructor; [| apply IH; exact Hnd'].
  intros Hin. apply Hnotin. apply (keys_filter_incl f ls). exact Hin.
Qed.

Lemma NoDup_keys_tl ls :
  NoDup (map TTLCache.key ls) -> NoDup (map TTLCache.key (tl ls)).
Proof.
  destruct ls as [| a ls]; simpl; intros Hnd; [constructor |].
  inversion Hnd; assumption.
Qed.

Lemma NoDup_keys_move k l ls :
  NoDup (map TTLCache.key ls) -> TTLCache.key l = k ->
  NoDup (map TTLCache.key (TTLCache.unlink k ls ++ [l])).
Proof.
  intros Hnd Hk. rewrite map_app. apply NoDup_app.
  - apply NoDup_keys_filter. exact Hnd.
  - simpl. constructor; [intros [] | constructor].
  - intros k' Hin [Heq | []]. apply in_map_iff in Hin.
    destruct Hin as [l' [Hk' Hin]]. apply unlink_in in Hin.
    destruct Hin as [_ Hne]. congruence.
Qed.

Lemma filter_live_idem now ls :
  filter (TTLCache.live now) (filter (TTLCache.live now) ls)
  = filter (TTLCache.live now) ls.
Proof.
  induction ls as [| a ls IH]; simpl; [reflexivity |].
  destruct (TTLCache.live now a) eqn:E; simpl; [rewrite E; f_equal |]; exact IH.
Qed.

Lemma filter_live_all now ls :
  forallb (TTLCache.live now) ls = true -> filter (TTLCache.live now) ls = ls.
Proof.
  induction ls as [| a ls IH]; simpl; [reflexivity |].
  intros Hall. apply andb_true_iff in Hall. destruct Hall as [Ha Hall].
  rewrite Ha. f_equal. apply IH. exact Hall.
Qed.

Lemma forallb_live_filter now ls :
  forallb (TTLCache.live now) (filter (TTLCache.live now) ls) = true.
Proof.
  apply forallb_forall. intros l Hin. apply filter_In in Hin. tauto.
Qed.

Lemma forallb_live_skipn now n ls :
  forallb (TTLCache.live now) ls = true ->
  forallb (TTLCache.live now) (skipn n ls) = true.
Proof.
  rewrite !forallb_forall. intros Hall l Hin. apply Hall.
  rewrite <- (firstn_skipn n ls). apply in_or_app. right. exact Hin.
Qed.

(** The loop [while currsize + size > maxsize: popitem()] drops the [n]
    least recently used entries of a cache that holds no expired entry. *)
Lemma popitem_iter now n c :
  forallb (TTLCache.live now) (TTLCache.links c) = true ->
  Nat.iter n (TTLCache.popitem now) c
  = {| TTLCache.ttl := TTLCache.ttl c;
       TTLCache.links := skipn n (TTLCache.links c) |}.
Proof.
  intros Hall. induction n as [| n IH].
  - simpl. destruct c; reflexivity.
  - rewrite Nat.iter_succ, IH. unfold TTLCache.popitem, TTLCache.expire. simpl.
    rewrite filter_live_all by (apply forallb_live_skipn; exact Hall).
    f_equal. clear. revert n. generalize (TTLCache.links c).
    intros ls n. revert ls. induction n as [| n IH]; intros ls.
    + destruct ls; reflexivity.
    + destruct ls as [| a ls]; [reflexivity |]. simpl skipn at 1. rewrite IH.
      destruct ls; reflexivity.
Qed.

(** The entries of the cache after a store, in order. *)
Lemma setitem_links now k v c :
  TTLCache.links (TTLCache.setitem now k v c)
  = (let alive := filter (TTLCache.live now) (TTLCache.links c) in
     match TTLCache.find_link k alive with
     | Some _ => TTLCache.unlink k alive
     | None => skipn (List.length alive + 1 - TTLCache.maxsize) alive
     end)
    ++ [{| TTLCache.key := k; TTLCache.value := v;
           TTLCache.expires := (now + TTLCache.ttl c)%N |}].
Proof.
  unfold TTLCache.setitem. cbn [TTLCache.links TTLCache.expire].
  destruct (TTLCache.find_link k (filter (TTLCache.live now) (TTLCache.links c)))
    as [l |] eqn:E; cbn zeta; [reflexivity |].
  rewrite popitem_iter by (apply forallb_live_filter).
  cbn [TTLCache.links TTLCache.currsize]. f_equal.
  apply unlink_absent. intros Hin. apply find_link_none in E. apply E.
  apply in_map_iff in Hin. destruct Hin as [l [Hk Hin]].
  apply in_map_iff. exists l. split; [exact Hk |].
  rewrite <- (firstn_skipn (List.length (filter (TTLCache.live now) (TTLCache.links c))
                            + 1 - TTLCache.maxsize)).
  apply in_or_app. right. exact Hin.
Qed.

Lemma setitem_ttl now k v c :
  TTLCache.ttl (TTLCache.setitem now k v c) = TTLCache.ttl c.
Proof. reflexivity. Qed.

Lemma getitem_ttl now k c :
  TTLCache.ttl (snd (TTLCache.getitem now k c)) = TTLCache.ttl c.
Proof.
  unfold TTLCache.getitem. destruct (TTLCache.find_link k (TTLCache.links c));
    reflexivity.
Qed.

(** A read never changes what is stored, only the order of use. *)
Lemma getitem_in now k c l :
  In l (TTLCache.links (snd (TTLCache.getitem now k c))) ->
  In l (TTLCache.links c).
Proof.
  unfold TTLCache.getitem.
  destruct (TTLCache.find_link k (TTLCache.links c)) as [l0 |] eqn:E; simpl;
    [| tauto].
  intros Hin. apply in_app_or in Hin. destruct Hin as [Hin | [<- | []]].
  - apply unlink_in in Hin. tauto.
  - apply find_link_some in E. tauto.
Qed.

Lemma getitem_find now k k' c :
  TTLCache.find_link k' (TTLCache.links (snd (TTLCache.getitem now k c)))
  = TTLCache.find_link k' (TTLCache.links c).
Proof.
  unfold TTLCache.getitem.
  destruct (TTLCache.find_link k (TTLCache.links c)) as [l0 |] eqn:E; simpl;
    [| reflexivity].
  rewrite find_link_app. destruct (find_link_some _ _ _ E) as [_ Hk0].
  destruct (key_eqb k' k) eqn:Ek.
  - apply key_eqb_eq in Ek. subst k'. rewrite find_link_unlink_same. simpl.
    unfold TTLCache.has_key. rewrite Hk0, key_eqb_refl. symmetry. exact E.
  - assert (Hne : k' <> k) by (intros ->; rewrite key_eqb_refl in Ek; discriminate).
    rewrite find_link_unlink_other by exact Hne.
    destruct (TTLCache.find_link k' (TTLCache.links c)); [reflexivity |].
    simpl. unfold TTLCache.has_key. rewrite Hk0, key_eqb_neq by congruence.
    reflexivity.
Qed.

Lemma getitem_visible now k c :
  fst (TTLCache.getitem now k c) = TTLCache.visible now k c.
Proof.
  unfold TTLCache.getitem, TTLCache.visible.
  destruct (TTLCache.find_link k (TTLCache.links c)); reflexivity.
Qed.

Lemma visible_getitem now now' k k' c :
  TTLCache.visible now' k' (snd (TTLCache.getitem now k c))
  = TTLCache.visible now' k' c.
Proof. unfold TTLCache.visible. rewrite getitem_find. reflexivity. Qed.

Lemma contains_visible now k c :
  TTLCache.contains now k c = true <-> exists v, TTLCache.visible now k c = Some v.
Proof.
  unfold TTLCache.contains, TTLCache.visible.
  destruct (TTLCache.find_link k (TTLCache.links c)) as [l |].
  - destruct (TTLCache.live now l); split; try discriminate; eauto.
    intros [v Hv]. discriminate.
  - split; [discriminate | intros [v Hv]; discriminate].
Qed.

(** What a store keeps: the new entry, and old entries that are still
    visible and stored under another key. *)
Lemma setitem_in now k v c l :
  In l (TTLCache.links (TTLCache.setitem now k v c)) ->
  l = {| TTLCache.key := k; TTLCache.value := v;
         TTLCache.expires := (now + TTLCache.ttl c)%N |}
  \/ (In l (TTLCache.links c) /\ TTLCache.key l <> k
      /\ TTLCache.live now l = true).
Proof.
  rewrite setitem_links. cbn zeta. intros Hin. apply in_app_or in Hin.
  destruct Hin as [Hin | [<- | []]]; [right | left; reflexivity].
  destruct (TTLCache.find_link k (filter (TTLCache.live now) (TTLCache.links c)))
    as [l0 |] eqn:E.
  - apply unlink_in in Hin. destruct Hin as [Hin Hne].
    apply filter_In in Hin. tauto.
  - assert (Hin' : In l (filter (TTLCache.live now) (TTLCache.links c))).
    { rewrite <- (firstn_skipn (List.length (filter (TTLCache.live now) (TTLCache.links c))
                                + 1 - TTLCache.maxsize)).
      apply in_or_app. right. exact Hin. }
    apply find_link_none in E. apply filter_In in Hin'.
    repeat split; try tauto. intros Hk. apply E. apply in_map_iff.
    exists l. split; [exact Hk | apply filter_In; tauto].
Qed.

Lemma setitem_last now k v c :
  exists front,
    TTLCache.links (TTLCache.setitem now k v c)
    = front ++ [{| TTLCache.key := k; TTLCache.value := v;
                   TTLCache.expires := (now + TTLCache.ttl c)%N |}]
    /\ ~ In k (map TTLCache.key front).
Proof.
  rewrite setitem_links. cbn zeta. eexists. split; [reflexivity |].
  destruct (TTLCache.find_link k (filter (TTLCache.live now) (TTLCache.links c)))
    as [l0 |] eqn:E.
  - intros Hin. apply in_map_iff in Hin. destruct Hin as [l [Hk Hin]].
    apply unlink_in in Hin. tauto.
  - apply find_link_none in E. intros Hin. apply E.
    apply in_map_iff in Hin. destruct Hin as [l [Hk Hin]].
    apply in_map_iff. exists l. split; [exact Hk |].
    rewrite <- (firstn_skipn (List.length (filter (TTLCache.live now) (TTLCache.links c))
                              + 1 - TTLCache.maxsize)).
    apply in_or_app. right. exact Hin.
Qed.

Lemma setitem_find_same now k v c :
  TTLCache.find_link k (TTLCache.links (TTLCache.setitem now k v c))
  = Some {| TTLCache.key := k; TTLCache.value := v;
            TTLCache.expires := (now + TTLCache.ttl c)%N |}.
Proof.
  destruct (setitem_last now k v c) as [front [-> Hn]].
  rewrite find_link_app.
  destruct (TTLCache.find_link k front) as [l |] eqn:E.
  - apply find_link_some in E. destruct E as [Hin Hk]. exfalso. apply Hn.
    apply in_map_iff. exists l. tauto.
  - simpl. unfold TTLCache.has_key. simpl. rewrite key_eqb_refl. reflexivity.
Qed.

(** A stored value is visible for exactly [ttl]. *)
Lemma visible_setitem_same now now' k v c :
  TTLCache.visible now' k (TTLCache.setitem now k v c)
  = if (now' <? now + TTLCache.ttl c)%N then Some v else None.
Proof.
  unfold TTLCache.visible. rewrite setitem_find_same. reflexivity.
Qed.

(** *** Well-formed caches *)

Lemma wf_empty (ttl : N) : TTLCache.wf (TTLCache.empty (K := K) (V := V) ttl).
Proof.
  split; [apply NoDup_nil | unfold TTLCache.currsize, TTLCache.maxsize; simpl; lia].
Qed.

Lemma wf_getitem now k c :
  TTLCache.wf c -> TTLCache.wf (snd (TTLCache.getitem now k c)).
Proof.
  unfold TTLCache.wf, TTLCache.keys, TTLCache.currsize, TTLCache.getitem.
  intros [Hnd Hsz].
  destruct (TTLCache.find_link k (TTLCache.links c)) as [l0 |] eqn:E; simpl;
    [| tauto].
  destruct (find_link_some _ _ _ E) as [Hin Hk]. split.
  - apply NoDup_keys_move; assumption.
  - rewrite length_app. simpl.
    pose proof (filter_length (TTLCache.has_key k) (TTLCache.links c)) as Hlen.
    assert (Hpos : 1 <= List.length (filter (TTLCache.has_key k) (TTLCache.links c))).
    { assert (Hin' : In l0 (filter (TTLCache.has_key k) (TTLCache.links c)))
        by (apply filter_In; split; [exact Hin | apply has_key_true; exact Hk]).
      destruct (filter (TTLCache.has_key k) (TTLCache.links c));
        [contradiction | simpl; lia]. }
    unfold TTLCache.unlink. lia.
Qed.

Lemma setitem_currsize now k v c :
  TTLCache.currsize c <= TTLCache.maxsize ->
  TTLCache.currsize (TTLCache.setitem now k v c) <= TTLCache.maxsize.
Proof.
  unfold TTLCache.currsize. intros Hsz. rewrite setitem_links. cbn zeta.
  rewrite length_app. simpl.
  pose proof (filter_length_le (TTLCache.live now) (TTLCache.links c)) as Hle.
  destruct (TTLCache.find_link k (filter (TTLCache.live now) (TTLCache.links c)))
    as [l0 |] eqn:E.
  - destruct (find_link_some _ _ _ E) as [Hin Hk].
    pose proof (filter_length (TTLCache.has_key k)
                  (filter (TTLCache.live now) (TTLCache.links c))) as Hlen.
    assert (Hpos : 1 <= List.length (filter (TTLCache.has_key k)
                          (filter (TTLCache.live now) (TTLCache.links c)))).
    { assert (Hin' : In l0 (filter (TTLCache.has_key k)
                              (filter (TTLCache.live now) (TTLCache.links c))))
        by (apply filter_In; split; [exact Hin | apply has_key_true; exact Hk]).
      destruct (filter (TTLCache.has_key k)
                  (filter (TTLCache.live now) (TTLCache.links c)));
        [contradiction | simpl; lia]. }
    unfold TTLCache.unlink. lia.
  - rewrite length_skipn. unfold TTLCache.maxsize in *. lia.
Qed.

Lemma wf_setitem now k v c :
  TTLCache.wf c -> TTLCache.wf (TTLCache.setitem now k v c).
Proof.
  intros [Hnd Hsz]. split; [| apply setitem_currsize; exact Hsz].
  unfold TTLCache.keys. destruct (setitem_last now k v c) as [front [E Hn]].
  pose proof (setitem_links now k v c) as E'. cbn zeta in E'.
  rewrite E' in E. apply app_inj_tail in E. destruct E as [E _].
  rewrite E'. rewrite E. rewrite map_app. apply NoDup_app.
  - rewrite <- E.
    destruct (TTLCache.find_link k (filter (TTLCache.live now) (TTLCache.links c))).
    + apply NoDup_keys_filter. apply NoDup_keys_filter. exact Hnd.
    + rewrite <- (firstn_skipn (List.length (filter (TTLCache.live now) (TTLCache.links c))
                                + 1 - TTLCache.maxsize)
                    (filter (TTLCache.live now) (TTLCache.links c))) at 1.
      apply NoDup_keys_filter with (f := TTLCache.live now) in Hnd.
      rewrite <- (firstn_skipn (List.length (filter (TTLCache.live now) (TTLCache.links c))
                                + 1 - TTLCache.maxsize)
                    (filter (TTLCache.live now) (TTLCache.links c))) in Hnd.
      rewrite map_app in Hnd. apply NoDup_app_remove_l in Hnd.
      rewrite firstn_skipn. exact Hnd.
  - simpl. constructor; [intros [] | constructor].
  - intros k' Hin [<- | []]. contradiction.
Qed.

Lemma wf_expire now c : TTLCache.wf c -> TTLCache.wf (TTLCache.expire now c).
Proof.
  intros [Hnd Hsz]. split.
  - apply NoDup_keys_filter. exact Hnd.
  - unfold TTLCache.currsize in *. simpl.
    pose proof (filter_length_le (TTLCache.live now) (TTLCache.links c)). lia.
Qed.

Lemma wf_popitem now c : TTLCache.wf c -> TTLCache.wf (TTLCache.popitem now c).
Proof.
  intros Hwf. apply (wf_expire now) in Hwf. destruct Hwf as [Hnd Hsz]. split.
  - apply NoDup_keys_tl. exact Hnd.
  - unfold TTLCache.currsize in *. simpl in *.
    destruct (filter (TTLCache.live now) (TTLCache.links c)); simpl in *; lia.
Qed.

End TTLCacheFacts.

(** ** [fetch_pois], case by case *)

Lemma getitem_eq {K V : Type} `{EqKey K} (now : N) (k : K) (c : TTLCache.t K V) :
  TTLCache.getitem now k c
  = (TTLCache.visible now k c, snd (TTLCache.getitem now k c)).
Proof. rewrite <- getitem_visible. destruct (TTLCache.getitem now k c); reflexivity. Qed.

Lemma contains_eq {K V : Type} `{EqKey K} (now : N) (k : K) (c : TTLCache.t K V) :
  TTLCache.contains now k c
  = match TTLCache.visible now k c with Some _ => true | None => false end.
Proof.
  unfold TTLCache.contains, TTLCache.visible.
  destruct (TTLCache.find_link k (TTLCache.links c)) as [l |]; [| reflexivity].
  destruct (TTLCache.live now l); reflexivity.
Qed.

(** The four ways a call of the undecorated function can go. *)
Lemma fetch_pois_wrapped_eq category overpass random w :
  fetch_pois_wrapped category overpass random w =
  match dict_get category queries with
  | None => (Return [], emit [WarnInvalidCategory category] w)
  | Some query =>
      match TTLCache.visible (now w) (cache_key category) (POI_CACHE w) with
      | Some pois =>
          (Return pois,
           set_POI_CACHE
             (snd (TTLCache.getitem (now w) (cache_key category) (POI_CACHE w))) w)
      | None =>
          match overpass with
          | RequestFailed =>
              (Return [], emit [ErrorOverpass] (send (GetOverpass query) w))
          | Response data =>
              let all := match d_elements data with Some es => es | None => [] end in
              let pe := process_elements all category random 0 None all in
              (Return (fst pe),
               set_POI_CACHE
                 (TTLCache.setitem (now w) (cache_key category) (fst pe) (POI_CACHE w))
                 (emit (snd pe) (send (GetOverpass query) w)))
          end
      end
  end.
Proof.
  unfold fetch_pois_wrapped, cache_key.
  destruct (dict_get category queries) as [query |]; [| reflexivity].
  rewrite contains_eq, getitem_eq.
  destruct (TTLCache.visible (now w) ("pois_" ++ category)%string (POI_CACHE w));
    [reflexivity |].
  destruct overpass as [data |]; [| reflexivity].
  cbn zeta.
  destruct (process_elements
              match d_elements data with Some es => es | None => [] end
              category random 0 None
              match d_elements data with Some es => es | None => [] end);
    reflexivity.
Qed.

(** The undecorated function touches neither the clock nor the two
    decorator caches; on a typed answer, with the clock read once, it
    returns a list. *)
Lemma fetch_pois_wrapped_frame category overpass random w :
  exists pois,
    fst (fetch_pois_wrapped category overpass random w) = Return pois
    /\ now (snd (fetch_pois_wrapped category overpass random w)) = now w
    /\ fetch_pois_cache (snd (fetch_pois_wrapped category overpass random w))
       = fetch_pois_cache w
    /\ fetch_weather_cache (snd (fetch_pois_wrapped category overpass random w))
       = fetch_weather_cache w.
Proof.
  rewrite fetch_pois_wrapped_eq.
  destruct (dict_get category queries) as [query |]; [| eexists; simpl; eauto].
  destruct (TTLCache.visible (now w) (cache_key category) (POI_CACHE w));
    [eexists; simpl; eauto |].
  destruct overpass as [data |]; eexists; simpl; eauto.
Qed.

(** The decorated function in terms of the undecorated one. *)
Lemma fetch_pois_eq category overpass random w :
  fetch_pois category overpass random w =
  let memo := snd (TTLCache.getitem (now w) category (fetch_pois_cache w)) in
  match TTLCache.visible (now w) category (fetch_pois_cache w) with
  | Some pois => (Return pois, set_fetch_pois_cache memo w)
  | None =>
      let r := fetch_pois_wrapped category overpass random
                 (set_fetch_pois_cache memo w) in
      match fst r with
      | Return pois =>
          (Return pois,
           set_fetch_pois_cache
             (TTLCache.setitem (now w) category pois memo) (snd r))
      | Raise e => (Raise e, snd r)
      end
  end.
Proof.
  unfold fetch_pois, timed_lru_cache. rewrite getitem_eq. cbn zeta.
  destruct (TTLCache.visible (now w) category (fetch_pois_cache w));
    [reflexivity |].
  destruct (fetch_pois_wrapped_frame category overpass random
              (set_fetch_pois_cache
                 (snd (TTLCache.getitem (now w) category (fetch_pois_cache w))) w))
    as [pois [Hr [Hnow [Hmemo _]]]].
  destruct (fetch_pois_wrapped category overpass random _) as [r w1].
  simpl in *. subst r. rewrite Hnow, Hmemo. reflexivity.
Qed.

(** On a typed answer, with the clock read once, [fetch_pois] returns a
    list. *)
Lemma fetch_pois_returns category overpass random w :
  exists pois, fst (fetch_pois category overpass random w) = Return pois.
Proof.
  rewrite fetch_pois_eq. cbn zeta.
  destruct (TTLCache.visible (now w) category (fetch_pois_cache w)) as [v |];
    [exists v; reflexivity |].
  destruct (fetch_pois_wrapped_frame category overpass random
              (set_fetch_pois_cache
                 (snd (TTLCache.getitem (now w) category (fetch_pois_cache w))) w))
    as [pois [Hr _]].
  rewrite Hr. exists pois. reflexivity.
Qed.

(** ** The loop over the elements *)

Lemma locate_exit all element latlon t :
  locate all element latlon = inl t -> t = Failed \/ t = Continue.
Proof.
  unfold locate. intros E.
  repeat match type of E with
         | match ?x with _ => _ end = _ => destruct x
         | (if ?x then _ else _) = _ => destruct x
         end;
    inversion E; auto.
Qed.

Lemma process_element_good all category u latlon element p latlon' :
  unit_sample u ->
  process_element all category u latlon element = (Append p, latlon') ->
  named p /\ rated p.
Proof.
  intros Hu. unfold process_element.
  destruct (locate all element latlon) as [t | ll] eqn:El.
  - intros E. inversion E; subst. apply locate_exit in El.
    destruct El; discriminate.
  - destruct (String.eqb _ Sin_nombre) eqn:En; [discriminate |].
    destruct ll as [[lat lon] |]; [| discriminate].
    intros E. inversion E; subst; clear E. split.
    + unfold named; simpl. apply String.eqb_neq. exact En.
    + unfold rated; simpl. apply rating_range. exact Hu.
Qed.

Lemma process_elements_good all category random :
  (forall n, unit_sample (random n)) ->
  forall todo drawn latlon,
    Forall (fun p => named p /\ rated p)
      (fst (process_elements all category random drawn latlon todo)).
Proof.
  intros Hr. induction todo as [| element rest IH]; intros drawn latlon; simpl.
  - constructor.
  - destruct (process_element all category (random drawn) latlon element)
      as [t latlon'] eqn:E.
    destruct t as [| | p].
    + apply IH.
    + specialize (IH drawn latlon').
      destruct (process_elements all category random drawn latlon' rest).
      exact IH.
    + specialize (IH (S drawn) latlon').
      destruct (process_elements all category random (S drawn) latlon' rest).
      simpl in *. constructor; [| exact IH].
      eapply process_element_good; [apply Hr | exact E].
Qed.

(** ** Invariants *)

Lemma cache_key_inj a b : cache_key a = cache_key b -> a = b.
Proof. unfold cache_key. simpl. intros E. inversion E. reflexivity. Qed.

Lemma live_later (K V : Type) (now : N) (d : N) (l : TTLCache.Link K V) :
  TTLCache.live now l = false -> TTLCache.live (now + d) l = false.
Proof. unfold TTLCache.live. rewrite !N.ltb_ge. lia. Qed.

Lemma visible_in {K V : Type} `{EqKey K} (now : N) (k : K) (c : TTLCache.t K V) v :
  TTLCache.visible now k c = Some v ->
  exists l, In l (TTLCache.links c) /\ TTLCache.key l = k
            /\ TTLCache.value l = v /\ TTLCache.live now l = true.
Proof.
  unfold TTLCache.visible.
  destruct (TTLCache.find_link k (TTLCache.links c)) as [l |] eqn:E; [| discriminate].
  destruct (TTLCache.live now l) eqn:El; [| discriminate].
  intros Hv. inversion Hv; subst. apply find_link_some in E.
  exists l. tauto.
Qed.

Lemma visible_of_in {K V : Type} `{EqKey K} (now : N) (c : TTLCache.t K V) l :
  NoDup (TTLCache.keys c) -> In l (TTLCache.links c) ->
  TTLCache.visible now (TTLCache.key l) c
  = if TTLCache.live now l then Some (TTLCache.value l) else None.
Proof.
  intros Hnd Hin. unfold TTLCache.visible.
  rewrite (find_link_in _ _ Hnd Hin). reflexivity.
Qed.

Lemma inv_init t0 : inv (init t0).
Proof.
  unfold inv, caches_wf, poi_keys_valid, memo_invalid_empty, coherent,
    cached_good. simpl.
  repeat split; try apply wf_empty; try reflexivity; try tauto.
Qed.

(** The invariants only look at the clock and at the caches. *)
Lemma inv_frame w w' :
  now w' = now w -> fetch_pois_cache w' = fetch_pois_cache w ->
  POI_CACHE w' = POI_CACHE w -> fetch_weather_cache w' = fetch_weather_cache w ->
  inv w -> inv w'.
Proof.
  unfold inv, caches_wf, poi_keys_valid, memo_invalid_empty, coherent,
    cached_good.
  intros -> -> -> ->. tauto.
Qed.

Lemma inv_tick d w : inv w -> inv (tick d w).
Proof.
  unfold inv, caches_wf, poi_keys_valid, memo_invalid_empty, coherent,
    cached_good. simpl.
  intros [Hwf [Hk [Hi [Hc Hg]]]].
  split; [exact Hwf | split; [exact Hk | split; [exact Hi | split; [| exact Hg]]]].
  intros lm lp Hm Hp Hkey. destruct (Hc lm lp Hm Hp Hkey) as [E | E];
    [left; exact E | right; apply live_later; exact E].
Qed.

Ltac split_and := repeat match goal with |- _ /\ _ => split end.

Lemma inv_memo_read k w :
  inv w ->
  inv (set_fetch_pois_cache
         (snd (TTLCache.getitem (now w) k (fetch_pois_cache w))) w).
Proof.
  unfold inv, caches_wf, poi_keys_valid, memo_invalid_empty, coherent,
    cached_good. simpl.
  intros [[Hm [Hp [Hw [Tm [Tp Tw]]]]] [Hk [Hi [Hc Hg]]]].
  split; [| split; [exact Hk | split; [| split]]].
  - rewrite getitem_ttl. split_and; try assumption. apply wf_getitem. exact Hm.
  - intros l Hin. apply getitem_in in Hin. auto.
  - intros lm lp Hin. apply getitem_in in Hin. auto.
  - intros l [Hin | Hin]; [apply getitem_in in Hin |]; auto.
Qed.

Lemma inv_poi_read k w :
  inv w ->
  inv (set_POI_CACHE (snd (TTLCache.getitem (now w) k (POI_CACHE w))) w).
Proof.
  unfold inv, caches_wf, poi_keys_valid, memo_invalid_empty, coherent,
    cached_good. simpl.
  intros [[Hm [Hp [Hw [Tm [Tp Tw]]]]] [Hk [Hi [Hc Hg]]]].
  split; [| split; [| split; [exact Hi | split]]].
  - rewrite getitem_ttl. split_and; try assumption. apply wf_getitem. exact Hp.
  - intros l Hin. apply getitem_in in Hin. auto.
  - intros lm lp Hm' Hin. apply getitem_in in Hin. auto.
  - intros l [Hin | Hin]; [| apply getitem_in in Hin]; auto.
Qed.

(** Memoising the list [v] of a call for [category]. *)
Lemma inv_memo_store category v w :
  inv w ->
  Forall (fun p => named p /\ rated p) v ->
  (valid_category category = false -> v = []) ->
  (forall lp, In lp (TTLCache.links (POI_CACHE w)) ->
     TTLCache.key lp = cache_key category ->
     v = TTLCache.value lp \/ TTLCache.live (now w) lp = false) ->
  inv (set_fetch_pois_cache
         (TTLCache.setitem (now w) category v (fetch_pois_cache w)) w).
Proof.
  unfold inv, caches_wf, poi_keys_valid, memo_invalid_empty, coherent,
    cached_good. simpl.
  intros [[Hm [Hp [Hw [Tm [Tp Tw]]]]] [Hk [Hi [Hc Hg]]]] Hv Hinv Hcoh.
  split; [| split; [exact Hk | split; [| split]]].
  - split_and; try assumption. apply wf_setitem. exact Hm.
  - intros l Hin. apply setitem_in in Hin.
    destruct Hin as [-> | [Hin _]]; simpl; auto.
  - intros lm lp Hin Hp' Hkey. apply setitem_in in Hin.
    destruct Hin as [-> | [Hin _]]; simpl in *; auto.
  - intros l [Hin | Hin]; [| auto]. apply setitem_in in Hin.
    destruct Hin as [-> | [Hin _]]; simpl; auto.
Qed.

(** Storing the list of a fresh provider answer in both caches. *)
Lemma inv_both_store category v w :
  inv w ->
  valid_category category = true ->
  Forall (fun p => named p /\ rated p) v ->
  inv (set_fetch_pois_cache
         (TTLCache.setitem (now w) category v (fetch_pois_cache w))
         (set_POI_CACHE
            (TTLCache.setitem (now w) (cache_key category) v (POI_CACHE w)) w)).
Proof.
  unfold inv, caches_wf, poi_keys_valid, memo_invalid_empty, coherent,
    cached_good. simpl.
  intros [[Hm [Hp [Hw [Tm [Tp Tw]]]]] [Hk [Hi [Hc Hg]]]] Hvalid Hv.
  split; [| split; [| split; [| split]]].
  - split_and; try assumption; apply wf_setitem; assumption.
  - intros l Hin. apply setitem_in in Hin.
    destruct Hin as [-> | [Hin _]]; simpl; eauto.
  - intros l Hin Hinvalid. apply setitem_in in Hin.
    destruct Hin as [-> | [Hin _]]; simpl in *; [congruence | auto].
  - intros lm lp Hinm Hinp Hkey.
    apply setitem_in in Hinm. apply setitem_in in Hinp.
    destruct Hinp as [-> | [Hinp [Hnep _]]];
      destruct Hinm as [-> | [Hinm [Hnem _]]]; simpl in *.
    + left; reflexivity.
    + apply cache_key_inj in Hkey. congruence.
    + contradiction.
    + auto.
  - intros l [Hin | Hin]; apply setitem_in in Hin;
      destruct Hin as [-> | [Hin _]]; simpl; auto.
Qed.

(** The invariants survive a call of [fetch_pois]. *)
Lemma inv_fetch_pois category overpass random w :
  (forall n, unit_sample (random n)) ->
  inv w -> inv (snd (fetch_pois category overpass random w)).
Proof.
  intros Hr Hinv. rewrite fetch_pois_eq. cbn zeta.
  pose proof (inv_memo_read category w Hinv) as Hinv1.
  destruct (TTLCache.visible (now w) category (fetch_pois_cache w)) as [v |];
    [exact Hinv1 |].
  set (w1 := set_fetch_pois_cache
               (snd (TTLCache.getitem (now w) category (fetch_pois_cache w))) w)
    in *.
  rewrite fetch_pois_wrapped_eq.
  destruct (dict_get category queries) as [query |] eqn:Eq.
  - assert (Hvalid : valid_category category = true)
      by (unfold valid_category; rewrite Eq; reflexivity).
    destruct (TTLCache.visible (now w1) (cache_key category) (POI_CACHE w1))
      as [v |] eqn:Ev.
    + (* the list is in POI_CACHE *)
      pose proof (inv_poi_read (cache_key category) w1 Hinv1) as Hinv2.
      destruct (visible_in _ _ _ _ Ev) as [l0 [Hin0 [Hk0 [Hv0 Hl0]]]].
      simpl fst. cbv iota. simpl snd.
      eapply inv_frame;
        [reflexivity | reflexivity | reflexivity | reflexivity
        | apply (inv_memo_store category v _ Hinv2)].
      * destruct Hinv1 as [_ [_ [_ [_ Hg]]]]. rewrite <- Hv0. apply Hg. right.
        exact Hin0.
      * congruence.
      * simpl. intros lp Hin Hkey. apply getitem_in in Hin.
        destruct Hinv1 as [[_ [[Hnd _] _]] _].
        pose proof (visible_of_in (now w1) (POI_CACHE w1) lp Hnd Hin) as Hvis.
        rewrite Hkey, Ev in Hvis.
        destruct (TTLCache.live (now w1) lp) eqn:El;
          [left | right; first [exact El | reflexivity]].
        congruence.
    + destruct overpass as [data |].
      * (* the provider answers *)
        cbn zeta.
        set (all := match d_elements data with Some es => es | None => [] end).
        set (pe := process_elements all category random 0 None all).
        simpl fst. cbv iota. simpl snd.
        eapply inv_frame;
          [reflexivity | reflexivity | reflexivity | reflexivity
          | apply (inv_both_store category (fst pe) w1 Hinv1 Hvalid)].
        apply process_elements_good. exact Hr.
      * (* the provider fails *)
        simpl fst. cbv iota. simpl snd.
        eapply inv_frame;
          [reflexivity | reflexivity | reflexivity | reflexivity
          | apply (inv_memo_store category [] w1 Hinv1)].
        -- constructor.
        -- reflexivity.
        -- intros lp Hin Hkey. right.
           destruct Hinv1 as [[_ [[Hnd _] _]] _].
           pose proof (visible_of_in (now w1) (POI_CACHE w1) lp Hnd Hin) as Hvis.
           rewrite Hkey, Ev in Hvis.
           destruct (TTLCache.live (now w1) lp) eqn:El;
             [discriminate | first [exact El | reflexivity]].
  - (* unknown category *)
    simpl fst. cbv iota. simpl snd.
    eapply inv_frame;
      [reflexivity | reflexivity | reflexivity | reflexivity
          | apply (inv_memo_store category [] w1 Hinv1)].
    + constructor.
    + reflexivity.
    + intros lp Hin Hkey. destruct Hinv1 as [_ [Hk _]].
      destruct (Hk lp Hin) as [c' [Hv' Hk']]. rewrite Hkey in Hk'.
      apply cache_key_inj in Hk'. subst c'. unfold valid_category in Hv'.
      rewrite Eq in Hv'. discriminate.
Qed.

(** ** [fetch_weather], case by case *)

Lemma fetch_weather_eq lat lon answer w :
  fetch_weather lat lon answer w =
  let key := weather_key lat lon in
  let memo := snd (TTLCache.getitem (now w) key (fetch_weather_cache w)) in
  match TTLCache.visible (now w) key (fetch_weather_cache w) with
  | Some r => (Return r, set_fetch_weather_cache memo w)
  | None =>
      if no_api_key then
        (Return None,
         set_fetch_weather_cache (TTLCache.setitem (now w) key None memo) w)
      else
        match answer with
        | RequestFailed =>
            (Return None,
             set_fetch_weather_cache (TTLCache.setitem (now w) key None memo)
               (emit [ErrorWeather] (send (GetWeather lat lon) w)))
        | Response data =>
            match snapshot data with
            | Return s =>
                (Return (Some s),
                 set_fetch_weather_cache
                   (TTLCache.setitem (now w) key (Some s) memo)
                   (send (GetWeather lat lon) w))
            | Raise e =>
                (Raise e, set_fetch_weather_cache memo (send (GetWeather lat lon) w))
            end
        end
  end.
Proof.
  unfold fetch_weather, timed_lru_cache, fetch_weather_wrapped.
  rewrite getitem_eq. cbn zeta.
  destruct (TTLCache.visible (now w) (weather_key lat lon) (fetch_weather_cache w));
    [reflexivity |].
  destruct no_api_key; [reflexivity |].
  destruct answer as [data |]; [| reflexivity].
  destruct (snapshot data); reflexivity.
Qed.

(** A call of [fetch_weather] leaves the clock and the two POI caches alone
    and keeps its own cache well formed. *)
Lemma fetch_weather_frame lat lon answer w :
  let w' := snd (fetch_weather lat lon answer w) in
  now w' = now w /\ fetch_pois_cache w' = fetch_pois_cache w
  /\ POI_CACHE w' = POI_CACHE w
  /\ (TTLCache.wf (fetch_weather_cache w) -> TTLCache.wf (fetch_weather_cache w'))
  /\ TTLCache.ttl (fetch_weather_cache w') = TTLCache.ttl (fetch_weather_cache w).
Proof.
  rewrite fetch_weather_eq. cbn zeta.
  destruct (TTLCache.visible (now w) (weather_key lat lon) (fetch_weather_cache w)).
  { simpl. rewrite getitem_ttl. split_and; auto. apply wf_getitem. }
  destruct no_api_key.
  { simpl. rewrite getitem_ttl. split_and; auto.
    intros Hwf. apply wf_setitem, wf_getitem, Hwf. }
  destruct answer as [data |].
  - destruct (snapshot data); simpl; rewrite getitem_ttl; split_and; auto.
    + intros Hwf. apply wf_setitem, wf_getitem, Hwf.
    + apply wf_getitem.
  - simpl. rewrite getitem_ttl. split_and; auto.
    intros Hwf. apply wf_setitem, wf_getitem, Hwf.
Qed.

Lemma inv_fetch_weather lat lon answer w :
  inv w -> inv (snd (fetch_weather lat lon answer w)).
Proof.
  destruct (fetch_weather_frame lat lon answer w) as [Hn [Hm [Hp [Hwf Ht]]]].
  unfold inv, caches_wf, poi_keys_valid, memo_invalid_empty, coherent,
    cached_good.
  rewrite Hn, Hm, Hp, Ht.
  intros [[Hm' [Hp' [Hw [Tm [Tp Tw]]]]] H']. split_and; try tauto.
Qed.

(** ** The endpoints and the state *)

Lemma get_pois_world category args overpass random w :
  exists errors,
    snd (get_pois category args overpass random w)
    = emit errors (snd (fetch_pois category overpass random w)).
Proof.
  unfold get_pois.
  destruct (fetch_pois_returns category overpass random w) as [pois Hr].
  destruct (fetch_pois category overpass random w) as [r w1]. simpl in Hr.
  subst r. unfold calculate_routes.
  destruct (append_routes _ _) as [routes errors]. simpl.
  exists errors. reflexivity.
Qed.

Lemma get_weather_world args answer w :
  exists errors,
    snd (get_weather args answer w)
    = emit errors
        (snd (fetch_weather
                (args_get args "lat" DEFAULT_LAT float_of_string)
                (args_get args "lon" DEFAULT_LON float_of_string) answer w)).
Proof.
  unfold get_weather.
  destruct (fetch_weather _ _ answer w) as [[[s |] | e] w1]; simpl.
  - exists []. destruct w1; simpl. unfold emit. simpl. rewrite app_nil_r.
    reflexivity.
  - exists []. destruct w1; simpl. unfold emit. simpl. rewrite app_nil_r.
    reflexivity.
  - destruct e; eexists; reflexivity.
Qed.

Lemma get_directions_frame args answer w :
  let w' := snd (get_directions args answer w) in
  now w' = now w /\ fetch_pois_cache w' = fetch_pois_cache w
  /\ POI_CACHE w' = POI_CACHE w /\ fetch_weather_cache w' = fetch_weather_cache w.
Proof.
  unfold get_directions.
  destruct (args_get args "start_lat" None optional_float);
    destruct (args_get args "start_lon" None optional_float);
    destruct (args_get args "end_lat" None optional_float);
    destruct (args_get args "end_lon" None optional_float);
    try (simpl; tauto).
  destruct answer as [data |]; [| simpl; tauto].
  match goal with
  | |- context [bind ?m _] => destruct m as [r | e]
  end; [simpl; tauto |].
  destruct e; simpl; tauto.
Qed.

Lemma inv_step w ev : genuine ev -> inv w -> inv (step w ev).
Proof.
  destruct ev as [d | category args overpass random | args answer | args answer];
    simpl; intros Hg Hinv.
  - apply inv_tick. exact Hinv.
  - destruct (get_pois_world category args overpass random w) as [errors ->].
    eapply inv_frame; [| | | | apply (inv_fetch_pois category overpass random w Hg Hinv)];
      reflexivity.
  - destruct (get_weather_world args answer w) as [errors ->].
    eapply inv_frame; [| | | | apply inv_fetch_weather; exact Hinv]; reflexivity.
  - destruct (get_directions_frame args answer w) as [Hn [Hm [Hp Hw]]].
    eapply inv_frame; eassumption.
Qed.

Lemma inv_run evs : forall w, Forall genuine evs -> inv w -> inv (run w evs).
Proof.
  induction evs as [| ev evs IH]; intros w Hg Hinv; simpl; [exact Hinv |].
  inversion Hg; subst. apply IH; [assumption | apply inv_step; assumption].
Qed.

Lemma inv_reachable w : reachable w -> inv w.
Proof.
  intros [t0 [evs [Hg ->]]]. apply inv_run; [exact Hg | apply inv_init].
Qed.

Lemma reachable_step w ev : reachable w -> genuine ev -> reachable (step w ev).
Proof.
  intros [t0 [evs [Hg ->]]] Hev. exists t0, (evs ++ [ev]). split.
  - apply Forall_app. split; [exact Hg | constructor; [exact Hev | constructor]].
  - unfold run. rewrite fold_left_app. reflexivity.
Qed.

Lemma reachable_run evs : forall w,
  reachable w -> Forall genuine evs -> reachable (run w evs).
Proof.
  induction evs as [| ev evs IH]; intros w Hw Hg; simpl; [exact Hw |].
  inversion Hg; subst. apply IH; [apply reachable_step |]; assumption.
Qed.

(** ** What [fetch_pois] returns *)

(** The list a call returns is the one the decorator cache holds for the
    category when the call ends. *)
Lemma fetch_pois_result_cached category overpass random w pois :
  fst (fetch_pois category overpass random w) = Return pois ->
  exists l,
    In l (TTLCache.links (fetch_pois_cache (snd (fetch_pois category overpass random w))))
    /\ TTLCache.key l = category /\ TTLCache.value l = pois.
Proof.
  rewrite fetch_pois_eq. cbn zeta.
  destruct (TTLCache.visible (now w) category (fetch_pois_cache w)) as [v |] eqn:Ev.
  - simpl. intros E. inversion E; subst.
    rewrite <- (visible_getitem (now w) (now w) category category) in Ev.
    destruct (visible_in _ _ _ _ Ev) as [l Hl]. exists l. tauto.
  - destruct (fetch_pois_wrapped_frame category overpass random
                (set_fetch_pois_cache
                   (snd (TTLCache.getitem (now w) category (fetch_pois_cache w))) w))
      as [pois' [Hr _]].
    rewrite Hr. simpl. intros E. inversion E; subst.
    pose proof (setitem_find_same (now w) category pois
                  (snd (TTLCache.getitem (now w) category (fetch_pois_cache w))))
      as Hf.
    apply find_link_some in Hf. eexists. split; [apply Hf | simpl; tauto].
Qed.

(** C3 (amended): for every string that is not one of the three categories
    and every state the server can reach, [fetch_pois] returns the empty
    list, raises nothing and sends no request; it logs the warning when the
    call is not answered from the decorator cache, and nothing otherwise. *)
Theorem C3_fetch_pois_invalid_category w category overpass random :
  reachable w ->
  valid_category category = false ->
  fst (fetch_pois category overpass random w) = Return []
  /\ outbound (snd (fetch_pois category overpass random w)) = outbound w
  /\ log (snd (fetch_pois category overpass random w))
     = log w ++ match TTLCache.visible (now w) category (fetch_pois_cache w) with
                | Some _ => []
                | None => [WarnInvalidCategory category]
                end.
Proof.
  intros Hw Hinvalid. apply inv_reachable in Hw.
  rewrite fetch_pois_eq. cbn zeta.
  destruct (TTLCache.visible (now w) category (fetch_pois_cache w)) as [v |] eqn:Ev.
  - simpl. rewrite app_nil_r.
    destruct (visible_in _ _ _ _ Ev) as [l [Hin [Hk [Hv _]]]].
    destruct Hw as [_ [_ [Hi _]]]. rewrite <- Hv, (Hi l Hin); [auto |].
    rewrite Hk. exact Hinvalid.
  - rewrite fetch_pois_wrapped_eq. unfold valid_category in Hinvalid.
    destruct (dict_get category queries); [discriminate |].
    simpl. auto.
Qed.

(** ** Capacity and eviction *)

Lemma wf_apply_op {K V : Type} `{EqKey K} (c : TTLCache.t K V) (op : cache_op K V) :
  TTLCache.wf c -> TTLCache.wf (apply_op c op).
Proof.
  destruct op; simpl; intros Hwf.
  - apply wf_getitem. exact Hwf.
  - apply wf_setitem. exact Hwf.
  - apply wf_expire. exact Hwf.
  - apply wf_popitem. exact Hwf.
Qed.

Lemma ttl_apply_op {K V : Type} `{EqKey K} (c : TTLCache.t K V) (op : cache_op K V) :
  TTLCache.ttl (apply_op c op) = TTLCache.ttl c.
Proof. destruct op; simpl; [apply getitem_ttl | | |]; reflexivity. Qed.

Lemma cache_run_wf {K V : Type} `{EqKey K} (ops : list (cache_op K V)) :
  forall c, TTLCache.wf c ->
  TTLCache.wf (cache_run c ops)
  /\ TTLCache.ttl (cache_run c ops) = TTLCache.ttl c.
Proof.
  induction ops as [| op ops IH]; intros c Hwf; simpl; [tauto |].
  destruct (IH (apply_op c op) (wf_apply_op c op Hwf)) as [H1 H2].
  split; [exact H1 | rewrite H2; apply ttl_apply_op].
Qed.

(** Nothing writes the module-level [CACHE]. *)
Lemma CACHE_step w ev : CACHE (step w ev) = CACHE w.
Proof.
  destruct ev as [d | category args overpass random | args answer | args answer];
    simpl.
  - reflexivity.
  - destruct (get_pois_world category args overpass random w) as [errors ->].
    simpl. rewrite fetch_pois_eq. cbn zeta.
    destruct (TTLCache.visible (now w) category (fetch_pois_cache w));
      [reflexivity |].
    rewrite fetch_pois_wrapped_eq.
    destruct (dict_get category queries); [| reflexivity].
    simpl now. simpl POI_CACHE.
    destruct (TTLCache.visible (now w) (cache_key category) (POI_CACHE w));
      [reflexivity |].
    destruct overpass; reflexivity.
  - destruct (get_weather_world args answer w) as [errors ->]. simpl.
    rewrite fetch_weather_eq. cbn zeta.
    destruct (TTLCache.visible (now w) _ (fetch_weather_cache w)); [reflexivity |].
    destruct no_api_key; [reflexivity |].
    destruct answer as [data |]; [| reflexivity].
    destruct (snapshot data); reflexivity.
  - unfold get_directions.
    destruct (args_get args "start_lat" None optional_float);
      destruct (args_get args "start_lon" None optional_float);
      destruct (args_get args "end_lat" None optional_float);
      destruct (args_get args "end_lon" None optional_float);
      try reflexivity.
    destruct answer as [data |]; [| reflexivity].
    match goal with
    | |- context [bind ?m _] => destruct m as [r | e]
    end; [reflexivity |].
    destruct e; reflexivity.
Qed.

Lemma CACHE_reachable w : reachable w -> CACHE w = TTLCache.empty (seconds 3600).
Proof.
  intros [t0 [evs [_ ->]]].
  assert (Hrun : forall w0, CACHE (run w0 evs) = CACHE w0).
  { induction evs as [| ev evs IH]; intros w0; simpl; [reflexivity |].
    rewrite IH. apply CACHE_step. }
  rewrite Hrun. reflexivity.
Qed.

Lemma skipn_1_tl {A : Type} (l : list A) : skipn 1 l = tl l.
Proof. destruct l; reflexivity. Qed.

(** C6: each of the four caches of a reachable state holds at most 100
    entries, and so does a cache after any sequence of reads, stores,
    expirations and pops; a store under a new key into a cache that holds 100 entries succeeds:
    the new entry is the most recently used one and is visible, and the
    entries given up are the expired ones if there are any, and otherwise
    the least recently used entry alone. *)
Theorem C6_capacity_and_eviction :
  (forall w, reachable w ->
     TTLCache.currsize (CACHE w) <= 100
     /\ TTLCache.currsize (fetch_pois_cache w) <= 100
     /\ TTLCache.currsize (POI_CACHE w) <= 100
     /\ TTLCache.currsize (fetch_weather_cache w) <= 100)
  /\ (forall (K V : Type) (EK : EqKey K) (ttl : N) (ops : list (cache_op K V)),
        (0 < ttl)%N ->
        let c := cache_run (TTLCache.empty ttl) ops in
        TTLCache.currsize c <= 100
        /\ forall now k v,
             TTLCache.currsize c = 100 -> ~ In k (TTLCache.keys c) ->
             TTLCache.links (TTLCache.setitem now k v c)
             = (if forallb (TTLCache.live now) (TTLCache.links c)
                then tl (TTLCache.links c)
                else filter (TTLCache.live now) (TTLCache.links c))
               ++ [{| TTLCache.key := k; TTLCache.value := v;
                      TTLCache.expires := (now + ttl)%N |}]
             /\ TTLCache.visible now k (TTLCache.setitem now k v c) = Some v
             /\ TTLCache.currsize (TTLCache.setitem now k v c) <= 100).
Proof.
  split.
  - intros w Hw. split.
    + rewrite (CACHE_reachable w Hw). unfold TTLCache.currsize. simpl. lia.
    + apply inv_reachable in Hw.
      destruct Hw as [[[_ Hm] [[_ Hp] [[_ Hw] _]]] _]. auto.
  - intros K V EK ttl ops Httl c.
    destruct (cache_run_wf ops (TTLCache.empty ttl) (wf_empty ttl)) as [Hwf Ht].
    fold c in Hwf, Ht. simpl in Ht. split; [apply Hwf |].
    intros now k v Hfull Hnew. split; [| split].
    + rewrite setitem_links, Ht. cbn zeta. f_equal.
      assert (Hnone : TTLCache.find_link k
                        (filter (TTLCache.live now) (TTLCache.links c)) = None).
      { destruct (TTLCache.find_link k (filter (TTLCache.live now) (TTLCache.links c)))
          as [l |] eqn:E; [| reflexivity].
        apply find_link_some in E. destruct E as [Hin Hk]. exfalso. apply Hnew.
        apply filter_In in Hin. unfold TTLCache.keys. apply in_map_iff.
        exists l. tauto. }
      rewrite Hnone. unfold TTLCache.currsize in Hfull.
      destruct (forallb (TTLCache.live now) (TTLCache.links c)) eqn:Ea.
      * rewrite filter_live_all by exact Ea. rewrite Hfull. apply skipn_1_tl.
      * pose proof (filter_length_le (TTLCache.live now) (TTLCache.links c)) as Hle.
        assert (Hne : List.length (filter (TTLCache.live now) (TTLCache.links c))
                      <> List.length (TTLCache.links c)).
        { intros E. apply filter_length_forallb in E. congruence. }
        replace (List.length (filter (TTLCache.live now) (TTLCache.links c)) + 1
                 - TTLCache.maxsize) with 0
          by (unfold TTLCache.maxsize; lia).
        reflexivity.
    + rewrite visible_setitem_same, Ht.
      replace (now <? now + ttl)%N with true; [reflexivity |].
      symmetry. apply N.ltb_lt. lia.
    + apply setitem_currsize. apply Hwf.
Qed.

(** ** Ways *)

Lemma way_nodes_constituents (field : element -> option Q) way all :
  forall xs,
    way_nodes field way all = Return xs ->
    map field (constituents way all) = map Some xs.
Proof.
  unfold constituents.
  induction all as [| node rest IH]; simpl; intros xs E.
  - inversion E. reflexivity.
  - unfold is_constituent at 1.
    destruct (e_type node) as [ty |]; simpl in E; [| discriminate].
    destruct (String.eqb ty "node") eqn:Ety.
    + destruct (e_id node) as [id |]; simpl in E; [| discriminate].
      destruct (e_nodes way) as [nodes |]; simpl in E; [| discriminate].
      simpl. destruct (existsb (Z.eqb id) nodes).
      * destruct (field node) as [x |] eqn:Ef; simpl in E; [| discriminate].
        destruct (way_nodes field way rest) as [xs' | e]; simpl in E;
          [| discriminate].
        inversion E; subst. simpl. rewrite Ef. f_equal. apply IH. reflexivity.
      * apply IH. exact E.
    + destruct (e_id node); [destruct (e_nodes way) |]; simpl; apply IH; exact E.
Qed.

(** A way that has a constituent point lists its nodes. *)
Lemma constituents_nodes way all :
  constituents way all <> [] -> e_nodes way <> None.
Proof.
  intros Hne Hnone. apply Hne. clear Hne. unfold constituents.
  induction all as [| node rest IH]; [reflexivity |].
  cbn [filter]. unfold is_constituent at 1. rewrite Hnone.
  destruct (e_type node); [destruct (e_id node) |]; exact IH.
Qed.

(** The scan returns the field of the constituent points when every element
    can be read, the way lists its nodes and every constituent point carries
    the field. *)
Lemma way_nodes_resolved (field : element -> option Q) way all :
  Forall scannable all -> e_nodes way <> None ->
  forall xs,
    map field (constituents way all) = map Some xs ->
    way_nodes field way all = Return xs.
Proof.
  intros Hall Hnodes. destruct (e_nodes way) as [nodes |] eqn:En;
    [clear Hnodes | contradiction Hnodes; reflexivity].
  unfold constituents.
  induction all as [| node rest IH]; intros xs E.
  - destruct xs; [reflexivity | discriminate E].
  - inversion Hall as [| n r [Hty Hid] Hrest]; subst.
    cbn [filter] in E. unfold is_constituent at 1 in E. rewrite En in E.
    cbn [way_nodes]. rewrite En.
    destruct (e_type node) as [ty |]; [| contradiction Hty; reflexivity].
    cbn [item bind].
    destruct (String.eqb ty "node") eqn:Ety.
    + apply String.eqb_eq in Ety. subst ty.
      destruct (e_id node) as [id |];
        [| contradiction (Hid eq_refl); reflexivity].
      cbn [item bind]. cbn [andb] in E.
      destruct (existsb (Z.eqb id) nodes).
      * destruct xs as [| x xs]; [discriminate E |].
        cbn [map] in E. inversion E as [[Ef Et]]. rewrite Ef.
        cbn [item bind]. rewrite (IH Hrest xs Et). reflexivity.
      * apply IH; assumption.
    + destruct (e_id node); cbn [andb] in E; apply IH; assumption.
Qed.

(** C7: in the loop of [fetch_pois], the record built from an element of
    type [way] is located at the arithmetic mean of the latitudes and the
    arithmetic mean of the longitudes of the way's constituent points (the
    nodes of the answer whose identifier the way lists).  A way that has a
    name and whose constituent points carry their coordinates does yield
    that record, in an answer whose elements can all be read by the scan;
    a way none of whose constituent points is in the answer yields no
    record. *)
Theorem C7_way_location_is_mean all category u latlon element :
  e_type element = Some "way" ->
  (forall p latlon',
     process_element all category u latlon element = (Append p, latlon') ->
     exists lats lons,
       map e_lat (constituents element all) = map Some lats
       /\ map e_lon (constituents element all) = map Some lons
       /\ lats <> []
       /\ poi_location p = (mean lats, mean lons))
  /\ (forall lats lons,
        Forall scannable all ->
        map e_lat (constituents element all) = map Some lats ->
        map e_lon (constituents element all) = map Some lons ->
        lats <> [] ->
        has_name (element_name element) = true ->
        exists p,
          process_element all category u latlon element
          = (Append p, Some (mean lats, mean lons))
          /\ poi_location p = (mean lats, mean lons)
          /\ poi_name p = element_name element)
  /\ (constituents element all = [] ->
      forall p latlon',
        process_element all category u latlon element <> (Append p, latlon')).
Proof.
  intros Hty.
  assert (Hshape : forall p latlon',
             process_element all category u latlon element = (Append p, latlon') ->
             exists lats lons,
               way_nodes e_lat element all = Return lats
               /\ way_nodes e_lon element all = Return lons
               /\ lats <> [] /\ poi_location p = (mean lats, mean lons)).
  { intros p latlon'. unfold process_element, locate. rewrite Hty. cbn match.
    destruct (way_nodes e_lat element all) as [lats | e1];
      [| intros E; discriminate].
    destruct (way_nodes e_lon element all) as [lons | e2];
      [| intros E; discriminate].
    destruct (nonempty lats && nonempty lons) eqn:Ene; [| intros E; discriminate].
    destruct (String.eqb _ Sin_nombre); [intros E; discriminate |].
    intros E. inversion E; subst; clear E. exists lats, lons. simpl.
    repeat split; try reflexivity. intros ->. discriminate. }
  split; [| split].
  - intros p latlon' E. destruct (Hshape p latlon' E) as [lats [lons [H1 [H2 [H3 H4]]]]].
    exists lats, lons. repeat split; try assumption;
      apply way_nodes_constituents; assumption.
  - intros lats lons Hall Hlats Hlons Hne Hname.
    assert (Hnodes : e_nodes element <> None).
    { apply (constituents_nodes element all). intros Hnil.
      rewrite Hnil in Hlats. destruct lats; [contradiction | discriminate]. }
    assert (Hlen : List.length lons = List.length lats).
    { apply (f_equal (@List.length _)) in Hlats.
      apply (f_equal (@List.length _)) in Hlons.
      rewrite !length_map in Hlats, Hlons. congruence. }
    unfold process_element, locate. rewrite Hty. cbn match.
    rewrite (way_nodes_resolved e_lat element all Hall Hnodes lats Hlats).
    rewrite (way_nodes_resolved e_lon element all Hall Hnodes lons Hlons).
    assert (Hboth : nonempty lats && nonempty lons = true).
    { destruct lats; [contradiction |]. destruct lons; [discriminate | reflexivity]. }
    rewrite Hboth. unfold has_name, element_name in Hname.
    apply negb_true_iff in Hname. rewrite Hname.
    eexists. split; [reflexivity |]. split; reflexivity.
  - intros Hnone p latlon' E.
    destruct (Hshape p latlon' E) as [lats [lons [H1 [_ [H3 _]]]]].
    apply way_nodes_constituents in H1. rewrite Hnone in H1. simpl in H1.
    destruct lats; [contradiction | discriminate].
Qed.

(** ** One record per named element *)

Lemma process_element_located_node all category u latlon element :
  located_node element ->
  exists lat lon,
    e_lat element = Some lat /\ e_lon element = Some lon
    /\ process_element all category u latlon element
       = if has_name (element_name element)
         then (Append
                 {| poi_name := element_name element;
                    poi_location := (lat, lon);
                    poi_address :=
                      get "addr:street" Sin_direccion
                        (match e_tags element with Some t => t | None => [] end);
                    poi_type := category;
                    poi_rating := py_round (uniform (35 # 10) 5 u) 1;
                    poi_description :=
                      get "description" ""
                        (match e_tags element with Some t => t | None => [] end);
                    poi_phone :=
                      get "phone" ""
                        (match e_tags element with Some t => t | None => [] end);
                    poi_website :=
                      get "website" ""
                        (match e_tags element with Some t => t | None => [] end);
                    poi_opening_hours :=
                      get "opening_hours" ""
                        (match e_tags element with Some t => t | None => [] end) |},
               Some (lat, lon))
         else (Continue, Some (lat, lon)).
Proof.
  intros [Hty [Hlat Hlon]].
  destruct (e_lat element) as [lat |] eqn:Ela; [| contradiction].
  destruct (e_lon element) as [lon |] eqn:Elo; [| contradiction].
  exists lat, lon. repeat split.
  unfold process_element, locate, has_name, element_name.
  rewrite Hty, Ela, Elo. cbn match.
  destruct (String.eqb _ Sin_nombre); reflexivity.
Qed.

Lemma process_elements_located_nodes all category random :
  forall todo drawn latlon,
    Forall located_node todo ->
    map poi_name (fst (process_elements all category random drawn latlon todo))
    = filter has_name (map element_name todo).
Proof.
  induction todo as [| element rest IH]; intros drawn latlon Hall; simpl;
    [reflexivity |].
  inversion Hall as [| x xs Hx Hxs]; subst.
  destruct (process_element_located_node all category (random drawn) latlon
              element Hx) as [lat [lon [_ [_ ->]]]].
  destruct (has_name (element_name element)).
  - specialize (IH (S drawn) (Some (lat, lon)) Hxs).
    destruct (process_elements all category random (S drawn) (Some (lat, lon)) rest).
    simpl in *. f_equal. exact IH.
  - apply IH. exact Hxs.
Qed.

(** C2 (amended): [fetch_pois] does not deduplicate.  When a call for a
    valid category finds nothing in either cache and the provider answers
    with nodes that carry their coordinates, the list returned holds exactly
    one record per node whose [name] tag is present and is not the
    placeholder [Sin nombre], in the order of the answer and under that
    name, and no record for any other node; it is free of duplicates
    whenever these names are pairwise different. *)
Theorem C2_fetch_pois_one_record_per_named_node
    w category data random elements :
  valid_category category = true ->
  TTLCache.visible (now w) category (fetch_pois_cache w) = None ->
  TTLCache.visible (now w) (cache_key category) (POI_CACHE w) = None ->
  d_elements data = Some elements ->
  Forall located_node elements ->
  exists pois,
    fst (fetch_pois category (Response data) random w) = Return pois
    /\ map poi_name pois = filter has_name (map element_name elements)
    /\ (NoDup (filter has_name (map element_name elements)) -> NoDup pois).
Proof.
  intros Hvalid Hmemo Hpoi Hdata Hnodes.
  rewrite fetch_pois_eq. cbn zeta. rewrite Hmemo, fetch_pois_wrapped_eq.
  unfold valid_category in Hvalid.
  destruct (dict_get category queries) as [query |]; [| discriminate].
  simpl now. simpl POI_CACHE. rewrite Hpoi, Hdata. cbn zeta. simpl fst.
  eexists. split; [reflexivity |].
  pose proof (process_elements_located_nodes elements category random elements
                0 None Hnodes) as Hnames.
  split; [exact Hnames |].
  intros Hnd. rewrite <- Hnames in Hnd. apply NoDup_map_inv in Hnd. exact Hnd.
Qed.

(** ** Directions *)

Lemma args_get_None args k :
  missing_or_unparsable args k -> args_get args k None optional_float = None.
Proof.
  unfold missing_or_unparsable, args_get, optional_float.
  destruct (dict_get k args) as [s |]; [| reflexivity].
  intros ->. reflexivity.
Qed.

(** C9: a request to [/directions] in which one of the four coordinates is
    absent or cannot be converted to a float is answered with status 400 and
    an error payload, and leaves the state as it was: no request is sent to
    the routing provider. *)
Theorem C9_directions_missing_parameter args answer w k :
  In k ["start_lat"; "start_lon"; "end_lat"; "end_lon"]%string ->
  missing_or_unparsable args k ->
  get_directions args answer w
  = ({| status := 400; body := JsonError "Faltan parámetros de ubicación" |}, w).
Proof.
  intros Hk Hmiss. apply args_get_None in Hmiss. unfold get_directions.
  simpl in Hk.
  destruct Hk as [<- | [<- | [<- | [<- | []]]]]; rewrite Hmiss;
    repeat match goal with
           | |- context [match args_get ?a ?k ?d ?t with _ => _ end] =>
               destruct (args_get a k d t)
           end;
    reflexivity.
Qed.

(** ** Ranking *)

Section Sorting.
Context {A : Type} (key : A -> Q).

Lemma insert_by_in x y l : In y (insert_by key x l) <-> y = x \/ In y l.
Proof.
  induction l as [| z l IH]; simpl; [intuition auto |].
  destruct (Qle_bool (key x) (key z)); simpl; [intuition auto |].
  rewrite IH. intuition auto.
Qed.

Lemma insert_by_sorted x l :
  StronglySorted (by_key key) l -> StronglySorted (by_key key) (insert_by key x l).
Proof.
  induction l as [| z l IH]; simpl; intros Hs.
  - constructor; constructor.
  - inversion Hs as [| z' l' Hs' Hz]; subst.
    destruct (Qle_bool (key x) (key z)) eqn:E.
    + apply Qle_bool_iff in E. constructor; [exact Hs |].
      constructor; [exact E |].
      apply Forall_forall. intros y Hy.
      rewrite Forall_forall in Hz. unfold by_key in *.
      apply Qle_trans with (key z); [exact E | apply Hz; exact Hy].
    + assert (Hlt : (key z <= key x)%Q).
      { apply Qlt_le_weak. apply Qnot_le_lt. intros Hle.
        apply Qle_bool_iff in Hle. congruence. }
      constructor; [apply IH; exact Hs' |].
      apply Forall_forall. intros y Hy. apply insert_by_in in Hy.
      destruct Hy as [-> | Hy]; [exact Hlt |].
      rewrite Forall_forall in Hz. apply Hz. exact Hy.
Qed.

Lemma sort_by_sorted l : StronglySorted (by_key key) (sort_by key l).
Proof.
  induction l as [| x l IH]; simpl; [constructor | apply insert_by_sorted; exact IH].
Qed.

Lemma sort_by_in y l : In y (sort_by key l) <-> In y l.
Proof.
  induction l as [| x l IH]; simpl; [tauto |].
  rewrite insert_by_in, IH. intuition auto.
Qed.

Lemma insert_by_perm x l : Permutation (insert_by key x l) (x :: l).
Proof.
  induction l as [| z l IH]; simpl; [apply Permutation_refl |].
  destruct (Qle_bool (key x) (key z)); [apply Permutation_refl |].
  apply Permutation_trans with (z :: x :: l);
    [apply perm_skip; exact IH | apply perm_swap].
Qed.

Lemma sort_by_perm l : Permutation (sort_by key l) l.
Proof.
  induction l as [| x l IH]; simpl; [apply Permutation_refl |].
  apply Permutation_trans with (x :: sort_by key l);
    [apply insert_by_perm | apply perm_skip; exact IH].
Qed.

(** Stability: the elements with a given key keep their relative order. *)
Lemma insert_by_stable d x l :
  filter (fun a => Qeq_bool (key a) d) (insert_by key x l)
  = filter (fun a => Qeq_bool (key a) d) (x :: l).
Proof.
  induction l as [| z l IH]; [reflexivity |].
  simpl insert_by. destruct (Qle_bool (key x) (key z)) eqn:E; [reflexivity |].
  simpl filter at 1. rewrite IH. simpl.
  destruct (Qeq_bool (key x) d) eqn:Ex; [| reflexivity].
  destruct (Qeq_bool (key z) d) eqn:Ez; [| reflexivity].
  exfalso. apply Qeq_bool_iff in Ex, Ez.
  assert (Hle : Qle_bool (key x) (key z) = true).
  { apply Qle_bool_iff. rewrite Ex, Ez. apply Qle_refl. }
  congruence.
Qed.

Lemma sort_by_stable d l :
  filter (fun a => Qeq_bool (key a) d) (sort_by key l)
  = filter (fun a => Qeq_bool (key a) d) l.
Proof.
  induction l as [| x l IH]; [reflexivity |].
  simpl sort_by. rewrite insert_by_stable. simpl. rewrite IH. reflexivity.
Qed.
End Sorting.

Lemma append_routes_in user_location pois rt :
  In rt (fst (append_routes user_location pois)) -> In (r_poi rt) pois.
Proof.
  induction pois as [| p rest IH]; simpl; [tauto |].
  destruct (append_routes user_location rest) as [routes errors].
  destruct (geodesic_km user_location (poi_location p)); simpl in *.
  - intros [<- | Hin]; [left; reflexivity | right; apply IH; exact Hin].
  - intros Hin. right. apply IH. exact Hin.
Qed.

Lemma append_routes_at_distance user_location d pois :
  map r_poi (filter (fun rt => Qeq_bool (r_distance rt) d)
               (fst (append_routes user_location pois)))
  = filter (at_distance user_location d) pois.
Proof.
  induction pois as [| p rest IH]; simpl; [reflexivity |].
  destruct (append_routes user_location rest) as [routes errors].
  unfold at_distance at 1, distance_of.
  destruct (geodesic_km user_location (poi_location p)) as [x |]; simpl in *.
  - destruct (Qeq_bool (py_round x 2) d); simpl; [f_equal |]; exact IH.
  - exact IH.
Qed.

(** C5: for every user coordinate, list of records and threshold [r], the
    sequence obtained by filtering on the rating and calling
    [calculate_routes] holds only records rated [r] or more, is sorted by
    non-decreasing distance, and lists the records that lie at the same
    distance in the order they have in the input list; [get_pois] answers
    with that sequence, computed from the list of [fetch_pois]. *)
Theorem C5_routes_filtered_sorted_stable :
  (forall user_location pois r w,
     let routes := fst (calculate_routes user_location (filtered_pois r pois) w) in
     Forall (fun rt => (r <= poi_rating (r_poi rt))%Q) routes
     /\ StronglySorted (fun a b => (r_distance a <= r_distance b)%Q) routes
     /\ forall d,
          map r_poi (filter (fun rt => Qeq_bool (r_distance rt) d) routes)
          = filter (at_distance user_location d) (filtered_pois r pois))
  /\ (forall category args overpass random w,
        exists pois,
          fst (fetch_pois category overpass random w) = Return pois
          /\ fst (get_pois category args overpass random w)
             = {| status := 200;
                  body := JsonRoutes
                            (fst (calculate_routes
                                    (args_get args "lat" DEFAULT_LAT float_of_string,
                                     args_get args "lon" DEFAULT_LON float_of_string)
                                    (filtered_pois
                                       (args_get args "rating" 0%Q float_of_string)
                                       pois)
                                    (snd (fetch_pois category overpass random w)))) |}).
Proof.
  split.
  - intros user_location pois r w routes. subst routes. unfold calculate_routes.
    destruct (append_routes user_location (filtered_pois r pois))
      as [routes errors] eqn:E. simpl.
    assert (Hr : routes = fst (append_routes user_location (filtered_pois r pois)))
      by (rewrite E; reflexivity).
    split; [| split].
    + apply Forall_forall. intros rt Hin. apply sort_by_in in Hin.
      rewrite Hr in Hin. apply append_routes_in in Hin.
      unfold filtered_pois in Hin. apply filter_In in Hin.
      destruct Hin as [_ Hle]. apply Qle_bool_iff. exact Hle.
    + apply (sort_by_sorted r_distance).
    + intros d. rewrite sort_by_stable, Hr. apply append_routes_at_distance.
  - intros category args overpass random w.
    destruct (fetch_pois_returns category overpass random w) as [pois Hp].
    exists pois. split; [exact Hp |]. unfold get_pois.
    destruct (fetch_pois category overpass random w) as [res w1].
    simpl in Hp. subst res. simpl snd.
    destruct (calculate_routes _ _ w1) as [routes w2]. reflexivity.
Qed.

(** ** Entries that survive *)

Section Guarded.
Context {K V : Type} `{EqKey K}.
Implicit Types (c : TTLCache.t K V) (l : TTLCache.Link K V).
Implicit Types (ls : list (TTLCache.Link K V)) (k : K) (now : N).

Lemma distinct_in (ks : list K) k : In k (distinct ks) <-> In k ks.
Proof.
  induction ks as [| a ks IH]; simpl; [tauto |].
  destruct (existsb (key_eqb a) ks) eqn:E; simpl; rewrite IH; [| tauto].
  split; [tauto |]. intros [<- | Hin]; [| exact Hin].
  apply existsb_exists in E. destruct E as [x [Hx Hax]].
  apply key_eqb_eq in Hax. subst x. exact Hx.
Qed.

Lemma distinct_NoDup (ks : list K) : NoDup (distinct ks).
Proof.
  induction ks as [| a ks IH]; simpl; [constructor |].
  destruct (existsb (key_eqb a) ks) eqn:E; [exact IH |].
  constructor; [| exact IH]. rewrite distinct_in. intros Hin.
  assert (Ht : existsb (key_eqb a) ks = true)
    by (apply existsb_exists; exists a; split; [exact Hin | apply key_eqb_refl]).
  congruence.
Qed.

Lemma others_in k (ks : list K) k' : In k' (others k ks) <-> In k' ks /\ k' <> k.
Proof.
  unfold others. rewrite distinct_in, filter_In, negb_true_iff.
  split; intros [H1 H2]; split; try exact H1.
  - intros ->. rewrite key_eqb_refl in H2. discriminate.
  - apply key_eqb_neq. exact H2.
Qed.

(** A list of pairwise different keys, all looked up and none equal to [k],
    is no longer than [others k ks]. *)
Lemma others_bound k (ks s : list K) :
  NoDup s -> (forall x, In x s -> In x ks /\ x <> k) ->
  List.length s <= List.length (others k ks).
Proof.
  intros Hnd Hs. apply NoDup_incl_length; [exact Hnd |].
  intros x Hx. apply others_in. apply Hs. exact Hx.
Qed.

Lemma unlink_app k ls ls' :
  TTLCache.unlink k (ls ++ ls') = TTLCache.unlink k ls ++ TTLCache.unlink k ls'.
Proof. unfold TTLCache.unlink. apply filter_app. Qed.

Lemma unlink_keys_incl k ls : incl (map TTLCache.key (TTLCache.unlink k ls))
                                   (map TTLCache.key ls).
Proof. unfold TTLCache.unlink. apply keys_filter_incl. Qed.

Lemma guarded_find k v e recent c :
  NoDup (TTLCache.keys c) -> guarded k v e recent c ->
  TTLCache.find_link k (TTLCache.links c)
  = Some {| TTLCache.key := k; TTLCache.value := v; TTLCache.expires := e |}.
Proof.
  intros Hnd [pre [post [E _]]].
  apply (find_link_in (TTLCache.links c)
           {| TTLCache.key := k; TTLCache.value := v; TTLCache.expires := e |} Hnd).
  rewrite E. apply in_or_app. right. left. reflexivity.
Qed.

Lemma guarded_visible now k v e recent c :
  NoDup (TTLCache.keys c) -> guarded k v e recent c -> (now < e)%N ->
  TTLCache.visible now k c = Some v.
Proof.
  intros Hnd Hg Hlt. unfold TTLCache.visible.
  rewrite (guarded_find k v e recent c Hnd Hg). unfold TTLCache.live. simpl.
  apply N.ltb_lt in Hlt. rewrite Hlt. reflexivity.
Qed.

(** A read of [k] itself or of a key of [recent]. *)
Lemma guarded_getitem now k v e recent c k' :
  NoDup (TTLCache.keys c) -> guarded k v e recent c ->
  k' = k \/ In k' recent ->
  guarded k v e recent (snd (TTLCache.getitem now k' c)).
Proof.
  intros Hnd Hg Hk'. pose proof (guarded_find k v e recent c Hnd Hg) as Hfind.
  destruct Hg as [pre [post [E Hincl]]]. unfold TTLCache.getitem.
  destruct (TTLCache.find_link k' (TTLCache.links c)) as [l0 |] eqn:E0;
    [| exists pre, post; simpl; tauto].
  simpl. destruct (key_eqb k' k) eqn:Ek.
  - apply key_eqb_eq in Ek. subst k'. rewrite Hfind in E0. inversion E0; subst.
    exists (TTLCache.unlink k (TTLCache.links c)), []. split; [reflexivity |].
    intros x [].
  - assert (Hne : k' <> k) by (intros ->; rewrite key_eqb_refl in Ek; discriminate).
    destruct Hk' as [-> | Hin]; [contradiction |].
    destruct (find_link_some _ _ _ E0) as [_ Hk0].
    exists (TTLCache.unlink k' pre), (TTLCache.unlink k' post ++ [l0]).
    split.
    + rewrite E, unlink_app. simpl.
      assert (Hkeep : TTLCache.has_key k'
                {| TTLCache.key := k; TTLCache.value := v; TTLCache.expires := e |}
                = false) by (apply has_key_false; simpl; congruence).
      rewrite Hkeep. simpl. rewrite <- app_assoc. reflexivity.
    + rewrite map_app. apply incl_app.
      * eapply incl_tran; [apply unlink_keys_incl | exact Hincl].
      * simpl. intros x [<- | []]. rewrite Hk0. exact Hin.
Qed.

(** A store under a key of [recent], while the guarded entry is visible and
    fewer than 100 other keys are in use. *)
Lemma guarded_setitem now k v e recent c k' v' :
  TTLCache.wf c -> guarded k v e recent c ->
  k' <> k -> In k' recent -> (now < e)%N ->
  (forall s, NoDup s -> incl s recent -> List.length s < TTLCache.maxsize) ->
  guarded k v e recent (TTLCache.setitem now k' v' c).
Proof.
  intros [Hnd Hsz] [pre [post [E Hincl]]] Hne Hin Hlt Hfew.
  unfold guarded. rewrite setitem_links. cbn zeta.
  set (L := {| TTLCache.key := k; TTLCache.value := v; TTLCache.expires := e |}) in *.
  set (new := {| TTLCache.key := k'; TTLCache.value := v';
                 TTLCache.expires := (now + TTLCache.ttl c)%N |}).
  assert (Hlive : TTLCache.live now L = true)
    by (unfold TTLCache.live; simpl; apply N.ltb_lt; exact Hlt).
  assert (Halive : filter (TTLCache.live now) (TTLCache.links c)
                   = filter (TTLCache.live now) pre
                     ++ L :: filter (TTLCache.live now) post).
  { rewrite E, filter_app. simpl. rewrite Hlive. reflexivity. }
  rewrite Halive.
  set (A := filter (TTLCache.live now) pre) in *.
  set (P := filter (TTLCache.live now) post) in *.
  assert (HP : incl (map TTLCache.key P) recent).
  { eapply incl_tran; [apply keys_filter_incl | exact Hincl]. }
  assert (Hkeep : TTLCache.has_key k' L = false)
    by (apply has_key_false; simpl; congruence).
  destruct (TTLCache.find_link k' (A ++ L :: P)) as [l0 |] eqn:E0.
  - exists (TTLCache.unlink k' A), (TTLCache.unlink k' P ++ [new]). split.
    + rewrite unlink_app. simpl. rewrite Hkeep. simpl.
      rewrite <- app_assoc. reflexivity.
    + rewrite map_app. apply incl_app.
      * eapply incl_tran; [apply unlink_keys_incl | exact HP].
      * simpl. intros x [<- | []]. exact Hin.
  - assert (HndP : NoDup (map TTLCache.key P) /\ ~ In k' (map TTLCache.key P)).
    { apply find_link_none in E0. split.
      - apply (NoDup_keys_filter (TTLCache.live now)) in Hnd.
        rewrite Halive, map_app in Hnd. apply NoDup_app_remove_l in Hnd.
        simpl in Hnd. inversion Hnd; assumption.
      - intros Hin'. apply E0. rewrite map_app. apply in_or_app. right. right.
        exact Hin'. }
    assert (Hs : List.length (k' :: map TTLCache.key P) < TTLCache.maxsize).
    { apply Hfew.
      - constructor; tauto.
      - intros x [<- | Hx]; [exact Hin | apply HP; exact Hx]. }
    cbn [List.length] in Hs. rewrite length_map in Hs.
    assert (HlenA : List.length (A ++ L :: P) = List.length A + S (List.length P))
      by (rewrite length_app; reflexivity).
    assert (Hn : List.length (A ++ L :: P) + 1 - TTLCache.maxsize <= List.length A)
      by lia.
    exists (skipn (List.length (A ++ L :: P) + 1 - TTLCache.maxsize) A), (P ++ [new]).
    split.
    + rewrite skipn_app.
      replace (List.length (A ++ L :: P) + 1 - TTLCache.maxsize - List.length A)
        with 0 by lia.
      simpl. rewrite <- app_assoc. reflexivity.
    + rewrite map_app. apply incl_app; [exact HP |].
      simpl. intros x [<- | []]. exact Hin.
Qed.

(** An entry that is visible is kept by a store under another key when the
    cache is not full. *)
Lemma setitem_keeps now k v c l :
  In l (TTLCache.links c) -> TTLCache.key l <> k ->
  TTLCache.live now l = true -> TTLCache.currsize c < TTLCache.maxsize ->
  In l (TTLCache.links (TTLCache.setitem now k v c)).
Proof.
  intros Hin Hne Hlive Hsz. rewrite setitem_links. cbn zeta.
  apply in_or_app. left.
  assert (Hin' : In l (filter (TTLCache.live now) (TTLCache.links c)))
    by (apply filter_In; tauto).
  destruct (TTLCache.find_link k (filter (TTLCache.live now) (TTLCache.links c))).
  - apply unlink_in. tauto.
  - pose proof (filter_length_le (TTLCache.live now) (TTLCache.links c)).
    unfold TTLCache.currsize in Hsz.
    replace (List.length (filter (TTLCache.live now) (TTLCache.links c)) + 1
             - TTLCache.maxsize) with 0 by lia.
    exact Hin'.
Qed.

(** With one entry per key, a read keeps every entry. *)
Lemma getitem_keeps now k c l :
  NoDup (TTLCache.keys c) -> In l (TTLCache.links c) ->
  In l (TTLCache.links (snd (TTLCache.getitem now k c))).
Proof.
  intros Hnd Hin. unfold TTLCache.getitem.
  destruct (TTLCache.find_link k (TTLCache.links c)) as [l0 |] eqn:E;
    [| exact Hin].
  simpl. apply in_or_app.
  destruct (key_eqb (TTLCache.key l) k) eqn:Ek.
  - apply key_eqb_eq in Ek. subst k.
    rewrite (find_link_in _ _ Hnd Hin) in E. inversion E; subst.
    right. left. reflexivity.
  - left. apply unlink_in. split; [exact Hin |].
    intros Hk. rewrite Hk, key_eqb_refl in Ek. discriminate.
Qed.

End Guarded.

(** ** Runs *)

Lemma fetch_pois_frame category overpass random w :
  now (snd (fetch_pois category overpass random w)) = now w
  /\ fetch_weather_cache (snd (fetch_pois category overpass random w))
     = fetch_weather_cache w.
Proof.
  rewrite fetch_pois_eq. cbn zeta.
  destruct (TTLCache.visible (now w) category (fetch_pois_cache w));
    [simpl; tauto |].
  destruct (fetch_pois_wrapped_frame category overpass random
              (set_fetch_pois_cache
                 (snd (TTLCache.getitem (now w) category (fetch_pois_cache w))) w))
    as [pois [Hr [Hn [_ Hw]]]].
  rewrite Hr. simpl. rewrite Hn, Hw. simpl. tauto.
Qed.

Lemma now_step w ev :
  now (step w ev) = (now w + match ev with Tick d => d | _ => 0 end)%N.
Proof.
  destruct ev as [d | category args overpass random | args answer | args answer];
    simpl.
  - reflexivity.
  - destruct (get_pois_world category args overpass random w) as [errors ->].
    simpl. rewrite (proj1 (fetch_pois_frame category overpass random w)). lia.
  - destruct (get_weather_world args answer w) as [errors ->]. simpl.
    destruct (fetch_weather_frame
                (args_get args "lat" DEFAULT_LAT float_of_string)
                (args_get args "lon" DEFAULT_LON float_of_string) answer w)
      as [Hn _]. rewrite Hn. lia.
  - destruct (get_directions_frame args answer w) as [Hn _]. rewrite Hn. lia.
Qed.

Lemma now_run evs : forall w, now (run w evs) = (now w + elapsed evs)%N.
Proof.
  induction evs as [| ev evs IH]; intros w; simpl; [lia |].
  rewrite IH, now_step. destruct ev; lia.
Qed.

(** The decorator cache of [fetch_pois] after one event. *)
Lemma memo_step w ev :
  fetch_pois_cache (step w ev)
  = match ev with
    | Pois category _ overpass random =>
        fetch_pois_cache (snd (fetch_pois category overpass random w))
    | _ => fetch_pois_cache w
    end.
Proof.
  destruct ev as [d | category args overpass random | args answer | args answer];
    simpl.
  - reflexivity.
  - destruct (get_pois_world category args overpass random w) as [errors ->].
    reflexivity.
  - destruct (get_weather_world args answer w) as [errors ->]. simpl.
    apply (fetch_weather_frame _ _ answer w).
  - apply (get_directions_frame args answer w).
Qed.

Lemma memo_guarded_fetch_pois category v e recent category' overpass random w :
  inv w -> guarded category v e recent (fetch_pois_cache w) ->
  (now w < e)%N ->
  category' = category \/ In category' recent ->
  (forall s, NoDup s -> incl s recent -> List.length s < TTLCache.maxsize) ->
  guarded category v e recent
    (fetch_pois_cache (snd (fetch_pois category' overpass random w))).
Proof.
  intros Hinv Hg Hlt Hreq Hfew.
  destruct Hinv as [[Hwf _] _]. destruct Hwf as [Hnd Hsz].
  pose proof (guarded_getitem (now w) category v e recent (fetch_pois_cache w)
                category' Hnd Hg Hreq) as Hg1.
  rewrite fetch_pois_eq. cbn zeta.
  destruct (TTLCache.visible (now w) category' (fetch_pois_cache w)) as [v0 |] eqn:Ev;
    [exact Hg1 |].
  destruct (fetch_pois_wrapped_frame category' overpass random
              (set_fetch_pois_cache
                 (snd (TTLCache.getitem (now w) category' (fetch_pois_cache w))) w))
    as [pois [Hr _]].
  rewrite Hr. simpl.
  assert (Hne : category' <> category).
  { intros ->.
    rewrite (guarded_visible (now w) category v e recent _ Hnd Hg Hlt) in Ev.
    discriminate. }
  destruct Hreq as [-> | Hin]; [contradiction |].
  apply guarded_setitem; try assumption.
  apply wf_getitem. split; assumption.
Qed.

Lemma memo_guarded_run category v e recent :
  (forall s, NoDup s -> incl s recent -> List.length s < TTLCache.maxsize) ->
  forall evs w,
    Forall genuine evs -> inv w ->
    guarded category v e recent (fetch_pois_cache w) ->
    (forall c, In c (requested evs) -> c = category \/ In c recent) ->
    (now w + elapsed evs < e)%N ->
    guarded category v e recent (fetch_pois_cache (run w evs)).
Proof.
  intros Hfew. induction evs as [| ev evs IH]; intros w Hgen Hinv Hg Hreq Hlt;
    simpl; [exact Hg |].
  inversion Hgen as [| x xs Hev Hevs]; subst.
  simpl in Hlt. apply IH.
  - exact Hevs.
  - apply inv_step; assumption.
  - rewrite memo_step.
    destruct ev as [d | c args overpass random | args answer | args answer];
      try exact Hg.
    apply memo_guarded_fetch_pois; try assumption; [lia |].
    apply Hreq. simpl. left. reflexivity.
  - intros c Hc. apply Hreq. simpl. apply in_or_app. right. exact Hc.
  - rewrite now_step. destruct ev; lia.
Qed.

(** ** A failed provider request *)

Lemma fetch_pois_failed_random category random random' w :
  fetch_pois category RequestFailed random w
  = fetch_pois category RequestFailed random' w.
Proof.
  rewrite !fetch_pois_eq. cbn zeta.
  destruct (TTLCache.visible (now w) category (fetch_pois_cache w));
    [reflexivity |].
  rewrite !fetch_pois_wrapped_eq. reflexivity.
Qed.

(** A call answered from the decorator cache. *)
Lemma fetch_pois_hit category overpass random w v :
  TTLCache.visible (now w) category (fetch_pois_cache w) = Some v ->
  fst (fetch_pois category overpass random w) = Return v
  /\ outbound (snd (fetch_pois category overpass random w)) = outbound w.
Proof. intros Ev. rewrite fetch_pois_eq. cbn zeta. rewrite Ev. simpl. tauto. Qed.

(** The calls that contact the provider: nothing is visible in either cache
    and the category is valid. *)
Lemma fetch_pois_contacts category overpass random w :
  outbound (snd (fetch_pois category overpass random w)) <> outbound w ->
  TTLCache.visible (now w) category (fetch_pois_cache w) = None
  /\ valid_category category = true
  /\ TTLCache.visible (now w) (cache_key category) (POI_CACHE w) = None.
Proof.
  rewrite fetch_pois_eq. cbn zeta. unfold valid_category.
  destruct (TTLCache.visible (now w) category (fetch_pois_cache w));
    [simpl; intros Hc; contradiction |].
  rewrite fetch_pois_wrapped_eq.
  destruct (dict_get category queries); [| simpl; intros Hc; contradiction].
  simpl now. simpl POI_CACHE.
  destruct (TTLCache.visible (now w) (cache_key category) (POI_CACHE w));
    [simpl; intros Hc; contradiction |].
  tauto.
Qed.

(** C10 (amended): after a call of [fetch_pois] for a category whose
    request to the provider failed, the call returns the empty list and the
    decorator cache holds it for 3600 seconds; every later call for the
    same category made before 3600 seconds have passed returns the empty
    list without contacting the provider, provided fewer than 100 different
    other category strings were requested in between (the decorator cache
    holds 100 entries and gives up the least recently used one). *)
Theorem C10_failure_is_memoised w category random :
  reachable w ->
  outbound (snd (fetch_pois category RequestFailed random w)) <> outbound w ->
  fst (fetch_pois category RequestFailed random w) = Return []
  /\ forall evs overpass' random',
       Forall genuine evs ->
       (elapsed evs < seconds 3600)%N ->
       List.length (others category (requested evs)) < 100 ->
       let w2 := run (snd (fetch_pois category RequestFailed random w)) evs in
       fst (fetch_pois category overpass' random' w2) = Return []
       /\ outbound (snd (fetch_pois category overpass' random' w2)) = outbound w2.
Proof.
  intros Hw Hsent. apply inv_reachable in Hw.
  destruct (fetch_pois_contacts _ _ _ _ Hsent) as [Hmemo [Hvalid Hpoi]].
  assert (Hinv1 : inv (snd (fetch_pois category RequestFailed random w))).
  { rewrite (fetch_pois_failed_random category random (fun _ => 0%Q)).
    apply inv_fetch_pois; [| exact Hw].
    intros n. split; [apply Qle_refl | reflexivity]. }
  assert (Hcall : fetch_pois category RequestFailed random w
                  = (Return [],
                     set_fetch_pois_cache
                       (TTLCache.setitem (now w) category []
                          (snd (TTLCache.getitem (now w) category (fetch_pois_cache w))))
                       (emit [ErrorOverpass]
                          (send (GetOverpass
                                   match dict_get category queries with
                                   | Some q => q
                                   | None => QueryHotel
                                   end)
                             (set_fetch_pois_cache
                                (snd (TTLCache.getitem (now w) category
                                        (fetch_pois_cache w))) w))))).
  { rewrite fetch_pois_eq. cbn zeta. rewrite Hmemo, fetch_pois_wrapped_eq.
    unfold valid_category in Hvalid.
    destruct (dict_get category queries); [| discriminate].
    simpl now. simpl POI_CACHE. rewrite Hpoi. reflexivity. }
  rewrite Hcall in *. simpl fst. simpl snd in *. split; [reflexivity |].
  intros evs overpass' random' Hgen Hel Hcount w2.
  set (w1 := set_fetch_pois_cache _ _) in *.
  set (recent := filter (fun c => negb (String.eqb c category)) (requested evs)).
  assert (Hrecent : forall c, In c recent <-> In c (requested evs) /\ c <> category).
  { intros c. unfold recent. rewrite filter_In, negb_true_iff, String.eqb_neq.
    reflexivity. }
  assert (Hg1 : guarded category [] (now w + seconds 3600)%N recent
                  (fetch_pois_cache w1)).
  { destruct (setitem_last (now w) category ([] : list poi)
                (snd (TTLCache.getitem (now w) category (fetch_pois_cache w))))
      as [front [E _]].
    exists front, []. split; [| intros x []].
    unfold w1, set_fetch_pois_cache. cbn [fetch_pois_cache]. rewrite E, getitem_ttl.
    destruct Hw as [[_ [_ [_ [Ht _]]]] _]. rewrite Ht. reflexivity. }
  assert (Hg2 : guarded category [] (now w + seconds 3600)%N recent
                  (fetch_pois_cache w2)).
  { apply memo_guarded_run; try assumption.
    - intros s Hnd Hincl. unfold TTLCache.maxsize.
      apply Nat.le_lt_trans with (List.length (others category (requested evs)));
        [| exact Hcount].
      apply others_bound; [exact Hnd |]. intros x Hx. apply Hrecent, Hincl, Hx.
    - intros c Hc. destruct (String.eqb c category) eqn:Ec.
      + left. apply String.eqb_eq. exact Ec.
      + right. apply Hrecent. split; [exact Hc | apply String.eqb_neq; exact Ec].
    - change (now w1) with (now w). lia. }
  apply fetch_pois_hit.
  apply (guarded_visible _ category [] (now w + seconds 3600)%N recent).
  - assert (Hinv2 : inv w2) by (apply inv_run; assumption).
    destruct Hinv2 as [[[Hnd _] _] _]. exact Hnd.
  - exact Hg2.
  - unfold w2. rewrite now_run. change (now w1) with (now w). lia.
Qed.

(** ** Two calls within the life of a [POI_CACHE] entry *)

Lemma valid_category_cases category :
  valid_category category = true ->
  category = "hotel"%string \/ category = "restaurant"%string
  \/ category = "attraction"%string.
Proof.
  unfold valid_category, queries. cbn [dict_get].
  destruct (String.eqb "hotel" category) eqn:E1;
    [apply String.eqb_eq in E1; auto |].
  destruct (String.eqb "restaurant" category) eqn:E2;
    [apply String.eqb_eq in E2; auto |].
  destruct (String.eqb "attraction" category) eqn:E3;
    [apply String.eqb_eq in E3; auto | discriminate].
Qed.

(** [POI_CACHE] never holds more than three entries. *)
Lemma poi_small w : inv w -> TTLCache.currsize (POI_CACHE w) <= 3.
Proof.
  intros [[_ [[Hnd _] _]] [Hk _]]. unfold TTLCache.currsize.
  rewrite <- (length_map TTLCache.key).
  change 3 with (List.length [cache_key "hotel"; cache_key "restaurant";
                              cache_key "attraction"]).
  apply NoDup_incl_length; [exact Hnd |].
  intros k Hin. apply in_map_iff in Hin. destruct Hin as [l [<- Hin]].
  destruct (Hk l Hin) as [c [Hv ->]].
  destruct (valid_category_cases c Hv) as [-> | [-> | ->]]; simpl; auto.
Qed.

Lemma poi_step w ev :
  POI_CACHE (step w ev)
  = match ev with
    | Pois category _ overpass random =>
        POI_CACHE (snd (fetch_pois category overpass random w))
    | _ => POI_CACHE w
    end.
Proof.
  destruct ev as [d | category args overpass random | args answer | args answer];
    simpl.
  - reflexivity.
  - destruct (get_pois_world category args overpass random w) as [errors ->].
    reflexivity.
  - destruct (get_weather_world args answer w) as [errors ->]. simpl.
    apply (fetch_weather_frame _ _ answer w).
  - apply (get_directions_frame args answer w).
Qed.

(** A visible entry of [POI_CACHE] survives any call of [fetch_pois]. *)
Lemma poi_holds_fetch_pois category v e category' overpass random w :
  inv w -> holds_until (POI_CACHE w) (cache_key category) v e -> (now w < e)%N ->
  holds_until (POI_CACHE (snd (fetch_pois category' overpass random w)))
    (cache_key category) v e.
Proof.
  intros Hinv Hh Hlt. pose proof (poi_small w Hinv) as Hsmall.
  destruct Hinv as [[_ [[Hnd _] _]] _]. unfold holds_until in *.
  rewrite fetch_pois_eq. cbn zeta.
  destruct (TTLCache.visible (now w) category' (fetch_pois_cache w));
    [exact Hh |].
  destruct (fetch_pois_wrapped_frame category' overpass random
              (set_fetch_pois_cache
                 (snd (TTLCache.getitem (now w) category' (fetch_pois_cache w))) w))
    as [pois [Hr _]].
  rewrite Hr. cbn [snd POI_CACHE set_fetch_pois_cache].
  clear Hr pois. rewrite fetch_pois_wrapped_eq.
  destruct (dict_get category' queries) as [query |]; [| exact Hh].
  simpl now. simpl POI_CACHE.
  destruct (TTLCache.visible (now w) (cache_key category') (POI_CACHE w))
    as [v' |] eqn:Ev.
  - simpl. apply getitem_keeps; assumption.
  - destruct overpass as [data |]; [| exact Hh].
    cbn zeta. simpl. apply setitem_keeps.
    + exact Hh.
    + simpl. intros Hk. rewrite <- Hk in Ev.
      pose proof (visible_of_in (now w) (POI_CACHE w) _ Hnd Hh) as Hvis.
      simpl in Hvis. rewrite Ev in Hvis. unfold TTLCache.live in Hvis. simpl in Hvis.
      apply N.ltb_lt in Hlt. rewrite Hlt in Hvis. discriminate.
    + unfold TTLCache.live. simpl. apply N.ltb_lt. exact Hlt.
    + unfold TTLCache.maxsize. lia.
Qed.

Lemma poi_holds_run category v e :
  forall evs w,
    Forall genuine evs -> inv w ->
    holds_until (POI_CACHE w) (cache_key category) v e ->
    (now w + elapsed evs < e)%N ->
    holds_until (POI_CACHE (run w evs)) (cache_key category) v e.
Proof.
  induction evs as [| ev evs IH]; intros w Hgen Hinv Hh Hlt; simpl; [exact Hh |].
  inversion Hgen as [| x xs Hev Hevs]; subst. simpl in Hlt. apply IH.
  - exact Hevs.
  - apply inv_step; assumption.
  - rewrite poi_step.
    destruct ev as [d | c args overpass random | args answer | args answer];
      try exact Hh.
    apply poi_holds_fetch_pois; [exact Hinv | exact Hh | lia].
  - rewrite now_step. destruct ev; lia.
Qed.

(** What a call returns when [POI_CACHE] holds a visible list. *)
Lemma fetch_pois_from_poi_cache category overpass random w v e :
  inv w -> holds_until (POI_CACHE w) (cache_key category) v e -> (now w < e)%N ->
  fst (fetch_pois category overpass random w) = Return v
  /\ outbound (snd (fetch_pois category overpass random w)) = outbound w.
Proof.
  intros Hinv Hh Hlt.
  assert (Hvis : TTLCache.visible (now w) (cache_key category) (POI_CACHE w) = Some v).
  { destruct Hinv as [[_ [[Hnd _] _]] _].
    pose proof (visible_of_in (now w) (POI_CACHE w) _ Hnd Hh) as Hvis.
    unfold TTLCache.live in Hvis. simpl in Hvis.
    apply N.ltb_lt in Hlt. rewrite Hlt in Hvis. exact Hvis. }
  destruct (TTLCache.visible (now w) category (fetch_pois_cache w)) as [v0 |] eqn:Ev.
  - destruct (fetch_pois_hit category overpass random w v0 Ev) as [H1 H2].
    split; [| exact H2]. rewrite H1. f_equal.
    destruct (visible_in _ _ _ _ Ev) as [lm [Hin [Hk [Hv _]]]].
    destruct Hinv as [_ [_ [_ [Hc _]]]].
    destruct (Hc lm _ Hin Hh) as [E | E].
    + simpl. rewrite Hk. reflexivity.
    + simpl in E. congruence.
    + unfold TTLCache.live in E. simpl in E. apply N.ltb_lt in Hlt. congruence.
  - rewrite fetch_pois_eq. cbn zeta. rewrite Ev, fetch_pois_wrapped_eq.
    assert (Hvalid : valid_category category = true).
    { destruct Hinv as [_ [Hk _]]. destruct (Hk _ Hh) as [c [Hvc Hkc]].
      simpl in Hkc. apply cache_key_inj in Hkc. subst c. exact Hvc. }
    unfold valid_category in Hvalid.
    destruct (dict_get category queries); [| discriminate].
    simpl now. simpl POI_CACHE. rewrite Hvis. simpl. tauto.
Qed.

(** A list obtained from the provider is stored in [POI_CACHE] for 24
    hours. *)
Lemma fetch_pois_stores category data random w :
  inv w ->
  outbound (snd (fetch_pois category (Response data) random w)) <> outbound w ->
  exists pois,
    holds_until (POI_CACHE (snd (fetch_pois category (Response data) random w)))
      (cache_key category) pois (now w + seconds 86400)%N.
Proof.
  intros Hw Hsent.
  destruct (fetch_pois_contacts _ _ _ _ Hsent) as [Hmemo [Hvalid Hpoi]].
  rewrite fetch_pois_eq. cbn zeta.
  rewrite Hmemo, fetch_pois_wrapped_eq. unfold valid_category in Hvalid.
  destruct (dict_get category queries); [| discriminate].
  simpl now. simpl POI_CACHE. rewrite Hpoi. cbn zeta.
  eexists. unfold holds_until. simpl fst. cbv iota. simpl snd.
  cbn [POI_CACHE set_fetch_pois_cache set_POI_CACHE now emit send].
  destruct (setitem_last (now w) (cache_key category)
              (fst (process_elements
                      match d_elements data with Some es => es | None => [] end
                      category random 0 None
                      match d_elements data with Some es => es | None => [] end))
              (POI_CACHE w)) as [front [E _]].
  rewrite E. destruct Hw as [[_ [_ [_ [_ [Ht _]]]]] _]. rewrite Ht.
  apply in_or_app. right. left. reflexivity.
Qed.

(** C4 (amended): let a call of [fetch_pois] for a category end with a list
    held in [POI_CACHE] under the key of the category until a time [e] that
    has not come yet; then the call returned that list, and every later call
    for the same category made before [e] returns the identical list and
    sends no request, whatever the server does in between.  In particular,
    after a call that obtained its list from the provider, every call for
    the category made less than 24 hours later returns the identical list
    and sends no request.  A call whose provider request failed stores
    nothing in [POI_CACHE], and nothing is claimed of the calls after it. *)
Theorem C4_repeat_within_poi_cache_ttl w category overpass random :
  reachable w ->
  (forall n, unit_sample (random n)) ->
  let w1 := snd (fetch_pois category overpass random w) in
  (forall pois e,
     holds_until (POI_CACHE w1) (cache_key category) pois e ->
     (now w1 < e)%N ->
     fst (fetch_pois category overpass random w) = Return pois
     /\ forall evs overpass' random',
          Forall genuine evs ->
          (now w1 + elapsed evs < e)%N ->
          fst (fetch_pois category overpass' random' (run w1 evs)) = Return pois
          /\ outbound (snd (fetch_pois category overpass' random' (run w1 evs)))
             = outbound (run w1 evs))
  /\ (forall data,
        overpass = Response data -> outbound w1 <> outbound w ->
        forall evs overpass' random',
          Forall genuine evs ->
          (elapsed evs < seconds 86400)%N ->
          fst (fetch_pois category overpass' random' (run w1 evs))
          = fst (fetch_pois category overpass random w)
          /\ outbound (snd (fetch_pois category overpass' random' (run w1 evs)))
             = outbound (run w1 evs)).
Proof.
  intros Hw Hr w1. apply inv_reachable in Hw.
  assert (Hinv1 : inv w1) by (apply inv_fetch_pois; assumption).
  assert (Hgeneral : forall pois e,
             holds_until (POI_CACHE w1) (cache_key category) pois e ->
             (now w1 < e)%N ->
             fst (fetch_pois category overpass random w) = Return pois
             /\ forall evs overpass' random',
                  Forall genuine evs ->
                  (now w1 + elapsed evs < e)%N ->
                  fst (fetch_pois category overpass' random' (run w1 evs)) = Return pois
                  /\ outbound (snd (fetch_pois category overpass' random' (run w1 evs)))
                     = outbound (run w1 evs)).
  { intros pois e Hh Hlt. split.
    - destruct (fetch_pois_returns category overpass random w) as [r Hret].
      rewrite Hret. f_equal.
      destruct (fetch_pois_result_cached _ _ _ _ _ Hret) as [lm [Hin [Hk Hv]]].
      fold w1 in Hin. destruct Hinv1 as [_ [_ [_ [Hc _]]]].
      destruct (Hc lm _ Hin Hh) as [E | E].
      + simpl. rewrite Hk. reflexivity.
      + simpl in E. congruence.
      + unfold TTLCache.live in E. simpl in E. apply N.ltb_lt in Hlt. congruence.
    - intros evs overpass' random' Hgen Hel.
      apply (fetch_pois_from_poi_cache category overpass' random' (run w1 evs) pois e).
      + apply inv_run; assumption.
      + apply poi_holds_run; assumption.
      + rewrite now_run. exact Hel. }
  split; [exact Hgeneral |].
  intros data Hov Hsent evs overpass' random' Hgen Hel.
  assert (Hnow : now w1 = now w) by apply fetch_pois_frame.
  assert (Hheld : exists pois,
             holds_until (POI_CACHE w1) (cache_key category) pois
               (now w + seconds 86400)%N).
  { unfold w1 in *. subst overpass. apply fetch_pois_stores; assumption. }
  destruct Hheld as [pois Hheld].
  destruct (Hgeneral pois _ Hheld) as [Hfirst Hlater].
  { rewrite Hnow. unfold seconds. lia. }
  rewrite Hfirst. apply Hlater; [exact Hgen |]. rewrite Hnow. lia.
Qed.

(** ** The weather cache *)

Lemma weather_step w ev :
  fetch_weather_cache (step w ev)
  = match ev with
    | Weather args answer =>
        fetch_weather_cache
          (snd (fetch_weather (fst (weather_args args)) (snd (weather_args args))
                  answer w))
    | _ => fetch_weather_cache w
    end.
Proof.
  destruct ev as [d | category args overpass random | args answer | args answer];
    simpl.
  - reflexivity.
  - destruct (get_pois_world category args overpass random w) as [errors ->].
    simpl. apply (fetch_pois_frame category overpass random w).
  - destruct (get_weather_world args answer w) as [errors ->]. reflexivity.
  - apply (get_directions_frame args answer w).
Qed.

Lemma fetch_weather_hit lat lon answer w r :
  TTLCache.visible (now w) (weather_key lat lon) (fetch_weather_cache w) = Some r ->
  fst (fetch_weather lat lon answer w) = Return r
  /\ outbound (snd (fetch_weather lat lon answer w)) = outbound w.
Proof. intros Ev. rewrite fetch_weather_eq. cbn zeta. rewrite Ev. simpl. tauto. Qed.

(** The cache of [fetch_weather] after a call that was not answered from it
    and that returned [r]. *)
Lemma fetch_weather_miss lat lon answer w r :
  TTLCache.visible (now w) (weather_key lat lon) (fetch_weather_cache w) = None ->
  fst (fetch_weather lat lon answer w) = Return r ->
  fetch_weather_cache (snd (fetch_weather lat lon answer w))
  = TTLCache.setitem (now w) (weather_key lat lon) r
      (snd (TTLCache.getitem (now w) (weather_key lat lon) (fetch_weather_cache w))).
Proof.
  intros Ev. rewrite fetch_weather_eq. cbn zeta. rewrite Ev.
  destruct no_api_key; [simpl; intros E; inversion E; reflexivity |].
  destruct answer as [data |]; [| simpl; intros E; inversion E; reflexivity].
  destruct (snapshot data); simpl; intros E; inversion E; reflexivity.
Qed.

Lemma weather_guarded_fetch_weather key v e recent lat lon answer w :
  inv w -> guarded key v e recent (fetch_weather_cache w) ->
  (now w < e)%N ->
  weather_key lat lon = key \/ In (weather_key lat lon) recent ->
  (forall s, NoDup s -> incl s recent -> List.length s < TTLCache.maxsize) ->
  guarded key v e recent
    (fetch_weather_cache (snd (fetch_weather lat lon answer w))).
Proof.
  intros Hinv Hg Hlt Hreq Hfew.
  destruct Hinv as [[_ [_ [Hwf _]]] _]. destruct Hwf as [Hnd Hsz].
  pose proof (guarded_getitem (now w) key v e recent (fetch_weather_cache w)
                (weather_key lat lon) Hnd Hg Hreq) as Hg1.
  destruct (TTLCache.visible (now w) (weather_key lat lon) (fetch_weather_cache w))
    as [r |] eqn:Ev.
  - rewrite fetch_weather_eq. cbn zeta. rewrite Ev. exact Hg1.
  - assert (Hne : weather_key lat lon <> key).
    { intros E. rewrite E in Ev.
      rewrite (guarded_visible (now w) key v e recent _ Hnd Hg Hlt) in Ev.
      discriminate. }
    destruct Hreq as [E | Hin]; [contradiction |].
    assert (Hstore : forall r,
               guarded key v e recent
                 (TTLCache.setitem (now w) (weather_key lat lon) r
                    (snd (TTLCache.getitem (now w) (weather_key lat lon)
                            (fetch_weather_cache w))))).
    { intros r. apply guarded_setitem; try assumption.
      apply wf_getitem. split; assumption. }
    rewrite fetch_weather_eq. cbn zeta. rewrite Ev.
    destruct no_api_key; [apply Hstore |].
    destruct answer as [data |]; [| apply Hstore].
    destruct (snapshot data); [apply Hstore | exact Hg1].
Qed.

Lemma weather_guarded_run key v e recent :
  (forall s, NoDup s -> incl s recent -> List.length s < TTLCache.maxsize) ->
  forall evs w,
    Forall genuine evs -> inv w ->
    guarded key v e recent (fetch_weather_cache w) ->
    (forall k, In k (looked_up evs) -> k = key \/ In k recent) ->
    (now w + elapsed evs < e)%N ->
    guarded key v e recent (fetch_weather_cache (run w evs)).
Proof.
  intros Hfew. induction evs as [| ev evs IH]; intros w Hgen Hinv Hg Hreq Hlt;
    simpl; [exact Hg |].
  inversion Hgen as [| x xs Hev Hevs]; subst.
  simpl in Hlt. apply IH.
  - exact Hevs.
  - apply inv_step; assumption.
  - rewrite weather_step.
    destruct ev as [d | c args overpass random | args answer | args answer];
      try exact Hg.
    apply weather_guarded_fetch_weather; try assumption; [lia |].
    apply Hreq. simpl. left. reflexivity.
  - intros k Hk. apply Hreq. simpl. apply in_or_app. right. exact Hk.
  - rewrite now_step. destruct ev; lia.
Qed.

Lemma weather_key_eq lat lon lat' lon' :
  (lat' == lat)%Q -> (lon' == lon)%Q -> weather_key lat' lon' = weather_key lat lon.
Proof.
  intros E1 E2. unfold weather_key. f_equal; apply Qred_complete; assumption.
Qed.

(** C8 (amended): [fetch_weather] caches its result under the exact values
    of its two arguments, which are not rounded.  After a call that was not
    answered from the cache and that returned a result, every call with
    equal coordinates made less than 300 seconds later returns the same
    result and sends no request, provided fewer than 100 other coordinate
    pairs were looked up in between.  The statement is made for coordinates
    other than zero, those of the two calls and those looked up in between:
    [0.0] and [-0.0] are equal floats that print differently, hence two
    keys of the program. *)
Theorem C8_weather_cached_per_exact_coordinates w lat lon answer r :
  reachable w ->
  TTLCache.visible (now w) (weather_key lat lon) (fetch_weather_cache w) = None ->
  fst (fetch_weather lat lon answer w) = Return r ->
  no_zero (lat, lon) ->
  forall evs lat' lon' answer',
    Forall genuine evs ->
    Forall no_zero (looked_up evs) ->
    (lat' == lat)%Q -> (lon' == lon)%Q ->
    (elapsed evs < seconds 300)%N ->
    List.length (others (weather_key lat lon) (looked_up evs)) < 100 ->
    let w2 := run (snd (fetch_weather lat lon answer w)) evs in
    fst (fetch_weather lat' lon' answer' w2) = Return r
    /\ outbound (snd (fetch_weather lat' lon' answer' w2)) = outbound w2.
Proof.
  intros Hw Hmiss Hret _ evs lat' lon' answer' Hgen _ Elat Elon Hel Hcount w2.
  apply inv_reachable in Hw.
  set (w1 := snd (fetch_weather lat lon answer w)) in *.
  set (key := weather_key lat lon) in *.
  assert (Hinv1 : inv w1) by (apply inv_fetch_weather; exact Hw).
  assert (Hnow1 : now w1 = now w) by apply (fetch_weather_frame lat lon answer w).
  set (recent := filter (fun k => negb (coord_eqb k key)) (looked_up evs)).
  assert (Hrecent : forall k, In k recent <-> In k (looked_up evs) /\ k <> key).
  { intros k. unfold recent. rewrite filter_In, negb_true_iff.
    split; intros [H1 H2]; split; try exact H1.
    - intros ->. change (key_eqb key key = false) in H2.
      rewrite key_eqb_refl in H2. discriminate.
    - change (key_eqb k key = false). apply key_eqb_neq. exact H2. }
  assert (Hg1 : guarded key r (now w + seconds 300)%N recent (fetch_weather_cache w1)).
  { unfold w1. rewrite (fetch_weather_miss lat lon answer w r Hmiss Hret).
    destruct (setitem_last (now w) key r
                (snd (TTLCache.getitem (now w) key (fetch_weather_cache w))))
      as [front [E _]].
    exists front, []. split; [| intros x []].
    fold key. rewrite E, getitem_ttl.
    destruct Hw as [[_ [_ [_ [_ [_ Ht]]]]] _]. rewrite Ht. reflexivity. }
  assert (Hg2 : guarded key r (now w + seconds 300)%N recent (fetch_weather_cache w2)).
  { apply weather_guarded_run; try assumption.
    - intros s Hnd Hincl. unfold TTLCache.maxsize.
      apply Nat.le_lt_trans with (List.length (others key (looked_up evs)));
        [| exact Hcount].
      apply others_bound; [exact Hnd |]. intros x Hx. apply Hrecent, Hincl, Hx.
    - intros k Hk. destruct (coord_eqb k key) eqn:Ek.
      + left. apply (key_eqb_eq (K := Q * Q)). exact Ek.
      + right. apply Hrecent. split; [exact Hk |].
        intros ->. change (key_eqb key key = false) in Ek.
        rewrite key_eqb_refl in Ek. discriminate.
    - rewrite Hnow1. lia. }
  apply fetch_weather_hit. rewrite (weather_key_eq lat lon lat' lon' Elat Elon).
  apply (guarded_visible _ key r (now w + seconds 300)%N recent).
  - assert (Hinv2 : inv w2) by (apply inv_run; assumption).
    destruct Hinv2 as [[_ [_ [[Hnd _] _]]] _]. exact Hnd.
  - exact Hg2.
  - unfold w2. rewrite now_run, Hnow1. lia.
Qed.

(** * Further properties *)

(** ** The weather endpoint *)

(** [fetch_weather] builds a snapshot exactly when the answer is complete;
    otherwise it raises [KeyError] or [IndexError]. *)
Lemma snapshot_complete data :
  if complete data
  then exists s, snapshot data = Return s
  else exists e, snapshot data = Raise e /\ e <> RequestException.
Proof.
  unfold complete, snapshot.
  destruct (wd_weather data) as [[| w0 ws] |]; simpl;
    try (exists KeyError; split; [reflexivity | discriminate]);
    try (exists IndexError; split; [reflexivity | discriminate]).
  destruct (we_description w0); simpl;
    [| destruct (wd_main data); [destruct (wd_wind data) |];
       exists KeyError; split; try reflexivity; discriminate].
  destruct (wd_main data) as [main |]; simpl;
    [| exists KeyError; split; [reflexivity | discriminate]].
  destruct (wm_temp main); simpl;
    [| destruct (wd_wind data); [destruct (we_icon w0) |];
       exists KeyError; split; try reflexivity; discriminate].
  destruct (wm_feels_like main); simpl;
    [| destruct (wd_wind data); [destruct (we_icon w0) |];
       exists KeyError; split; try reflexivity; discriminate].
  destruct (wm_humidity main); simpl;
    [| destruct (wd_wind data); [destruct (we_icon w0) |];
       exists KeyError; split; try reflexivity; discriminate].
  destruct (wd_wind data) as [wind |]; simpl;
    [| exists KeyError; split; [reflexivity | discriminate]].
  destruct (ww_speed wind); simpl;
    [| destruct (we_icon w0); exists KeyError; split; try reflexivity; discriminate].
  destruct (we_icon w0); simpl;
    [eexists; reflexivity | exists KeyError; split; [reflexivity | discriminate]].
Qed.

Lemma weather_none_fetch_weather lat lon answer w :
  no_api_key = true -> weather_none w ->
  weather_none (snd (fetch_weather lat lon answer w)).
Proof.
  intros Hk Hn. rewrite fetch_weather_eq. cbn zeta. rewrite Hk.
  destruct (TTLCache.visible (now w) (weather_key lat lon) (fetch_weather_cache w));
    unfold weather_none; simpl; intros l Hin.
  - apply getitem_in in Hin. apply Hn. exact Hin.
  - apply setitem_in in Hin. destruct Hin as [-> | [Hin _]]; [reflexivity |].
    apply getitem_in in Hin. apply Hn. exact Hin.
Qed.

Lemma weather_none_reachable w :
  no_api_key = true -> reachable w -> weather_none w.
Proof.
  intros Hk [t0 [evs [_ ->]]].
  assert (Hrun : forall w0, weather_none w0 -> weather_none (run w0 evs)).
  { induction evs as [| ev evs IH]; intros w0 Hw0; simpl; [exact Hw0 |].
    apply IH. unfold weather_none. rewrite weather_step.
    destruct ev; try exact Hw0.
    apply weather_none_fetch_weather; assumption. }
  apply Hrun. intros l [].
Qed.

(** X1: without an API key, [/weather] answers every request, in every
    state the server can reach, with status 503 and the same error payload;
    it sends no request and logs nothing. *)
Theorem weather_unavailable_without_key w args answer :
  no_api_key = true -> reachable w ->
  fst (get_weather args answer w)
  = {| status := 503;
       body := JsonError "No se pudo obtener la información del clima" |}
  /\ outbound (snd (get_weather args answer w)) = outbound w
  /\ log (snd (get_weather args answer w)) = log w.
Proof.
  intros Hk Hw. pose proof (weather_none_reachable w Hk Hw) as Hnone.
  unfold get_weather. rewrite fetch_weather_eq. cbn zeta. rewrite Hk.
  destruct (TTLCache.visible (now w) _ (fetch_weather_cache w)) as [r |] eqn:Ev.
  - destruct (visible_in _ _ _ _ Ev) as [l [Hin [_ [Hv _]]]].
    rewrite (Hnone l Hin) in Hv. subst r. simpl. auto.
  - simpl. auto.
Qed.

(** X2: with an API key, a [/weather] request that is not answered from the
    cache and whose provider request fails is answered with status 503; one
    request was sent and the failure logged.  The failure is memoised: the
    same request repeated at once gets the same 503 whatever the provider
    would answer, and sends nothing. *)
Theorem weather_provider_failure_is_503 w args :
  reachable w -> no_api_key = false ->
  TTLCache.visible (now w)
    (weather_key (fst (weather_args args)) (snd (weather_args args)))
    (fetch_weather_cache w) = None ->
  let unavailable :=
    {| status := 503;
       body := JsonError "No se pudo obtener la información del clima" |} in
  let w1 := snd (get_weather args RequestFailed w) in
  fst (get_weather args RequestFailed w) = unavailable
  /\ outbound w1
     = outbound w ++ [GetWeather (fst (weather_args args)) (snd (weather_args args))]
  /\ log w1 = log w ++ [ErrorWeather]
  /\ forall answer,
       fst (get_weather args answer w1) = unavailable
       /\ outbound (snd (get_weather args answer w1)) = outbound w1.
Proof.
  intros Hw Hk Hmiss unavailable w1. apply inv_reachable in Hw.
  destruct Hw as [[_ [_ [_ [_ [_ Ht]]]]] _].
  assert (E1 : get_weather args RequestFailed w
               = (unavailable,
                  set_fetch_weather_cache
                    (TTLCache.setitem (now w)
                       (weather_key (fst (weather_args args)) (snd (weather_args args)))
                       None
                       (snd (TTLCache.getitem (now w)
                               (weather_key (fst (weather_args args))
                                  (snd (weather_args args)))
                               (fetch_weather_cache w))))
                    (emit [ErrorWeather]
                       (send (GetWeather (fst (weather_args args))
                                (snd (weather_args args))) w)))).
  { unfold get_weather. rewrite fetch_weather_eq. cbn zeta.
    unfold weather_args in Hmiss. simpl fst in Hmiss. simpl snd in Hmiss.
    rewrite Hmiss, Hk. reflexivity. }
  unfold w1. rewrite E1. simpl fst. simpl snd.
  split; [reflexivity |]. split; [reflexivity |]. split; [reflexivity |].
  intros answer. unfold get_weather. rewrite fetch_weather_eq. cbn zeta.
  cbn [now fetch_weather_cache set_fetch_weather_cache emit send].
  unfold weather_args. simpl fst. simpl snd.
  rewrite visible_setitem_same, getitem_ttl, Ht.
  replace (now w <? now w + seconds 300)%N with true
    by (symmetry; apply N.ltb_lt; unfold seconds; lia).
  simpl. auto.
Qed.

(** X3: with an API key, a [/weather] request that is not answered from the
    cache and whose answer lacks one of the fields read is answered with
    status 500 and the generic payload; one request was sent.  Nothing is
    memoised: the same request repeated at once contacts the provider
    again. *)
Theorem weather_incomplete_answer_is_500 w args data :
  no_api_key = false ->
  TTLCache.visible (now w)
    (weather_key (fst (weather_args args)) (snd (weather_args args)))
    (fetch_weather_cache w) = None ->
  complete data = false ->
  let asked := GetWeather (fst (weather_args args)) (snd (weather_args args)) in
  let w1 := snd (get_weather args (Response data) w) in
  fst (get_weather args (Response data) w)
  = {| status := 500; body := JsonError "Error interno del servidor" |}
  /\ outbound w1 = outbound w ++ [asked]
  /\ log w1 = log w ++ [ErrorUnexpected]
  /\ forall answer,
       outbound (snd (get_weather args answer w1)) = outbound w1 ++ [asked].
Proof.
  intros Hk Hmiss Hc asked w1.
  pose proof (snapshot_complete data) as Hs. rewrite Hc in Hs.
  destruct Hs as [e [Hs He]].
  unfold weather_args in *. simpl fst in *. simpl snd in *.
  assert (E1 : get_weather args (Response data) w
               = ({| status := 500; body := JsonError "Error interno del servidor" |},
                  emit [ErrorUnexpected]
                    (set_fetch_weather_cache
                       (snd (TTLCache.getitem (now w)
                               (weather_key
                                  (args_get args "lat" DEFAULT_LAT float_of_string)
                                  (args_get args "lon" DEFAULT_LON float_of_string))
                               (fetch_weather_cache w)))
                       (send asked w)))).
  { unfold get_weather. rewrite fetch_weather_eq. cbn zeta.
    rewrite Hmiss, Hk, Hs. destruct e; try reflexivity. contradiction. }
  unfold w1. rewrite E1. simpl fst. simpl snd.
  split; [reflexivity |]. split; [reflexivity |]. split; [reflexivity |].
  intros answer. unfold get_weather. rewrite fetch_weather_eq. cbn zeta.
  cbn [now fetch_weather_cache set_fetch_weather_cache emit send].
  rewrite visible_getitem, Hmiss, Hk.
  destruct answer as [data' |]; [| reflexivity].
  destruct (snapshot data') as [s | e']; [reflexivity |].
  destruct e'; reflexivity.
Qed.

(** ** Outbound requests *)

Lemma fetch_pois_outbound category overpass random w :
  exists new,
    outbound (snd (fetch_pois category overpass random w)) = outbound w ++ new
    /\ List.length new <= 1
    /\ forall r, In r new ->
       exists query, dict_get category queries = Some query /\ r = GetOverpass query.
Proof.
  rewrite fetch_pois_eq. cbn zeta.
  destruct (TTLCache.visible (now w) category (fetch_pois_cache w)).
  { exists []. simpl. rewrite app_nil_r. repeat split; [lia | intros r []]. }
  rewrite fetch_pois_wrapped_eq.
  destruct (dict_get category queries) as [query |].
  2: { exists []. simpl. rewrite app_nil_r. repeat split; [lia | intros r []]. }
  simpl now. simpl POI_CACHE.
  destruct (TTLCache.visible (now w) (cache_key category) (POI_CACHE w)).
  { exists []. simpl. rewrite app_nil_r. repeat split; [lia | intros r []]. }
  destruct overpass as [data |]; exists [GetOverpass query]; simpl;
    (repeat split; [lia | intros r [<- | []]; exists query; auto]).
Qed.

Lemma fetch_weather_outbound lat lon answer w :
  exists new,
    outbound (snd (fetch_weather lat lon answer w)) = outbound w ++ new
    /\ List.length new <= 1
    /\ forall r, In r new -> r = GetWeather lat lon.
Proof.
  rewrite fetch_weather_eq. cbn zeta.
  destruct (TTLCache.visible (now w) (weather_key lat lon) (fetch_weather_cache w)).
  { exists []. simpl. rewrite app_nil_r. repeat split; [lia | intros r []]. }
  destruct no_api_key.
  { exists []. simpl. rewrite app_nil_r. repeat split; [lia | intros r []]. }
  destruct answer as [data |]; [destruct (snapshot data) |];
    exists [GetWeather lat lon]; simpl;
    (repeat split; [lia | intros r [<- | []]; reflexivity]).
Qed.

Lemma get_directions_outbound args answer w :
  exists new,
    outbound (snd (get_directions args answer w)) = outbound w ++ new
    /\ List.length new <= 1
    /\ forall r, In r new -> may_send (Directions args answer) r.
Proof.
  unfold get_directions, may_send.
  destruct (args_get args "start_lat" None optional_float) as [slat |];
    [| exists []; simpl; rewrite app_nil_r; repeat split; [lia | intros r []]].
  destruct (args_get args "start_lon" None optional_float) as [slon |];
    [| exists []; simpl; rewrite app_nil_r; repeat split; [lia | intros r []]].
  destruct (args_get args "end_lat" None optional_float) as [elat |];
    [| exists []; simpl; rewrite app_nil_r; repeat split; [lia | intros r []]].
  destruct (args_get args "end_lon" None optional_float) as [elon |];
    [| exists []; simpl; rewrite app_nil_r; repeat split; [lia | intros r []]].
  exists [GetRoute slon slat elon elat].
  assert (Hsend : forall r, In r [GetRoute slon slat elon elat] ->
            exists a b c d,
              Some slat = Some a /\ Some slon = Some b /\ Some elat = Some c
              /\ Some elon = Some d /\ r = GetRoute b a d c).
  { intros r [<- | []]. exists slat, slon, elat, elon. auto. }
  destruct answer as [data |]; [| simpl; repeat split; [lia | exact Hsend]].
  match goal with
  | |- context [bind ?m _] => destruct m as [r0 | e]
  end; [simpl; repeat split; [lia | exact Hsend] |].
  destruct e; simpl; (repeat split; [lia | exact Hsend]).
Qed.

(** X6: serving one request sends at most one request out, of the kind of
    the endpoint: [/pois] only the query of its category (the coordinates
    of the user never leave the server), [/weather] only the coordinates it
    was given, [/directions] only the four coordinates, longitude first.
    Requests sent are never taken back, so a run of [n] events sends at most
    [n] requests. *)
Theorem one_request_per_event :
  (forall w ev,
     exists new,
       outbound (step w ev) = outbound w ++ new
       /\ List.length new <= 1
       /\ forall r, In r new -> may_send ev r)
  /\ (forall evs w,
        List.length (outbound (run w evs))
        <= List.length (outbound w) + List.length evs).
Proof.
  assert (Hstep : forall w ev,
             exists new,
               outbound (step w ev) = outbound w ++ new
               /\ List.length new <= 1
               /\ forall r, In r new -> may_send ev r).
  { intros w ev.
    destruct ev as [d | category args overpass random | args answer | args answer];
      simpl step.
    - exists []. simpl. rewrite app_nil_r. repeat split; [lia | intros r []].
    - destruct (get_pois_world category args overpass random w) as [errors ->].
      simpl outbound. apply fetch_pois_outbound.
    - destruct (get_weather_world args answer w) as [errors ->].
      simpl outbound. apply fetch_weather_outbound.
    - apply get_directions_outbound. }
  split; [exact Hstep |].
  induction evs as [| ev evs IH]; intros w; simpl; [lia |].
  specialize (IH (step w ev)). destruct (Hstep w ev) as [new [E [Hlen _]]].
  rewrite E, length_app in IH. lia.
Qed.

(** ** Directions *)

(** X7: when the four coordinates are given, [/directions] sends exactly
    one request whatever the state of the server: nothing is cached, and
    the caches and the clock are left alone.  A provider failure is answered
    with 503, an answer whose code is not [Ok] with 404, an answer without
    a code with 500. *)
Theorem directions_always_asks args answer w slat slon elat elon :
  args_get args "start_lat" None optional_float = Some slat ->
  args_get args "start_lon" None optional_float = Some slon ->
  args_get args "end_lat" None optional_float = Some elat ->
  args_get args "end_lon" None optional_float = Some elon ->
  let resp := fst (get_directions args answer w) in
  let w1 := snd (get_directions args answer w) in
  outbound w1 = outbound w ++ [GetRoute slon slat elon elat]
  /\ (fetch_pois_cache w1 = fetch_pois_cache w /\ POI_CACHE w1 = POI_CACHE w
      /\ fetch_weather_cache w1 = fetch_weather_cache w /\ now w1 = now w)
  /\ (answer = RequestFailed ->
      resp = {| status := 503; body := JsonError "Error al obtener la ruta" |}
      /\ log w1 = log w ++ [ErrorDirections])
  /\ (forall data code,
        answer = Response data -> od_code data = Some code -> code <> "Ok"%string ->
        resp = {| status := 404; body := JsonError "No se pudo encontrar una ruta" |})
  /\ (forall data,
        answer = Response data -> od_code data = None ->
        resp = {| status := 500; body := JsonError "Error interno del servidor" |}).
Proof.
  intros E1 E2 E3 E4 resp w1.
  split; [| split].
  - unfold w1, get_directions. rewrite E1, E2, E3, E4.
    destruct answer as [data |]; [| reflexivity].
    match goal with
    | |- context [bind ?m _] => destruct m as [r0 | e]
    end; [reflexivity |].
    destruct e; reflexivity.
  - unfold w1, get_directions. rewrite E1, E2, E3, E4.
    destruct answer as [data |]; [| repeat split].
    match goal with
    | |- context [bind ?m _] => destruct m as [r0 | e]
    end; [repeat split |].
    destruct e; repeat split.
  - unfold resp, w1, get_directions. rewrite E1, E2, E3, E4.
    split; [| split].
    + intros ->. simpl. auto.
    + intros data code -> Hcode Hne. simpl. rewrite Hcode. simpl.
      apply String.eqb_neq in Hne. rewrite Hne. reflexivity.
    + intros data -> Hcode. simpl. rewrite Hcode. reflexivity.
Qed.

(** ** Routes *)

Lemma append_routes_computable user_location pois :
  map r_poi (fst (append_routes user_location pois))
  = filter (computable user_location) pois
  /\ snd (append_routes user_location pois)
     = map (fun p => ErrorRoute (poi_name p))
         (filter (fun p => negb (computable user_location p)) pois).
Proof.
  induction pois as [| p rest [IH1 IH2]]; simpl; [auto |].
  destruct (append_routes user_location rest) as [routes errors].
  simpl in IH1, IH2.
  destruct (geodesic_km user_location (poi_location p)) as [d |] eqn:E.
  - assert (Hc : computable user_location p = true)
      by (unfold computable; rewrite E; reflexivity).
    rewrite Hc. simpl. rewrite IH1, IH2. auto.
  - assert (Hc : computable user_location p = false)
      by (unfold computable; rewrite E; reflexivity).
    rewrite Hc. simpl. rewrite IH1, IH2. auto.
Qed.

(** X9: [calculate_routes] loses no record and invents none: the records of
    its routes are, up to the order, the records of the input for which the
    distance could be computed; every other record is reported in the log
    under its name, in the order of the input, and nothing else is logged;
    no request is sent. *)
Theorem calculate_routes_keeps_computable user_location pois w :
  let routes := fst (calculate_routes user_location pois w) in
  let w1 := snd (calculate_routes user_location pois w) in
  Permutation (map r_poi routes) (filter (computable user_location) pois)
  /\ log w1
     = log w ++ map (fun p => ErrorRoute (poi_name p))
                  (filter (fun p => negb (computable user_location p)) pois)
  /\ outbound w1 = outbound w
  /\ List.length routes
     + List.length (filter (fun p => negb (computable user_location p)) pois)
     = List.length pois.
Proof.
  intros routes w1. subst routes w1. unfold calculate_routes.
  destruct (append_routes_computable user_location pois) as [H1 H2].
  destruct (append_routes user_location pois) as [routes errors].
  simpl in *. subst errors.
  assert (Hperm : Permutation (map r_poi (sort_by r_distance routes))
                    (filter (computable user_location) pois)).
  { rewrite <- H1. apply Permutation_map. apply sort_by_perm. }
  split; [exact Hperm |]. split; [reflexivity |]. split; [reflexivity |].
  apply Permutation_length in Hperm. rewrite length_map in Hperm. rewrite Hperm.
  pose proof (filter_length (computable user_location) pois). lia.
Qed.

(** *** Rounding *)

Lemma round_half_even_error (y : Q) :
  (- (1 # 2) <= inject_Z (round_half_even y) - y)%Q
  /\ (inject_Z (round_half_even y) - y <= 1 # 2)%Q.
Proof.
  unfold round_half_even.
  pose proof (Qfloor_le y) as Hlo. pose proof (Qlt_floor y) as Hhi.
  rewrite inject_Z_plus in Hhi. change (inject_Z 1) with 1%Q in Hhi.
  destruct (Qcompare (y - inject_Z (Qfloor y)) (1 # 2)) eqn:E.
  - apply Qeq_alt in E. destruct (Z.even (Qfloor y)).
    + split; lra.
    + rewrite inject_Z_plus. change (inject_Z 1) with 1%Q. split; lra.
  - apply Qlt_alt in E. split; lra.
  - apply Qgt_alt in E. rewrite inject_Z_plus. change (inject_Z 1) with 1%Q.
    split; lra.
Qed.

Lemma pow10_pos (n : nat) : (0 < inject_Z (10 ^ Z.of_nat n))%Q.
Proof.
  change 0%Q with (inject_Z 0). rewrite <- Zlt_Qlt.
  apply Z.pow_pos_nonneg; lia.
Qed.

(** [round(x, n)] is within half a unit of the last place of [x]. *)
Lemma py_round_error (x : Q) (n : nat) :
  (Qabs (py_round x n - x) * inject_Z (10 ^ Z.of_nat n) <= 1 # 2)%Q.
Proof.
  unfold py_round. pose proof (pow10_pos n) as Hp.
  set (p := inject_Z (10 ^ Z.of_nat n)) in *.
  destruct (round_half_even_error (x * p)%Q) as [Hlo Hhi].
  set (r := inject_Z (round_half_even (x * p))) in *.
  assert (E : ((r / p - x) * p == r - x * p)%Q) by (field; lra).
  rewrite <- (Qabs_pos p) at 2 by lra.
  rewrite <- Qabs_Qmult, E. apply Qabs_Qle_condition. split; lra.
Qed.

(** [round(x, n)] of a number that is not negative is not negative. *)
Lemma py_round_nonneg (x : Q) (n : nat) : (0 <= x)%Q -> (0 <= py_round x n)%Q.
Proof.
  intros Hx. unfold py_round. pose proof (pow10_pos n) as Hp.
  set (p := inject_Z (10 ^ Z.of_nat n)) in *.
  assert (Hy : (inject_Z 0 <= x * p)%Q).
  { change (inject_Z 0) with 0%Q. apply Qmult_le_0_compat; lra. }
  destruct (round_half_even_between (x * p)%Q 0 (Qceiling (x * p)) Hy
              (Qle_ceiling (x * p)%Q)) as [Hr _].
  rewrite Zle_Qle in Hr. change (inject_Z 0) with 0%Q in Hr.
  apply Qle_shift_div_l; [exact Hp | lra].
Qed.

Lemma append_routes_distance user_location pois rt :
  In rt (fst (append_routes user_location pois)) ->
  exists d,
    geodesic_km user_location (poi_location (r_poi rt)) = Some d
    /\ r_distance rt = py_round d 2.
Proof.
  induction pois as [| p rest IH]; simpl; [tauto |].
  destruct (append_routes user_location rest) as [routes errors].
  destruct (geodesic_km user_location (poi_location p)) as [d |] eqn:E;
    simpl in *.
  - intros [<- | Hin]; [exists d; simpl; auto | apply IH; exact Hin].
  - exact IH.
Qed.

(** X10: the distance of every route is the geodesic distance of its
    record rounded to two decimals: it differs from it by at most 0.005 km,
    and it is not negative when the geodesic distance is not. *)
Theorem route_distance_is_rounded_geodesic user_location pois w rt :
  In rt (fst (calculate_routes user_location pois w)) ->
  exists d,
    geodesic_km user_location (poi_location (r_poi rt)) = Some d
    /\ (Qabs (r_distance rt - d) <= 1 # 200)%Q
    /\ ((0 <= d)%Q -> (0 <= r_distance rt)%Q).
Proof.
  unfold calculate_routes.
  destruct (append_routes user_location pois) as [routes errors] eqn:E.
  simpl. intros Hin. apply sort_by_in in Hin.
  assert (Hin' : In rt (fst (append_routes user_location pois)))
    by (rewrite E; exact Hin).
  destruct (append_routes_distance _ _ _ Hin') as [d [Hd Hr]].
  exists d. split; [exact Hd |]. rewrite Hr. split.
  - pose proof (py_round_error d 2) as Herr.
    change (inject_Z (10 ^ Z.of_nat 2)) with 100%Q in Herr.
    apply Qmult_le_r with (z := 100%Q); [reflexivity |].
    eapply Qle_trans; [exact Herr | discriminate].
  - apply py_round_nonneg.
Qed.

(** ** Thresholds of [/pois] *)

(** Every list [fetch_pois] returns in a reachable state is rated. *)
Lemma fetch_pois_rated w category overpass random pois :
  reachable w -> (forall n, unit_sample (random n)) ->
  fst (fetch_pois category overpass random w) = Return pois ->
  Forall rated pois.
Proof.
  intros Hw Hr Hp.
  destruct (fetch_pois_result_cached _ _ _ _ _ Hp) as [l [Hin [_ <-]]].
  assert (Hinv : inv (snd (fetch_pois category overpass random w)))
    by (apply inv_fetch_pois; [exact Hr | apply inv_reachable; exact Hw]).
  destruct Hinv as [_ [_ [_ [_ Hg]]]].
  eapply Forall_impl; [| apply Hg; left; exact Hin]. simpl. tauto.
Qed.

(** X11: whenever [fetch_pois] returns a list in a reachable state, a
    rating threshold above 5 empties the answer of [/pois] (status 200 and
    an empty array, not an error), and a threshold of 3.5 or less, such as
    the default 0, filters nothing: the routes are those of the whole
    list. *)
Theorem pois_rating_thresholds w category args overpass random pois :
  reachable w -> (forall n, unit_sample (random n)) ->
  fst (fetch_pois category overpass random w) = Return pois ->
  let rating := args_get args "rating" 0%Q float_of_string in
  let user_location := (args_get args "lat" DEFAULT_LAT float_of_string,
                        args_get args "lon" DEFAULT_LON float_of_string) in
  ((5 < rating)%Q ->
   fst (get_pois category args overpass random w)
   = {| status := 200; body := JsonRoutes [] |})
  /\ ((rating <= 35 # 10)%Q ->
      fst (get_pois category args overpass random w)
      = {| status := 200;
           body := JsonRoutes
                     (fst (calculate_routes user_location pois
                             (snd (fetch_pois category overpass random w)))) |}).
Proof.
  intros Hw Hr Hp rating user_location.
  pose proof (fetch_pois_rated w category overpass random pois Hw Hr Hp) as Hrated.
  assert (Hget : fst (get_pois category args overpass random w)
                 = {| status := 200;
                      body := JsonRoutes
                                (fst (calculate_routes user_location
                                        (filtered_pois rating pois)
                                        (snd (fetch_pois category overpass random w)))) |}).
  { unfold get_pois. fold rating. fold user_location.
    destruct (fetch_pois category overpass random w) as [res w1].
    simpl in Hp. subst res. simpl snd.
    destruct (calculate_routes user_location (filtered_pois rating pois) w1).
    reflexivity. }
  split.
  - intros Hhigh. rewrite Hget.
    assert (Hnone : filtered_pois rating pois = []).
    { unfold filtered_pois. clear Hget Hp.
      induction Hrated as [| p ps [_ Hmax] _ IH]; simpl; [reflexivity |].
      destruct (Qle_bool rating (poi_rating p)) eqn:E; [| exact IH].
      apply Qle_bool_iff in E. lra. }
    rewrite Hnone. reflexivity.
  - intros Hlow. rewrite Hget.
    assert (Hall : filtered_pois rating pois = pois).
    { unfold filtered_pois. clear Hget Hp.
      induction Hrated as [| p ps [Hmin _] _ IH]; simpl; [reflexivity |].
      assert (E : Qle_bool rating (poi_rating p) = true)
        by (apply Qle_bool_iff; lra).
      rewrite E, IH. reflexivity. }
    rewrite Hall. reflexivity.
Qed.

(** ** The route of [/directions] *)

(** X8: a 200 of [/directions] always carries the first route of the
    provider: the four coordinates were given, the provider answered with
    the code [Ok], and the payload is the geometry of its first route with
    its distance in kilometres, rounded to two decimals (within 0.005 km of
    the metres of the provider divided by 1000, and not negative when they
    are not), and its duration in whole minutes (within half a minute of
    the seconds of the provider divided by 60); one request was sent. *)
Theorem directions_ok_carries_first_route args answer w :
  status (fst (get_directions args answer w)) = 200 ->
  exists data route others geometry coordinates distance duration km minutes,
    answer = Response data
    /\ od_code data = Some "Ok"%string
    /\ od_routes data = Some (route :: others)
    /\ or_geometry route = Some geometry
    /\ g_coordinates geometry = Some coordinates
    /\ or_distance route = Some distance
    /\ or_duration route = Some duration
    /\ body (fst (get_directions args answer w))
       = JsonDirections coordinates km minutes
    /\ (Qabs (km - distance / 1000) <= 1 # 200)%Q
    /\ ((0 <= distance)%Q -> (0 <= km)%Q)
    /\ (Qabs (inject_Z minutes - duration / 60) <= 1 # 2)%Q
    /\ List.length (outbound (snd (get_directions args answer w)))
       = S (List.length (outbound w)).
Proof.
  unfold get_directions. intros H.
  destruct (args_get args "start_lat" None optional_float) as [slat |];
    [| simpl in H; discriminate H].
  destruct (args_get args "start_lon" None optional_float) as [slon |];
    [| simpl in H; discriminate H].
  destruct (args_get args "end_lat" None optional_float) as [elat |];
    [| simpl in H; discriminate H].
  destruct (args_get args "end_lon" None optional_float) as [elon |];
    [| simpl in H; discriminate H].
  destruct answer as [data |]; [| simpl in H; discriminate H].
  destruct (od_code data) as [code |] eqn:Ecode; [| simpl in H; discriminate H].
  cbn [item bind] in H |- *.
  destruct (String.eqb code "Ok") eqn:Eok; [| simpl in H; discriminate H].
  apply String.eqb_eq in Eok. subst code.
  destruct (od_routes data) as [[| route others] |] eqn:Er;
    try (simpl in H; discriminate H).
  cbn [item bind first] in H |- *.
  destruct (or_geometry route) as [geometry |] eqn:Eg;
    [| simpl in H; discriminate H].
  cbn [item bind] in H |- *.
  destruct (g_coordinates geometry) as [coordinates |] eqn:Ec;
    [| simpl in H; discriminate H].
  cbn [item bind] in H |- *.
  destruct (or_distance route) as [distance |] eqn:Ed;
    [| simpl in H; discriminate H].
  cbn [item bind] in H |- *.
  destruct (or_duration route) as [duration |] eqn:Et;
    [| simpl in H; discriminate H].
  cbn [item bind error_handler fst snd body outbound send] in H |- *.
  clear H.
  exists data, route, others, geometry, coordinates, distance, duration,
    (py_round (distance / 1000) 2), (round_half_even (duration / 60)).
  split; [reflexivity |]. split; [exact Ecode |]. split; [exact Er |].
  split; [exact Eg |]. split; [exact Ec |]. split; [exact Ed |].
  split; [exact Et |]. split; [reflexivity |].
  split.
  { pose proof (py_round_error (distance / 1000) 2) as Herr.
    change (inject_Z (10 ^ Z.of_nat 2)) with 100%Q in Herr.
    apply Qmult_le_r with (z := 100%Q); [reflexivity |].
    eapply Qle_trans; [exact Herr | discriminate]. }
  split.
  { intros Hd. apply py_round_nonneg.
    apply Qle_shift_div_l; [reflexivity | rewrite Qmult_0_l; exact Hd]. }
  split.
  { apply (proj2 (Qabs_Qle_condition _ _)).
    exact (round_half_even_error (duration / 60)). }
  rewrite length_app. simpl. lia.
Qed.

(** ** What every cached list satisfies *)

Lemma process_elements_fresh (P : string -> poi -> Prop) all category random :
  fresh_records P -> (forall n, unit_sample (random n)) ->
  forall todo drawn latlon,
    Forall (P category)
      (fst (process_elements all category random drawn latlon todo)).
Proof.
  intros HP Hr. induction todo as [| element rest IH]; intros drawn latlon; simpl.
  - constructor.
  - destruct (process_element all category (random drawn) latlon element)
      as [t latlon'] eqn:E.
    destruct t as [| | p].
    + apply IH.
    + specialize (IH drawn latlon').
      destruct (process_elements all category random drawn latlon' rest).
      exact IH.
    + specialize (IH (S drawn) latlon').
      destruct (process_elements all category random (S drawn) latlon' rest).
      simpl in *. constructor; [| exact IH].
      eapply HP; [apply Hr | exact E].
Qed.

Lemma cached_records_fetch_pois (P : string -> poi -> Prop)
    category overpass random w :
  fresh_records P -> (forall n, unit_sample (random n)) ->
  cached_records P w ->
  cached_records P (snd (fetch_pois category overpass random w)).
Proof.
  intros HP Hr [Hm Hp]. rewrite fetch_pois_eq. cbn zeta.
  assert (Hm1 : forall l,
             In l (TTLCache.links
                     (snd (TTLCache.getitem (now w) category (fetch_pois_cache w)))) ->
             Forall (P (TTLCache.key l)) (TTLCache.value l)).
  { intros l Hin. apply getitem_in in Hin. apply Hm. exact Hin. }
  assert (Hstore : forall v,
             Forall (P category) v ->
             forall l,
               In l (TTLCache.links
                       (TTLCache.setitem (now w) category v
                          (snd (TTLCache.getitem (now w) category
                                  (fetch_pois_cache w))))) ->
               Forall (P (TTLCache.key l)) (TTLCache.value l)).
  { intros v Hv l Hin. apply setitem_in in Hin.
    destruct Hin as [-> | [Hin _]]; [exact Hv | apply Hm1; exact Hin]. }
  destruct (TTLCache.visible (now w) category (fetch_pois_cache w));
    [split; [exact Hm1 | exact Hp] |].
  rewrite fetch_pois_wrapped_eq.
  destruct (dict_get category queries) as [query |].
  2: { split; [apply Hstore; constructor | exact Hp]. }
  simpl now. simpl POI_CACHE.
  destruct (TTLCache.visible (now w) (cache_key category) (POI_CACHE w))
    as [v |] eqn:Ev.
  - destruct (visible_in _ _ _ _ Ev) as [l0 [Hin0 [Hk0 [Hv0 _]]]].
    split.
    + apply Hstore. rewrite <- Hv0. apply Hp; assumption.
    + simpl. intros l c Hin. apply getitem_in in Hin. apply Hp. exact Hin.
  - destruct overpass as [data |].
    + cbn zeta.
      set (all := match d_elements data with Some es => es | None => [] end).
      pose proof (process_elements_fresh P all category random HP Hr all 0 None)
        as Hfresh.
      split.
      * apply Hstore. exact Hfresh.
      * simpl. intros l c Hin Hk. apply setitem_in in Hin.
        destruct Hin as [-> | [Hin _]].
        -- simpl in *. apply cache_key_inj in Hk. subst c. exact Hfresh.
        -- apply Hp; assumption.
    + split; [apply Hstore; constructor | exact Hp].
Qed.

Lemma cached_records_reachable (P : string -> poi -> Prop) w :
  fresh_records P -> reachable w -> cached_records P w.
Proof.
  intros HP [t0 [evs [Hgen ->]]].
  assert (Hrun : forall w0, cached_records P w0 -> cached_records P (run w0 evs)).
  { induction Hgen as [| ev evs Hev Hevs IH]; intros w0 Hw0; simpl; [exact Hw0 |].
    apply IH. unfold cached_records. rewrite memo_step, poi_step.
    destruct ev; try exact Hw0.
    apply cached_records_fetch_pois; assumption. }
  apply Hrun. split; simpl; [intros l [] | intros l c []].
Qed.

(** A property the loop gives every record holds of every list returned. *)
Lemma fetch_pois_records (P : string -> poi -> Prop)
    w category overpass random pois :
  fresh_records P -> reachable w -> (forall n, unit_sample (random n)) ->
  fst (fetch_pois category overpass random w) = Return pois ->
  Forall (P category) pois.
Proof.
  intros HP Hw Hr Hret.
  pose proof (cached_records_fetch_pois P category overpass random w HP Hr
                (cached_records_reachable P w HP Hw)) as [Hm _].
  destruct (fetch_pois_result_cached _ _ _ _ _ Hret) as [l [Hin [Hk Hv]]].
  specialize (Hm l Hin). rewrite Hk, Hv in Hm. exact Hm.
Qed.

Lemma locate_inl_append all element latlon p :
  locate all element latlon <> inl (Append p).
Proof.
  intros E. apply locate_exit in E. destruct E; discriminate.
Qed.

Lemma process_element_append all category u latlon element p latlon' :
  process_element all category u latlon element = (Append p, latlon') ->
  has_name (element_name element) = true
  /\ poi_name p = element_name element
  /\ poi_type p = category
  /\ poi_rating p = py_round (uniform (35 # 10) 5 u) 1
  /\ latlon' = Some (poi_location p).
Proof.
  unfold process_element, has_name, element_name.
  destruct (locate all element latlon) as [t | ll] eqn:El.
  - intros E. inversion E; subst. exfalso.
    exact (locate_inl_append _ _ _ _ El).
  - destruct (String.eqb _ Sin_nombre) eqn:En; [discriminate |].
    destruct ll as [[lat lon] |]; [| discriminate].
    intros E. inversion E; subst; clear E. simpl. auto.
Qed.

(** X12: in every reachable state, every record of the list [fetch_pois]
    returns for a category carries that category as its type, also when the
    list comes from one of the two caches. *)
Theorem fetch_pois_type_is_category w category overpass random pois :
  reachable w -> (forall n, unit_sample (random n)) ->
  fst (fetch_pois category overpass random w) = Return pois ->
  Forall (fun p => poi_type p = category) pois.
Proof.
  apply (fetch_pois_records (fun c p => poi_type p = c)).
  intros all c u latlon element p latlon' _ E.
  apply process_element_append in E. tauto.
Qed.

(** X13: in every reachable state, the rating of every record [fetch_pois]
    returns has one decimal: it is one of the sixteen values 3.5, 3.6, ...,
    5.0. *)
Theorem fetch_pois_rating_has_one_decimal w category overpass random pois :
  reachable w -> (forall n, unit_sample (random n)) ->
  fst (fetch_pois category overpass random w) = Return pois ->
  Forall one_decimal_rating pois.
Proof.
  apply (fetch_pois_records (fun _ p => one_decimal_rating p)).
  intros all c u latlon element p latlon' [H0 H1] E.
  apply process_element_append in E. destruct E as [_ [_ [_ [Hr _]]]].
  unfold one_decimal_rating. rewrite Hr. unfold py_round, uniform.
  change (inject_Z (10 ^ Z.of_nat 1)) with (inject_Z (Zpos 10)).
  eexists. split; [| apply Qeq_sym; apply Qmake_Qdiv].
  apply round_half_even_between.
  - change (inject_Z 35) with 35%Q. change (inject_Z (Zpos 10)) with 10%Q. lra.
  - change (inject_Z 50) with 50%Q. change (inject_Z (Zpos 10)) with 10%Q. lra.
Qed.

(** X14: [POI_CACHE] is only ever written under the keys of the three
    categories: in every reachable state it holds at most three entries,
    one per key, whatever category strings were requested. *)
Theorem poi_cache_holds_three_keys w :
  reachable w ->
  TTLCache.currsize (POI_CACHE w) <= 3
  /\ NoDup (TTLCache.keys (POI_CACHE w))
  /\ incl (TTLCache.keys (POI_CACHE w)) poi_cache_keys.
Proof.
  intros Hw. apply inv_reachable in Hw. split; [apply poi_small; exact Hw |].
  destruct Hw as [[_ [[Hnd _] _]] [Hk _]]. split; [exact Hnd |].
  intros k Hin. apply in_map_iff in Hin. destruct Hin as [l [<- Hin]].
  destruct (Hk l Hin) as [c [Hv ->]].
  destruct (valid_category_cases c Hv) as [-> | [-> | ->]]; simpl; auto.
Qed.

(** X15: the loop of [fetch_pois] builds at most one record per element
    that has a name, and every element gives a record, an error in the log
    or nothing: records and errors together are no more than the
    elements. *)
Theorem records_bounded_by_named_elements all category random drawn latlon todo :
  let pois := fst (process_elements all category random drawn latlon todo) in
  let errors := snd (process_elements all category random drawn latlon todo) in
  List.length pois <= List.length (filter has_name (map element_name todo))
  /\ List.length pois + List.length errors <= List.length todo.
Proof.
  revert drawn latlon. induction todo as [| element rest IH]; intros drawn latlon;
    simpl; [lia |].
  destruct (process_element all category (random drawn) latlon element)
    as [t latlon'] eqn:E.
  pose proof (filter_length_le has_name (map element_name rest)) as Hle.
  destruct t as [| | p].
  - specialize (IH drawn latlon'). simpl in IH.
    destruct (has_name (element_name element)); simpl; lia.
  - specialize (IH drawn latlon').
    destruct (process_elements all category random drawn latlon' rest).
    simpl in *. destruct (has_name (element_name element)); simpl; lia.
  - apply process_element_append in E. destruct E as [Hn _].
    specialize (IH (S drawn) latlon').
    destruct (process_elements all category random (S drawn) latlon' rest).
    simpl in *. rewrite Hn. simpl. lia.
Qed.

(** ** How long a result is served *)

Lemma within_ttl_getitem {K V : Type} `{EqKey K} now now' k (c : TTLCache.t K V) :
  within_ttl now c -> within_ttl now (snd (TTLCache.getitem now' k c)).
Proof.
  intros Hc l Hin. rewrite getitem_ttl. apply Hc. apply getitem_in in Hin.
  exact Hin.
Qed.

Lemma within_ttl_setitem {K V : Type} `{EqKey K} now k v (c : TTLCache.t K V) :
  within_ttl now c -> within_ttl now (TTLCache.setitem now k v c).
Proof.
  intros Hc l Hin. rewrite setitem_ttl. apply setitem_in in Hin.
  destruct Hin as [-> | [Hin _]]; [simpl; lia | apply Hc; exact Hin].
Qed.

Lemma within_ttl_later {K V : Type} now d (c : TTLCache.t K V) :
  within_ttl now c -> within_ttl (now + d) c.
Proof. intros Hc l Hin. specialize (Hc l Hin). lia. Qed.

Lemma within_ttl_fetch_pois category overpass random w :
  within_ttl (now w) (fetch_pois_cache w) -> within_ttl (now w) (POI_CACHE w) ->
  within_ttl (now w) (fetch_pois_cache (snd (fetch_pois category overpass random w)))
  /\ within_ttl (now w) (POI_CACHE (snd (fetch_pois category overpass random w))).
Proof.
  intros Hm Hp. rewrite fetch_pois_eq. cbn zeta.
  pose proof (within_ttl_getitem (now w) (now w) category _ Hm) as Hm1.
  destruct (TTLCache.visible (now w) category (fetch_pois_cache w));
    [split; assumption |].
  rewrite fetch_pois_wrapped_eq.
  destruct (dict_get category queries) as [query |].
  2: { split; [apply within_ttl_setitem; exact Hm1 | exact Hp]. }
  simpl now. simpl POI_CACHE.
  destruct (TTLCache.visible (now w) (cache_key category) (POI_CACHE w)).
  - split; [apply within_ttl_setitem; exact Hm1 |].
    apply within_ttl_getitem. exact Hp.
  - destruct overpass as [data |].
    + cbn zeta. split; [apply within_ttl_setitem; exact Hm1 |].
      apply within_ttl_setitem. exact Hp.
    + split; [apply within_ttl_setitem; exact Hm1 | exact Hp].
Qed.

Lemma within_ttl_fetch_weather lat lon answer w :
  within_ttl (now w) (fetch_weather_cache w) ->
  within_ttl (now w) (fetch_weather_cache (snd (fetch_weather lat lon answer w))).
Proof.
  intros Hc. rewrite fetch_weather_eq. cbn zeta.
  pose proof (within_ttl_getitem (now w) (now w) (weather_key lat lon) _ Hc) as Hc1.
  destruct (TTLCache.visible (now w) (weather_key lat lon) (fetch_weather_cache w));
    [exact Hc1 |].
  destruct no_api_key; [apply within_ttl_setitem; exact Hc1 |].
  destruct answer as [data |]; [| apply within_ttl_setitem; exact Hc1].
  destruct (snapshot data); [apply within_ttl_setitem; exact Hc1 | exact Hc1].
Qed.

Lemma caches_within_ttl_step w ev :
  caches_within_ttl w -> caches_within_ttl (step w ev).
Proof.
  intros [Hm [Hp Hw]]. unfold caches_within_ttl.
  rewrite memo_step, poi_step, weather_step, now_step.
  destruct ev as [d | category args overpass random | args answer | args answer];
    rewrite ?N.add_0_r.
  - repeat split; apply within_ttl_later; assumption.
  - destruct (within_ttl_fetch_pois category overpass random w Hm Hp) as [H1 H2].
    repeat split; assumption.
  - repeat split; try assumption. apply within_ttl_fetch_weather. exact Hw.
  - repeat split; assumption.
Qed.

Lemma caches_within_ttl_reachable w : reachable w -> caches_within_ttl w.
Proof.
  intros [t0 [evs [_ ->]]].
  assert (Hrun : forall w0, caches_within_ttl w0 -> caches_within_ttl (run w0 evs)).
  { induction evs as [| ev evs IH]; intros w0 Hw0; simpl; [exact Hw0 |].
    apply IH. apply caches_within_ttl_step. exact Hw0. }
  apply Hrun. repeat split; intros l [].
Qed.

(** Once the TTL of a cache has passed, the cache shows nothing. *)
Lemma within_ttl_expired {K V : Type} `{EqKey K} now d k (c : TTLCache.t K V) :
  within_ttl now c -> (TTLCache.ttl c <= d)%N ->
  TTLCache.visible (now + d) k c = None.
Proof.
  intros Hc Hd. unfold TTLCache.visible.
  destruct (TTLCache.find_link k (TTLCache.links c)) as [l |] eqn:E;
    [| reflexivity].
  apply find_link_some in E. destruct E as [Hin _]. specialize (Hc l Hin).
  unfold TTLCache.live. replace (now + d <? TTLCache.expires l)%N with false;
    [reflexivity |].
  symmetry. apply N.ltb_ge. lia.
Qed.

(** X16: a weather result is never served for more than 300 seconds.  In
    every reachable state, once 300 seconds or more have passed without a
    request, a call of [fetch_weather] with any coordinates contacts the
    provider (an API key being configured). *)
Theorem weather_not_served_beyond_ttl w d lat lon answer :
  reachable w -> no_api_key = false -> (seconds 300 <= d)%N ->
  outbound (snd (fetch_weather lat lon answer (tick d w)))
  = outbound (tick d w) ++ [GetWeather lat lon].
Proof.
  intros Hw Hk Hd.
  pose proof (caches_within_ttl_reachable w Hw) as [_ [_ Hc]].
  apply inv_reachable in Hw. destruct Hw as [[_ [_ [_ [_ [_ Ht]]]]] _].
  rewrite fetch_weather_eq. cbn zeta. simpl now. simpl fetch_weather_cache.
  rewrite (within_ttl_expired (now w) d (weather_key lat lon) _ Hc)
    by (rewrite Ht; exact Hd).
  rewrite Hk. destruct answer as [data |]; [destruct (snapshot data) |];
    reflexivity.
Qed.

(** X17: after a day without requests the records are asked for again.
    In every reachable state, once 24 hours or more have passed without a
    request, a call of [fetch_pois] for a valid category is answered by
    neither cache: it sends the query of the category to the provider.
    (While requests keep coming, a list read from [POI_CACHE] shortly
    before its 24 hours end is memoised by the decorator for one more hour;
    nothing is stated of that case.) *)
Theorem pois_asked_again_after_idle_day w d category overpass random :
  reachable w -> valid_category category = true -> (seconds 86400 <= d)%N ->
  exists query,
    dict_get category queries = Some query
    /\ outbound (snd (fetch_pois category overpass random (tick d w)))
       = outbound (tick d w) ++ [GetOverpass query].
Proof.
  intros Hw Hvalid Hd.
  pose proof (caches_within_ttl_reachable w Hw) as [Hm [Hp _]].
  apply inv_reachable in Hw. destruct Hw as [[_ [_ [_ [Tm [Tp _]]]]] _].
  unfold valid_category in Hvalid.
  destruct (dict_get category queries) as [query |] eqn:Eq; [| discriminate].
  exists query. split; [reflexivity |].
  rewrite fetch_pois_eq. cbn zeta. simpl now. simpl fetch_pois_cache.
  rewrite (within_ttl_expired (now w) d category _ Hm)
    by (rewrite Tm; unfold seconds in *; lia).
  rewrite fetch_pois_wrapped_eq, Eq. simpl now. simpl POI_CACHE.
  rewrite (within_ttl_expired (now w) d (cache_key category) _ Hp)
    by (rewrite Tp; exact Hd).
  destruct overpass as [data |]; reflexivity.
Qed.

(** ** What a call leaves alone *)

(** X18: [fetch_pois] writes [POI_CACHE] only with a list the provider
    gave.  A call for an unknown category, and a call whose provider request
    fails, leave [POI_CACHE] showing, under every key and at every time,
    what it showed before. *)
Theorem fetch_pois_failure_leaves_poi_cache w category overpass random :
  valid_category category = false \/ overpass = RequestFailed ->
  forall now' k,
    TTLCache.visible now' k (POI_CACHE (snd (fetch_pois category overpass random w)))
    = TTLCache.visible now' k (POI_CACHE w).
Proof.
  intros Hcase now' k. rewrite fetch_pois_eq. cbn zeta.
  destruct (TTLCache.visible (now w) category (fetch_pois_cache w));
    [reflexivity |].
  rewrite fetch_pois_wrapped_eq. unfold valid_category in Hcase.
  destruct (dict_get category queries) as [query |]; [| reflexivity].
  simpl now. simpl POI_CACHE.
  destruct (TTLCache.visible (now w) (cache_key category) (POI_CACHE w)).
  - simpl. apply visible_getitem.
  - destruct Hcase as [Hcase | ->]; [discriminate | reflexivity].
Qed.

(** ** Malformed elements *)

Lemma way_nodes_typeless field way all :
  (exists e, In e all /\ e_type e = None) ->
  exists ex, way_nodes field way all = Raise ex.
Proof.
  induction all as [| node rest IH]; intros [e [Hin He]]; [contradiction |].
  simpl. destruct Hin as [-> | Hin].
  - rewrite He. simpl. eauto.
  - destruct (IH (ex_intro _ e (conj Hin He))) as [ex Hex]. rewrite Hex.
    destruct (e_type node) as [ty |]; simpl; [| eauto].
    destruct (String.eqb ty "node"); [| eauto].
    destruct (e_id node) as [id |]; simpl; [| eauto].
    destruct (e_nodes way) as [nodes |]; simpl; [| eauto].
    destruct (existsb (Z.eqb id) nodes); [| eauto].
    destruct (field node); simpl; eauto.
Qed.

(** X19: one element without a type spoils every way of the answer: the
    scan of the answer for the nodes of a way raises on it, so each way is
    skipped with an error in the log, whatever its own fields are. *)
Theorem typeless_element_fails_every_way all category u latlon way e :
  In e all -> e_type e = None -> e_type way = Some "way"%string ->
  process_element all category u latlon way = (Failed, latlon).
Proof.
  intros Hin He Hty. unfold process_element, locate. rewrite Hty. cbn match.
  destruct (way_nodes_typeless e_lat way all (ex_intro _ e (conj Hin He)))
    as [ex ->].
  reflexivity.
Qed.



(** ** The connection error of [error_handler] *)

Lemma no_request_exception_bind {A B : Type} (m : outcome A) (k : A -> outcome B) :
  no_request_exception m -> (forall a, no_request_exception (k a)) ->
  no_request_exception (bind m k).
Proof.
  unfold no_request_exception. intros Hm Hk. destruct m as [a | e]; simpl.
  - apply Hk.
  - intros E. apply Hm. inversion E. reflexivity.
Qed.

Lemma no_request_exception_item {A : Type} (field : option A) :
  no_request_exception (item field).
Proof. destruct field; discriminate. Qed.

Lemma no_request_exception_first {A : Type} (xs : list A) :
  no_request_exception (first xs).
Proof. destruct xs; discriminate. Qed.

Lemma no_request_exception_return {A : Type} (a : A) :
  no_request_exception (Return a).
Proof. discriminate. Qed.

Lemma process_elements_errors all category random todo :
  forall drawn latlon,
    Forall (fun r => connection_record r = false)
      (snd (process_elements all category random drawn latlon todo)).
Proof.
  induction todo as [| element rest IH]; intros drawn latlon; simpl;
    [constructor |].
  destruct (process_element all category (random drawn) latlon element)
    as [[| | p] latlon'].
  - apply IH.
  - specialize (IH drawn latlon').
    destruct (process_elements all category random drawn latlon' rest).
    simpl in *. constructor; [reflexivity | exact IH].
  - specialize (IH (S drawn) latlon').
    destruct (process_elements all category random (S drawn) latlon' rest).
    exact IH.
Qed.

Lemma fetch_pois_log category overpass random w :
  exists new,
    log (snd (fetch_pois category overpass random w)) = log w ++ new
    /\ Forall (fun r => connection_record r = false) new.
Proof.
  rewrite fetch_pois_eq. cbn zeta.
  destruct (TTLCache.visible (now w) category (fetch_pois_cache w)).
  { exists []. simpl. rewrite app_nil_r. split; [reflexivity | constructor]. }
  rewrite fetch_pois_wrapped_eq.
  destruct (dict_get category queries) as [query |].
  2: { eexists. simpl. split; [reflexivity |]. constructor; [reflexivity | constructor]. }
  simpl now. simpl POI_CACHE.
  destruct (TTLCache.visible (now w) (cache_key category) (POI_CACHE w)).
  { exists []. simpl. rewrite app_nil_r. split; [reflexivity | constructor]. }
  destruct overpass as [data |].
  - eexists. simpl. split; [reflexivity |]. apply process_elements_errors.
  - eexists. simpl. split; [reflexivity |]. constructor; [reflexivity | constructor].
Qed.

Lemma calculate_routes_log user_location pois w :
  exists new,
    log (snd (calculate_routes user_location pois w)) = log w ++ new
    /\ Forall (fun r => connection_record r = false) new.
Proof.
  unfold calculate_routes.
  pose proof (proj2 (append_routes_computable user_location pois)) as E.
  destruct (append_routes user_location pois) as [routes errors].
  simpl in *. exists errors. split; [reflexivity |]. subst errors.
  apply Forall_forall. intros r Hin. apply in_map_iff in Hin.
  destruct Hin as [p [<- _]]. reflexivity.
Qed.

Lemma get_pois_outer category args overpass random w :
  fst (get_pois category args overpass random w) <> connection_error
  /\ exists new,
       log (snd (get_pois category args overpass random w)) = log w ++ new
       /\ Forall (fun r => connection_record r = false) new.
Proof.
  unfold get_pois.
  destruct (fetch_pois_returns category overpass random w) as [pois Hr].
  destruct (fetch_pois_log category overpass random w) as [new1 [E1 H1]].
  destruct (fetch_pois category overpass random w) as [r w1].
  simpl in Hr, E1. subst r.
  match goal with
  | |- context [calculate_routes ?u ?ps w1] =>
      destruct (calculate_routes_log u ps w1) as [new2 [E2 H2]];
      destruct (calculate_routes u ps w1) as [routes w2]
  end.
  simpl in *. split; [discriminate |].
  exists (new1 ++ new2). rewrite E2, E1, app_assoc.
  split; [reflexivity | apply Forall_app; split; assumption].
Qed.

Lemma get_weather_outer args answer w :
  fst (get_weather args answer w) <> connection_error
  /\ exists new,
       log (snd (get_weather args answer w)) = log w ++ new
       /\ Forall (fun r => connection_record r = false) new.
Proof.
  unfold get_weather. rewrite fetch_weather_eq. cbn zeta.
  destruct (TTLCache.visible (now w) _ (fetch_weather_cache w)) as [[s |] |].
  { simpl. split; [discriminate |]. exists []. rewrite app_nil_r.
    split; [reflexivity | constructor]. }
  { simpl. split; [discriminate |]. exists []. rewrite app_nil_r.
    split; [reflexivity | constructor]. }
  destruct no_api_key.
  { simpl. split; [discriminate |]. exists []. rewrite app_nil_r.
    split; [reflexivity | constructor]. }
  destruct answer as [data |].
  2: { simpl. split; [discriminate |]. eexists. split; [reflexivity |].
       constructor; [reflexivity | constructor]. }
  pose proof (snapshot_complete data) as Hs.
  destruct (snapshot data) as [s | e].
  { simpl. split; [discriminate |]. exists []. rewrite app_nil_r.
    split; [reflexivity | constructor]. }
  assert (He : e <> RequestException).
  { destruct (complete data); [destruct Hs as [s Hs]; discriminate Hs |].
    destruct Hs as [e' [Hs He]]. inversion Hs. subst e'. exact He. }
  destruct e; [| | contradiction He; reflexivity]; simpl;
    (split; [discriminate |]; eexists; split; [reflexivity |];
     constructor; [reflexivity | constructor]).
Qed.

Lemma get_directions_outer args answer w :
  fst (get_directions args answer w) <> connection_error
  /\ exists new,
       log (snd (get_directions args answer w)) = log w ++ new
       /\ Forall (fun r => connection_record r = false) new.
Proof.
  unfold get_directions.
  assert (Hnone : forall resp,
            resp <> connection_error ->
            fst (error_handler (Return resp, w)) <> connection_error
            /\ exists new,
                 log (snd (error_handler (Return resp, w))) = log w ++ new
                 /\ Forall (fun r => connection_record r = false) new).
  { intros resp Hresp. simpl. split; [exact Hresp |]. exists [].
    rewrite app_nil_r. split; [reflexivity | constructor]. }
  destruct (args_get args "start_lat" None optional_float) as [slat |];
    [| apply Hnone; discriminate].
  destruct (args_get args "start_lon" None optional_float) as [slon |];
    [| apply Hnone; discriminate].
  destruct (args_get args "end_lat" None optional_float) as [elat |];
    [| apply Hnone; discriminate].
  destruct (args_get args "end_lon" None optional_float) as [elon |];
    [| apply Hnone; discriminate].
  clear Hnone. cbn zeta.
  destruct answer as [data |].
  2: { simpl. split; [discriminate |]. eexists. split; [reflexivity |].
       constructor; [reflexivity | constructor]. }
  match goal with
  | |- context [bind ?m ?k] =>
      assert (Hm : no_request_exception (bind m k));
      [| assert (Hr : forall r, bind m k = Return r -> r <> connection_error);
         [| destruct (bind m k) as [r | e]]]
  end.
  - repeat first [ apply no_request_exception_bind; [| intros ?]
                 | apply no_request_exception_item
                 | apply no_request_exception_first
                 | apply no_request_exception_return
                 | match goal with
                   | |- no_request_exception (if ?b then _ else _) => destruct b
                   end ].
  - intros r.
    destruct (od_code data) as [code |]; [| discriminate]. simpl.
    destruct (String.eqb code "Ok"); simpl.
    2: { intros E. inversion E. discriminate. }
    destruct (od_routes data) as [[| route others] |]; try discriminate. simpl.
    destruct (or_geometry route) as [geometry |]; [| discriminate]. simpl.
    destruct (g_coordinates geometry); [| discriminate]. simpl.
    destruct (or_distance route); [| discriminate]. simpl.
    destruct (or_duration route); [| discriminate]. simpl.
    intros E. inversion E. discriminate.
  - simpl. split; [apply Hr; reflexivity |]. exists []. rewrite app_nil_r.
    split; [reflexivity | constructor].
  - destruct e; [| | contradiction Hm; reflexivity]; simpl;
      (split; [discriminate |]; eexists; split; [reflexivity |];
       constructor; [reflexivity | constructor]).
Qed.

(** X21: the connection error of [error_handler] is never answered.  Every
    exception of [requests] is caught by the function that made the
    request, and [get_pois] catches every exception itself: whatever the
    providers answer and in whatever state, no endpoint answers with the
    status 503 and the payload [Error de conexión] of the
    [requests.RequestException] branch of [error_handler], the log only
    grows, and it never receives the record of that branch. *)
Theorem connection_error_never_answered :
  (forall category args overpass random w,
     fst (get_pois category args overpass random w) <> connection_error)
  /\ (forall args answer w, fst (get_weather args answer w) <> connection_error)
  /\ (forall args answer w, fst (get_directions args answer w) <> connection_error)
  /\ (forall w ev,
        exists new,
          log (step w ev) = log w ++ new
          /\ Forall (fun r => connection_record r = false) new)
  /\ (forall evs t0,
        Forall (fun r => connection_record r = false) (log (run (init t0) evs))).
Proof.
  assert (Hstep : forall w ev,
            exists new,
              log (step w ev) = log w ++ new
              /\ Forall (fun r => connection_record r = false) new).
  { intros w ev.
    destruct ev as [d | category args overpass random | args answer | args answer];
      simpl step.
    - exists []. simpl. rewrite app_nil_r. split; [reflexivity | constructor].
    - apply get_pois_outer.
    - apply get_weather_outer.
    - apply get_directions_outer. }
  split; [intros; apply get_pois_outer |].
  split; [intros; apply get_weather_outer |].
  split; [intros; apply get_directions_outer |].
  split; [exact Hstep |].
  assert (Hrun : forall evs w,
            Forall (fun r => connection_record r = false) (log w) ->
            Forall (fun r => connection_record r = false) (log (run w evs))).
  { induction evs as [| ev evs IH]; intros w Hw; simpl; [exact Hw |].
    apply IH. destruct (Hstep w ev) as [new [-> Hnew]].
    apply Forall_app. split; assumption. }
  intros evs t0. apply Hrun. simpl. constructor.
Qed.

(** ** The snapshot of the weather *)

(** The fields of a snapshot, read off a complete answer. *)
Lemma snapshot_fields data s :
  snapshot data = Return s ->
  exists entry others main wind description icon temp feels_like humidity speed,
    wd_weather data = Some (entry :: others)
    /\ wd_main data = Some main /\ wd_wind data = Some wind
    /\ we_description entry = Some description /\ we_icon entry = Some icon
    /\ wm_temp main = Some temp /\ wm_feels_like main = Some feels_like
    /\ wm_humidity main = Some humidity /\ ww_speed wind = Some speed
    /\ s = {| ws_description := capitalize description;
              ws_temperature := round_half_even temp;
              ws_feels_like := round_half_even feels_like;
              ws_humidity := humidity;
              ws_wind_speed := py_round (speed * (36 # 10)) 1;
              ws_icon := icon |}.
Proof.
  unfold snapshot.
  destruct (wd_weather data) as [[| entry others] |]; simpl; try discriminate.
  destruct (we_description entry) as [description |] eqn:Ed; simpl;
    [| discriminate].
  destruct (wd_main data) as [main |]; simpl; [| discriminate].
  destruct (wm_temp main) as [temp |] eqn:Et; simpl; [| discriminate].
  destruct (wm_feels_like main) as [feels_like |] eqn:Ef; simpl;
    [| discriminate].
  destruct (wm_humidity main) as [humidity |] eqn:Eh; simpl; [| discriminate].
  destruct (wd_wind data) as [wind |]; simpl; [| discriminate].
  destruct (ww_speed wind) as [speed |] eqn:Es; simpl; [| discriminate].
  destruct (we_icon entry) as [icon |] eqn:Ei; simpl; [| discriminate].
  intros E. inversion E.
  exists entry, others, main, wind, description, icon, temp, feels_like,
    humidity, speed.
  repeat split; assumption.
Qed.

(** X22: with an API key, a [/weather] request that is not answered from
    the cache and whose answer is complete is answered with status 200 and
    one request sent, nothing logged.  The snapshot is that of the first
    entry of [weather]: the two temperatures are whole numbers within half a
    degree of those of the provider, the wind speed, converted from m/s to
    km/h, is within 0.05 km/h of the exact conversion and not negative when
    the speed is not, and the humidity and the icon are passed on as they
    are. *)
Theorem weather_complete_answer_is_200 w args data :
  no_api_key = false ->
  TTLCache.visible (now w)
    (weather_key (fst (weather_args args)) (snd (weather_args args)))
    (fetch_weather_cache w) = None ->
  complete data = true ->
  let w1 := snd (get_weather args (Response data) w) in
  exists s entry others main wind temp feels_like speed,
    fst (get_weather args (Response data) w)
    = {| status := 200; body := JsonWeather s |}
    /\ outbound w1
       = outbound w ++ [GetWeather (fst (weather_args args)) (snd (weather_args args))]
    /\ log w1 = log w
    /\ wd_weather data = Some (entry :: others)
    /\ wd_main data = Some main /\ wd_wind data = Some wind
    /\ wm_temp main = Some temp /\ wm_feels_like main = Some feels_like
    /\ ww_speed wind = Some speed
    /\ (Qabs (inject_Z (ws_temperature s) - temp) <= 1 # 2)%Q
    /\ (Qabs (inject_Z (ws_feels_like s) - feels_like) <= 1 # 2)%Q
    /\ (Qabs (ws_wind_speed s - speed * (36 # 10)) <= 1 # 20)%Q
    /\ ((0 <= speed)%Q -> (0 <= ws_wind_speed s)%Q)
    /\ Some (ws_humidity s) = wm_humidity main
    /\ Some (ws_icon s) = we_icon entry.
Proof.
  intros Hk Hmiss Hc w1.
  pose proof (snapshot_complete data) as Hs. rewrite Hc in Hs.
  destruct Hs as [s Hs].
  destruct (snapshot_fields data s Hs)
    as (entry & others & main & wind & description & icon & temp & feels_like
        & humidity & speed & Ew & Em & Ewi & Ed & Ei & Et & Ef & Eh & Esp & Es).
  unfold weather_args in *. simpl fst in *. simpl snd in *.
  assert (E1 : get_weather args (Response data) w
               = ({| status := 200; body := JsonWeather s |},
                  set_fetch_weather_cache
                    (TTLCache.setitem (now w)
                       (weather_key
                          (args_get args "lat" DEFAULT_LAT float_of_string)
                          (args_get args "lon" DEFAULT_LON float_of_string))
                       (Some s)
                       (snd (TTLCache.getitem (now w)
                               (weather_key
                                  (args_get args "lat" DEFAULT_LAT float_of_string)
                                  (args_get args "lon" DEFAULT_LON float_of_string))
                               (fetch_weather_cache w))))
                    (send (GetWeather
                             (args_get args "lat" DEFAULT_LAT float_of_string)
                             (args_get args "lon" DEFAULT_LON float_of_string)) w))).
  { unfold get_weather. rewrite fetch_weather_eq. cbn zeta.
    rewrite Hmiss, Hk, Hs. reflexivity. }
  unfold w1. rewrite E1. simpl fst. simpl snd.
  exists s, entry, others, main, wind, temp, feels_like, speed.
  split; [reflexivity |]. split; [reflexivity |]. split; [reflexivity |].
  split; [exact Ew |]. split; [exact Em |]. split; [exact Ewi |].
  split; [exact Et |]. split; [exact Ef |]. split; [exact Esp |].
  rewrite Es. cbn [ws_temperature ws_feels_like ws_wind_speed ws_humidity ws_icon].
  split.
  { apply Qabs_Qle_condition. apply round_half_even_error. }
  split.
  { apply Qabs_Qle_condition. apply round_half_even_error. }
  split.
  { pose proof (py_round_error (speed * (36 # 10)) 1) as Herr.
    change (inject_Z (10 ^ Z.of_nat 1)) with 10%Q in Herr.
    apply Qmult_le_r with (z := 10%Q); [reflexivity |].
    eapply Qle_trans; [exact Herr | discriminate]. }
  split.
  { intros Hsp. apply py_round_nonneg.
    apply Qmult_le_0_compat; [exact Hsp | discriminate]. }
  split; [symmetry; exact Eh | symmetry; exact Ei].
Qed.

(** ** Names of the records *)

(** X23: the name of a record is never the placeholder.  In every reachable
    state, every record of a list that [fetch_pois] returns, from the
    provider or from one of the two caches, has a name other than
    [Sin nombre] and a rating in the closed interval [3.5, 5.0]; the name of
    a record the loop builds is the value of the [name] tag of its element,
    so that an element without tags or without that tag gives no record. *)
Theorem fetch_pois_records_named :
  (forall w category overpass random pois,
     reachable w -> (forall n, unit_sample (random n)) ->
     fst (fetch_pois category overpass random w) = Return pois ->
     Forall (fun p => named p /\ rated p) pois)
  /\ (forall all category u latlon element p latlon',
        process_element all category u latlon element = (Append p, latlon') ->
        exists tags,
          e_tags element = Some tags
          /\ dict_get "name" tags = Some (poi_name p)).
Proof.
  split.
  - intros w category overpass random pois Hw Hr Hp.
    destruct (fetch_pois_result_cached _ _ _ _ _ Hp) as [l [Hin [_ <-]]].
    assert (Hinv : inv (snd (fetch_pois category overpass random w)))
      by (apply inv_fetch_pois; [exact Hr | apply inv_reachable; exact Hw]).
    destruct Hinv as [_ [_ [_ [_ Hg]]]]. apply Hg. left. exact Hin.
  - intros all category u latlon element p latlon'. unfold process_element.
    destruct (locate all element latlon) as [t | ll] eqn:El.
    + intros E. inversion E; subst. apply locate_exit in El.
      destruct El; discriminate.
    + destruct (String.eqb _ Sin_nombre) eqn:En; [discriminate |].
      destruct ll as [[lat lon] |]; [| discriminate].
      intros E. inversion E; subst; clear E. simpl.
      apply String.eqb_neq in En. unfold get in *.
      destruct (e_tags element) as [tags |].
      * exists tags. split; [reflexivity |].
        destruct (dict_get "name" tags); [reflexivity | contradiction].
      * simpl in En. contradiction.
Qed.

End App.

(** * The model at concrete inputs *)

Local Open Scope list_scope.

(** ** Where the specification and the code part ways *)

(** C1 at the failing input: for the category [hotel] and a provider answer
    whose only element is a node tagged with an empty [name], [fetch_pois]
    returns one record, and the name of that record is the empty string. *)
Lemma C1_empty_name_is_kept :
  valid_category "hotel" = true
  /\ exists p w',
       fetch_pois "hotel" (answer nameless) half (init 0) = (Return [p], w')
       /\ poi_name p = ""%string
       /\ ~ Forall (fun p => poi_name p <> ""%string /\ rated p) [p].
Proof.
  split; [reflexivity |]. eexists. eexists. split; [vm_compute; reflexivity |].
  split; [reflexivity |].
  intros H. inversion H as [| p ps [Hn _] _]; subst. apply Hn. reflexivity.
Qed.

(** C2, as stated in the specification, fails: an element that the provider
    lists twice gives two equal records. *)
Lemma C2_repeated_element_repeated_record :
  valid_category "hotel" = true
  /\ exists pois w',
       fetch_pois "hotel" (answer repeated) half (init 0) = (Return pois, w')
       /\ ~ NoDup pois.
Proof.
  split; [reflexivity |]. eexists. eexists. split; [vm_compute; reflexivity |].
  intros H. inversion H as [| p ps Hnotin _]; subst. apply Hnotin. left.
  reflexivity.
Qed.

(** C3, as stated in the specification, fails in its last part: the second
    call with the same unknown category is answered from the decorator
    cache and logs no warning. *)
Lemma C3_second_call_logs_nothing :
  let w1 := snd (fetch_pois "museum" RequestFailed half (init 0)) in
  let w2 := snd (fetch_pois "museum" RequestFailed half w1) in
  valid_category "museum" = false
  /\ ~ In (WarnInvalidCategory "museum") (logged_between w1 w2).
Proof. vm_compute. split; [reflexivity | intros []]. Qed.

(** C4, as stated in the specification, fails: a first call whose provider
    request fails and a second call one hour later are less than 24 hours
    apart, yet the second one contacts the provider and returns another
    list. *)
Lemma C4_second_call_after_failure :
  let w1 := snd (fetch_pois "hotel" RequestFailed half (init 0)) in
  let w2 := tick (seconds 3600) w1 in
  (now w2 < now (init 0) + seconds 86400)%N
  /\ fst (fetch_pois "hotel" RequestFailed half (init 0)) = Return []
  /\ fst (fetch_pois "hotel" (answer two_hotels) half w2) <> Return []
  /\ outbound (snd (fetch_pois "hotel" (answer two_hotels) half w2)) <> outbound w2.
Proof.
  vm_compute. split; [reflexivity |]. split; [reflexivity |].
  split; intros H; discriminate H.
Qed.

(** C8, as stated in the specification, fails: two latitudes that agree
    once rounded to four decimals or fewer are two different keys, and the
    second call, made at once, sends a request. *)
Lemma C8_nearby_coordinates_not_shared :
  let lat1 := (-1584031 # 100000)%Q in
  let lat2 := (-1584032 # 100000)%Q in
  let w1 := snd (fetch_weather example_api_key example_capitalize
                   lat1 DEFAULT_LON clear_sky (init 0)) in
  (forall ndigits, ndigits <= 4 -> (py_round lat1 ndigits == py_round lat2 ndigits)%Q)
  /\ (now w1 < now (init 0) + seconds 300)%N
  /\ outbound (snd (fetch_weather example_api_key example_capitalize
                      lat2 DEFAULT_LON clear_sky w1))
     <> outbound w1.
Proof.
  intros lat1 lat2 w1. split; [| split].
  - intros ndigits Hd.
    do 5 (destruct ndigits as [| ndigits]; [vm_compute; reflexivity |]). lia.
  - vm_compute. reflexivity.
  - vm_compute. intros H; discriminate H.
Qed.

(** C10, as stated, fails: when a hundred other category strings are
    requested after the failed call, the memoised empty list is evicted,
    and the next call, still within the hour, contacts the provider. *)
Lemma C10_evicted_by_a_hundred_requests :
  let w1 := snd (fetch_pois "hotel" RequestFailed half (init 0)) in
  let evs := map (fun c => Pois c [] RequestFailed half) hundred_strings in
  let w2 := run example_api_key example_capitalize example_float
              example_distance w1 evs in
  outbound w1 <> outbound (init 0)
  /\ (elapsed evs < seconds 3600)%N
  /\ fst (fetch_pois "hotel" (answer two_hotels) half w2) <> Return []
  /\ outbound (snd (fetch_pois "hotel" (answer two_hotels) half w2)) <> outbound w2.
Proof.
  vm_compute. split; [intros H; discriminate H |]. split; [reflexivity |].
  split; intros H; discriminate H.
Qed.

(** ** The theorems at work *)

(** A cache filled with the keys "00" to "99": after a read of "00", a
    store under a new key gives up "01", the least recently used entry, and
    keeps "00". *)
Example least_recently_used_is_evicted :
  let c := cache_run (TTLCache.empty (seconds 300)) hundred_stores in
  let c' := cache_run c [@Get string nat 1%N "00"%string;
                          @Put string nat 2%N "new"%string 7] in
  TTLCache.currsize c = 100 /\ TTLCache.currsize c' = 100
  /\ TTLCache.visible 3%N "00"%string c' = Some 0
  /\ TTLCache.visible 3%N "01"%string c' = None
  /\ TTLCache.visible 3%N "02"%string c' = Some 2
  /\ TTLCache.visible 3%N "new"%string c' = Some 7.
Proof. vm_compute. repeat split. Qed.

Lemma example_reachable :
  reachable example_api_key example_capitalize example_float example_distance
    (init 0).
Proof. exists 0%N, []. split; [constructor | reflexivity]. Defined.

Lemma half_unit_sample : forall n, unit_sample (half n).
Proof. intros n. split; [discriminate | reflexivity]. Defined.

Lemma C2_witness :
  exists pois,
    fst (fetch_pois "hotel" (answer two_hotels) half (init 0)) = Return pois
    /\ map poi_name pois = filter has_name (map element_name two_hotels)
    /\ (NoDup (filter has_name (map element_name two_hotels)) -> NoDup pois).
Proof.
  apply (C2_fetch_pois_one_record_per_named_node (init 0) "hotel"
           {| d_elements := Some two_hotels |} half two_hotels);
    try reflexivity.
  repeat constructor; discriminate.
Defined.

Lemma C3_witness :
  fst (fetch_pois "museum" (answer two_hotels) half (init 0)) = Return []
  /\ outbound (snd (fetch_pois "museum" (answer two_hotels) half (init 0)))
     = outbound (init 0)
  /\ log (snd (fetch_pois "museum" (answer two_hotels) half (init 0)))
     = log (init 0)
       ++ match TTLCache.visible (now (init 0)) "museum"%string
                  (fetch_pois_cache (init 0)) with
          | Some _ => []
          | None => [WarnInvalidCategory "museum"]
          end.
Proof.
  apply (C3_fetch_pois_invalid_category example_api_key example_capitalize
           example_float example_distance (init 0) "museum" (answer two_hotels) half).
  - exact example_reachable.
  - reflexivity.
Defined.

Lemma C4_witness :
  let w1 := snd (fetch_pois "hotel" (answer two_hotels) half (init 0)) in
  let evs := [Tick (seconds 7200); Pois "restaurant" [] RequestFailed half] in
  let w2 := run example_api_key example_capitalize example_float
              example_distance w1 evs in
  fst (fetch_pois "hotel" RequestFailed half w2)
  = fst (fetch_pois "hotel" (answer two_hotels) half (init 0))
  /\ outbound (snd (fetch_pois "hotel" RequestFailed half w2)) = outbound w2.
Proof.
  intros w1 evs w2.
  apply (proj2 (C4_repeat_within_poi_cache_ttl example_api_key example_capitalize
                  example_float example_distance (init 0) "hotel"
                  (answer two_hotels) half example_reachable half_unit_sample)
           {| d_elements := Some two_hotels |} eq_refl).
  - vm_compute. intros H. discriminate H.
  - constructor; [exact I |]. constructor; [exact half_unit_sample | constructor].
  - reflexivity.
Defined.

Lemma C6_witness :
  let c := cache_run (TTLCache.empty (seconds 300)) hundred_stores in
  TTLCache.links (TTLCache.setitem 5%N "new"%string 7 c)
  = (if forallb (TTLCache.live 5%N) (TTLCache.links c)
     then tl (TTLCache.links c)
     else filter (TTLCache.live 5%N) (TTLCache.links c))
    ++ [{| TTLCache.key := "new"%string; TTLCache.value := 7;
           TTLCache.expires := (5 + seconds 300)%N |}]
  /\ TTLCache.visible 5%N "new"%string (TTLCache.setitem 5%N "new"%string 7 c)
     = Some 7
  /\ TTLCache.currsize (TTLCache.setitem 5%N "new"%string 7 c) <= 100.
Proof.
  intros c.
  destruct (proj2 (C6_capacity_and_eviction example_api_key example_capitalize
                     example_float example_distance)
              string nat _ (seconds 300) hundred_stores eq_refl) as [_ Hfull].
  apply (Hfull 5%N "new"%string 7).
  - vm_compute. reflexivity.
  - vm_compute. intros H.
    repeat (destruct H as [H | H]; [discriminate H |]). exact H.
Defined.

Lemma C7_witness :
  exists p,
    process_element plaza_answer "attraction" (1 # 2) None plaza
    = (Append p, Some (mean [0; 3 # 1; 0]%Q, mean [0; 0; 6 # 1]%Q))
    /\ poi_location p = (mean [0; 3 # 1; 0]%Q, mean [0; 0; 6 # 1]%Q)
    /\ poi_name p = "Plaza de Armas"%string
    /\ (fst (poi_location p) == 1)%Q /\ (snd (poi_location p) == 2)%Q.
Proof.
  destruct (proj1 (proj2 (C7_way_location_is_mean plaza_answer "attraction"
                            (1 # 2) None plaza eq_refl))
              [0; 3 # 1; 0]%Q [0; 0; 6 # 1]%Q)
    as [p [Hturn [Hloc Hname]]].
  - repeat (constructor; [split; [discriminate | intros _; discriminate] |]).
    constructor.
  - reflexivity.
  - reflexivity.
  - discriminate.
  - reflexivity.
  - exists p. split; [exact Hturn |]. split; [exact Hloc |].
    split; [exact Hname |]. rewrite Hloc. split; reflexivity.
Defined.

Lemma C8_witness :
  let lat := (-1584031 # 100000)%Q in
  let w1 := snd (fetch_weather example_api_key example_capitalize
                   lat DEFAULT_LON clear_sky (init 0)) in
  let evs := [Tick (seconds 120);
              Weather [("lat", "-15.84"); ("lon", "-70.02")]%string clear_sky] in
  let w2 := run example_api_key example_capitalize example_float
              example_distance w1 evs in
  fst (fetch_weather example_api_key example_capitalize
         (-3168062 # 200000) DEFAULT_LON RequestFailed w2)
  = Return (Some clear_sky_snapshot)
  /\ outbound (snd (fetch_weather example_api_key example_capitalize
                      (-3168062 # 200000) DEFAULT_LON RequestFailed w2))
     = outbound w2.
Proof.
  intros lat w1 evs w2.
  apply (C8_weather_cached_per_exact_coordinates example_api_key
           example_capitalize example_float example_distance (init 0)
           lat DEFAULT_LON clear_sky (Some clear_sky_snapshot)).
  - exact example_reachable.
  - reflexivity.
  - vm_compute. reflexivity.
  - split; intros H; discriminate H.
  - constructor; [exact I |]. constructor; [exact I | constructor].
  - constructor; [split; intros H; discriminate H | constructor].
  - reflexivity.
  - reflexivity.
  - reflexivity.
  - vm_compute. lia.
Defined.

Lemma C9_witness :
  get_directions example_float
    [("start_lat", "-15.84"); ("start_lon", "-70.02"); ("end_lon", "-70.03")]%string
    RequestFailed (init 0)
  = ({| status := 400; body := JsonError "Faltan parámetros de ubicación" |},
     init 0).
Proof.
  apply (C9_directions_missing_parameter example_float _ RequestFailed (init 0)
           "end_lat").
  - simpl. auto.
  - exact I.
Defined.

Lemma C10_witness :
  let w1 := snd (fetch_pois "hotel" RequestFailed half (init 0)) in
  let evs := [Pois "museum" [] RequestFailed half; Tick (seconds 1800);
              Pois "restaurant" [("rating", "4.5")]%string (answer two_hotels) half] in
  let w2 := run example_api_key example_capitalize example_float
              example_distance w1 evs in
  fst (fetch_pois "hotel" (answer two_hotels) half w2) = Return []
  /\ outbound (snd (fetch_pois "hotel" (answer two_hotels) half w2)) = outbound w2.
Proof.
  intros w1 evs w2.
  apply (proj2 (C10_failure_is_memoised example_api_key example_capitalize
                  example_float example_distance (init 0) "hotel" half
                  example_reachable
                  ltac:(vm_compute; intros H; discriminate H))).
  - constructor; [exact half_unit_sample |]. constructor; [exact I |].
    constructor; [exact half_unit_sample | constructor].
  - reflexivity.
  - vm_compute. lia.
Defined.

(** * Further properties at work *)

(** ** The decorator, for any function *)

Section Decorator.
Context {K V : Type} `{EqKey K}.
Variable cache : world -> TTLCache.t K V.
Variable set_cache : TTLCache.t K V -> world -> world.
Hypothesis cache_set : forall c w, cache (set_cache c w) = c.
Hypothesis now_set : forall c w, now (set_cache c w) = now w.

(** X4: the decorator memoises what the function returns.  For a function
    that leaves the decorator's cache and the clock alone, after a call that
    returned [r] the same call made at once returns [r] whatever function is
    decorated: the function is not run, only the order of use in the cache
    changes. *)
Theorem timed_lru_cache_repeats key f g w r :
  (forall w0, cache (snd (f w0)) = cache w0 /\ now (snd (f w0)) = now w0) ->
  (0 < TTLCache.ttl (cache w))%N ->
  fst (timed_lru_cache cache set_cache key f w) = Return r ->
  let w1 := snd (timed_lru_cache cache set_cache key f w) in
  timed_lru_cache cache set_cache key g w1
  = (Return r, set_cache (snd (TTLCache.getitem (now w1) key (cache w1))) w1).
Proof.
  intros Hf Httl. unfold timed_lru_cache at 1 2. rewrite getitem_eq.
  destruct (TTLCache.visible (now w) key (cache w)) as [v |] eqn:Ev.
  - cbn [fst snd]. intros E. inversion E; subst v. cbv zeta.
    unfold timed_lru_cache. rewrite getitem_eq.
    rewrite cache_set, now_set, visible_getitem, Ev. reflexivity.
  - destruct (Hf (set_cache (snd (TTLCache.getitem (now w) key (cache w))) w))
      as [Hc Hn].
    destruct (f (set_cache (snd (TTLCache.getitem (now w) key (cache w))) w))
      as [res w'].
    simpl in Hc, Hn. destruct res as [res | e]; cbn [fst snd]; [| discriminate].
    intros E. inversion E; subst res. cbv zeta.
    unfold timed_lru_cache. rewrite getitem_eq.
    rewrite cache_set, now_set, (visible_setitem_same (fun _ _ => None)).
    rewrite Hc, cache_set, getitem_ttl.
    replace (now w' <? now w' + TTLCache.ttl (cache w))%N with true
      by (symmetry; apply N.ltb_lt; apply N.lt_add_pos_r; exact Httl).
    reflexivity.
Qed.

(** X5: the decorator does not memoise an exception.  When the decorated
    function raises, the exception goes through and the cache shows, under
    every key and at every time, what it showed before the call. *)
Theorem timed_lru_cache_raise_not_stored key f w e :
  (forall w0, cache (snd (f w0)) = cache w0) ->
  fst (timed_lru_cache cache set_cache key f w) = Raise e ->
  forall now' k,
    TTLCache.visible now' k (cache (snd (timed_lru_cache cache set_cache key f w)))
    = TTLCache.visible now' k (cache w).
Proof.
  intros Hf. unfold timed_lru_cache. rewrite getitem_eq.
  destruct (TTLCache.visible (now w) key (cache w)) as [v |]; [discriminate |].
  pose proof (Hf (set_cache (snd (TTLCache.getitem (now w) key (cache w))) w)) as Hc.
  destruct (f (set_cache (snd (TTLCache.getitem (now w) key (cache w))) w))
    as [res w'].
  simpl in Hc. destruct res as [res | e']; simpl; [discriminate |].
  intros _ now' k. rewrite Hc, cache_set. apply visible_getitem.
Qed.
End Decorator.

(** ** The further properties at concrete inputs *)

Lemma morning_reachable :
  reachable example_api_key example_capitalize example_float example_distance
    (run example_api_key example_capitalize example_float example_distance
       (init 0) morning).
Proof.
  exists 0%N, morning. split; [| reflexivity].
  constructor; [exact half_unit_sample |].
  constructor; [exact half_unit_sample |].
  constructor; [exact half_unit_sample |].
  constructor; [exact I | constructor].
Defined.

Lemma X1_witness :
  fst (get_weather None example_capitalize example_float [] clear_sky (init 0))
  = {| status := 503;
       body := JsonError "No se pudo obtener la información del clima" |}
  /\ outbound (snd (get_weather None example_capitalize example_float []
                      clear_sky (init 0)))
     = outbound (init 0)
  /\ log (snd (get_weather None example_capitalize example_float []
                 clear_sky (init 0)))
     = log (init 0).
Proof.
  apply (weather_unavailable_without_key None example_capitalize example_float
           example_distance (init 0) [] clear_sky).
  - reflexivity.
  - exists 0%N, []. split; [constructor | reflexivity].
Defined.

Lemma X2_witness :
  let unavailable :=
    {| status := 503;
       body := JsonError "No se pudo obtener la información del clima" |} in
  let w1 := snd (get_weather example_api_key example_capitalize example_float
                   [] RequestFailed (init 0)) in
  fst (get_weather example_api_key example_capitalize example_float
         [] RequestFailed (init 0)) = unavailable
  /\ outbound w1 = outbound (init 0) ++ [GetWeather DEFAULT_LAT DEFAULT_LON]
  /\ log w1 = log (init 0) ++ [ErrorWeather]
  /\ forall answer,
       fst (get_weather example_api_key example_capitalize example_float
              [] answer w1) = unavailable
       /\ outbound (snd (get_weather example_api_key example_capitalize
                           example_float [] answer w1)) = outbound w1.
Proof.
  apply (weather_provider_failure_is_503 example_api_key example_capitalize
           example_float example_distance (init 0) []).
  - exact example_reachable.
  - reflexivity.
  - reflexivity.
Defined.

Lemma X3_witness :
  let asked := GetWeather DEFAULT_LAT DEFAULT_LON in
  let w1 := snd (get_weather example_api_key example_capitalize example_float
                   [] no_wind (init 0)) in
  fst (get_weather example_api_key example_capitalize example_float
         [] no_wind (init 0))
  = {| status := 500; body := JsonError "Error interno del servidor" |}
  /\ outbound w1 = outbound (init 0) ++ [asked]
  /\ log w1 = log (init 0) ++ [ErrorUnexpected]
  /\ forall answer,
       outbound (snd (get_weather example_api_key example_capitalize
                        example_float [] answer w1)) = outbound w1 ++ [asked].
Proof.
  apply (weather_incomplete_answer_is_500 example_api_key example_capitalize
           example_float (init 0) [] no_wind_data).
  - reflexivity.
  - reflexivity.
  - reflexivity.
Defined.

Lemma X4_witness :
  let w1 := snd (fetch_pois "hotel" (answer two_hotels) half (init 0)) in
  fetch_pois "hotel" RequestFailed half w1
  = (Return two_hotel_records,
     set_fetch_pois_cache
       (snd (TTLCache.getitem (now w1) "hotel"%string (fetch_pois_cache w1))) w1).
Proof.
  apply (timed_lru_cache_repeats fetch_pois_cache set_fetch_pois_cache
           (fun c w => eq_refl) (fun c w => eq_refl) "hotel"%string
           (fetch_pois_wrapped "hotel" (answer two_hotels) half)
           (fetch_pois_wrapped "hotel" RequestFailed half)
           (init 0) two_hotel_records).
  - intros w0.
    destruct (fetch_pois_wrapped_frame "hotel" (answer two_hotels) half w0)
      as [pois [_ [Hnow [Hmemo _]]]].
    split; [exact Hmemo | exact Hnow].
  - reflexivity.
  - vm_compute. reflexivity.
Defined.

Lemma X5_witness :
  TTLCache.visible (seconds 10) (weather_key DEFAULT_LAT DEFAULT_LON)
    (fetch_weather_cache
       (snd (fetch_weather example_api_key example_capitalize
               DEFAULT_LAT DEFAULT_LON no_wind (init 0))))
  = TTLCache.visible (seconds 10) (weather_key DEFAULT_LAT DEFAULT_LON)
      (fetch_weather_cache (init 0)).
Proof.
  apply (timed_lru_cache_raise_not_stored fetch_weather_cache
           set_fetch_weather_cache (fun c w => eq_refl)
           (weather_key DEFAULT_LAT DEFAULT_LON)
           (fetch_weather_wrapped example_api_key example_capitalize
              DEFAULT_LAT DEFAULT_LON no_wind)
           (init 0) KeyError).
  - intros w0. reflexivity.
  - vm_compute. reflexivity.
Defined.

Lemma X7_witness :
  let resp := fst (get_directions example_float four_coordinates RequestFailed
                     (init 0)) in
  let w1 := snd (get_directions example_float four_coordinates RequestFailed
                   (init 0)) in
  outbound w1
  = outbound (init 0)
    ++ [GetRoute (-7002 # 100) (-1584 # 100) (-7003 # 100) (-1585 # 100)]
  /\ (fetch_pois_cache w1 = fetch_pois_cache (init 0)
      /\ POI_CACHE w1 = POI_CACHE (init 0)
      /\ fetch_weather_cache w1 = fetch_weather_cache (init 0)
      /\ now w1 = now (init 0))
  /\ resp = {| status := 503; body := JsonError "Error al obtener la ruta" |}
  /\ log w1 = log (init 0) ++ [ErrorDirections].
Proof.
  intros resp w1.
  destruct (directions_always_asks example_float four_coordinates RequestFailed
              (init 0) (-1584 # 100) (-7002 # 100) (-1585 # 100) (-7003 # 100)
              eq_refl eq_refl eq_refl eq_refl)
    as [Hsent [Hframe [Hfailed _]]].
  split; [exact Hsent |]. split; [exact Hframe |]. exact (Hfailed eq_refl).
Defined.

Lemma X8_witness :
  exists data route others geometry coordinates distance duration km minutes,
    one_route = Response data
    /\ od_code data = Some "Ok"%string
    /\ od_routes data = Some (route :: others)
    /\ or_geometry route = Some geometry
    /\ g_coordinates geometry = Some coordinates
    /\ or_distance route = Some distance
    /\ or_duration route = Some duration
    /\ body (fst (get_directions example_float four_coordinates one_route (init 0)))
       = JsonDirections coordinates km minutes
    /\ (Qabs (km - distance / 1000) <= 1 # 200)%Q
    /\ ((0 <= distance)%Q -> (0 <= km)%Q)
    /\ (Qabs (inject_Z minutes - duration / 60) <= 1 # 2)%Q
    /\ List.length (outbound (snd (get_directions example_float four_coordinates
                                     one_route (init 0))))
       = S (List.length (outbound (init 0))).
Proof.
  apply (directions_ok_carries_first_route example_float four_coordinates
           one_route (init 0)).
  reflexivity.
Defined.

Lemma X10_witness :
  exists d,
    example_distance (DEFAULT_LAT, DEFAULT_LON)
      (poi_location (r_poi first_hotel_route)) = Some d
    /\ (Qabs (r_distance first_hotel_route - d) <= 1 # 200)%Q
    /\ ((0 <= d)%Q -> (0 <= r_distance first_hotel_route)%Q).
Proof.
  apply (route_distance_is_rounded_geodesic example_distance
           (DEFAULT_LAT, DEFAULT_LON) [first_hotel] (init 0) first_hotel_route).
  left. vm_compute. reflexivity.
Defined.

Lemma X11_witness :
  fst (get_pois threshold_float example_distance "hotel"
         [("rating", "5.5")]%string (answer two_hotels) half (init 0))
  = {| status := 200; body := JsonRoutes [] |}.
Proof.
  apply (proj1 (pois_rating_thresholds example_api_key example_capitalize
                  threshold_float example_distance (init 0) "hotel"
                  [("rating", "5.5")]%string (answer two_hotels) half
                  two_hotel_records
                  (ex_intro _ 0%N (ex_intro _ [] (conj (Forall_nil _) eq_refl)))
                  half_unit_sample
                  ltac:(vm_compute; reflexivity))).
  reflexivity.
Defined.

Lemma X12_witness :
  Forall (fun p => poi_type p = "hotel"%string) two_hotel_records.
Proof.
  apply (fetch_pois_type_is_category example_api_key example_capitalize
           example_float example_distance (init 0) "hotel" (answer two_hotels)
           half two_hotel_records).
  - exact example_reachable.
  - exact half_unit_sample.
  - vm_compute. reflexivity.
Defined.

Lemma X13_witness : Forall one_decimal_rating two_hotel_records.
Proof.
  apply (fetch_pois_rating_has_one_decimal example_api_key example_capitalize
           example_float example_distance (init 0) "hotel" (answer two_hotels)
           half two_hotel_records).
  - exact example_reachable.
  - exact half_unit_sample.
  - vm_compute. reflexivity.
Defined.

Lemma X14_witness :
  let w := run example_api_key example_capitalize example_float
             example_distance (init 0) morning in
  TTLCache.currsize (POI_CACHE w) <= 3
  /\ NoDup (TTLCache.keys (POI_CACHE w))
  /\ incl (TTLCache.keys (POI_CACHE w)) poi_cache_keys.
Proof.
  apply (poi_cache_holds_three_keys example_api_key example_capitalize
           example_float example_distance).
  exact morning_reachable.
Defined.

Lemma X16_witness :
  let w := tick (seconds 300)
             (run example_api_key example_capitalize example_float
                example_distance (init 0) morning) in
  outbound (snd (fetch_weather example_api_key example_capitalize
                   DEFAULT_LAT DEFAULT_LON clear_sky w))
  = outbound w ++ [GetWeather DEFAULT_LAT DEFAULT_LON].
Proof.
  apply (weather_not_served_beyond_ttl example_api_key example_capitalize
           example_float example_distance).
  - exact morning_reachable.
  - reflexivity.
  - apply N.le_refl.
Defined.

Lemma X17_witness :
  let w := tick (seconds 86400)
             (run example_api_key example_capitalize example_float
                example_distance (init 0) morning) in
  exists query,
    dict_get "hotel"%string queries = Some query
    /\ outbound (snd (fetch_pois "hotel" RequestFailed half w))
       = outbound w ++ [GetOverpass query].
Proof.
  apply (pois_asked_again_after_idle_day example_api_key example_capitalize
           example_float example_distance).
  - exact morning_reachable.
  - reflexivity.
  - apply N.le_refl.
Defined.

Lemma X18_witness :
  let w := run example_api_key example_capitalize example_float
             example_distance (init 0) morning in
  TTLCache.visible (seconds 60) "pois_hotel"%string
    (POI_CACHE (snd (fetch_pois "attraction" RequestFailed half w)))
  = TTLCache.visible (seconds 60) "pois_hotel"%string (POI_CACHE w).
Proof.
  apply (fetch_pois_failure_leaves_poi_cache
           (run example_api_key example_capitalize example_float
              example_distance (init 0) morning)
           "attraction" RequestFailed half).
  right. reflexivity.
Defined.

Lemma X19_witness :
  process_element (plaza_answer ++ [typeless]) "attraction" (1 # 2) None plaza
  = (Failed, None).
Proof.
  apply (typeless_element_fails_every_way (plaza_answer ++ [typeless])
           "attraction" (1 # 2) None plaza typeless).
  - apply in_or_app. right. left. reflexivity.
  - reflexivity.
  - reflexivity.
Defined.


Lemma X22_witness :
  let w1 := snd (get_weather example_api_key example_capitalize example_float
                   [] (Response clear_sky_data) (init 0)) in
  exists s entry others main wind temp feels_like speed,
    fst (get_weather example_api_key example_capitalize example_float
           [] (Response clear_sky_data) (init 0))
    = {| status := 200; body := JsonWeather s |}
    /\ outbound w1 = outbound (init 0) ++ [GetWeather DEFAULT_LAT DEFAULT_LON]
    /\ log w1 = log (init 0)
    /\ wd_weather clear_sky_data = Some (entry :: others)
    /\ wd_main clear_sky_data = Some main /\ wd_wind clear_sky_data = Some wind
    /\ wm_temp main = Some temp /\ wm_feels_like main = Some feels_like
    /\ ww_speed wind = Some speed
    /\ (Qabs (inject_Z (ws_temperature s) - temp) <= 1 # 2)%Q
    /\ (Qabs (inject_Z (ws_feels_like s) - feels_like) <= 1 # 2)%Q
    /\ (Qabs (ws_wind_speed s - speed * (36 # 10)) <= 1 # 20)%Q
    /\ ((0 <= speed)%Q -> (0 <= ws_wind_speed s)%Q)
    /\ Some (ws_humidity s) = wm_humidity main
    /\ Some (ws_icon s) = we_icon entry.
Proof.
  apply (weather_complete_answer_is_200 example_api_key example_capitalize
           example_float (init 0) [] clear_sky_data).
  - reflexivity.
  - reflexivity.
  - reflexivity.
Defined.

Lemma X23_witness :
  Forall (fun p => named p /\ rated p) two_hotel_records.
Proof.
  apply (proj1 (fetch_pois_records_named example_api_key example_capitalize
                  example_float example_distance)
           (init 0) "hotel" (answer two_hotels) half two_hotel_records).
  - exact example_reachable.
  - exact half_unit_sample.
  - vm_compute. reflexivity.
Defined.
